(** * mkube-console: the cluster aggregation layer

    A shallow embedding of [internal/cluster] (the per-node HTTP client and
    the aggregator over a registry of such clients), followed by the
    properties of the aggregation layer proved against it.

    Conventions.
    - Go's [(value, error)] results are [result A]; a [nil] error is [Ok].
    - A method with a pointer receiver that assigns to the receiver's
      fields returns the updated receiver ([NodeClient_Ping]).  The only
      holder of a [*NodeClient] is the registry, under the client's name:
      the loops work on the clients read from it, and the probe pass writes
      the probed client back under that name.
    - The remote nodes, the JSON codec and the clock are the [World]: one
      snapshot of what every request would be answered with.
    - Every [httpClient.Do] and every [log.Printf] is recorded in a trace,
      so that "which node was contacted" is a fact about the model.
    - Go's map iteration order is not specified: every [range a.clients]
      takes the order in which the keys are visited as an argument.
    - The goroutines of a fan-out append under one mutex, a whole node at
      a time: a fan-out takes the order in which they get the mutex as an
      argument. *)

From stdpp Require Import gmap strings list fin_maps.
From Stdlib Require Import ZArith Lia.

Open Scope string_scope.
Open Scope Z_scope.
Open Scope list_scope.

(** ** Go base types *)

(** [int] on a 64-bit platform: two's complement wrap-around. *)
Definition wrap_int (z : Z) : Z := (z + 2 ^ 63) mod 2 ^ 64 - 2 ^ 63.

Definition int_add (x y : Z) : Z := wrap_int (x + y).

(** [len(s)] of a slice, as an [int]. *)
Definition len {A} (l : list A) : Z := Z.of_nat (length l).

(** [^uint(0)]: all 64 bits set. *)
Definition uint_max : Z := Z.ones 64.

(** [int(^uint(0) >> 1)], the largest [int]. *)
Definition maxInt : Z := Z.shiftr uint_max 1.

(** [time.Time] as nanoseconds since the zero time. *)
Definition Time : Type := Z.
Definition zeroTime : Time := 0.

(** ** Errors

    Each [fmt.Errorf] of the package is a constructor carrying the values
    the format string is applied to; errors of the libraries carry their
    message. *)
Inductive error : Type :=
| ErrNewRequest (msg : string)
    (* http.NewRequestWithContext failed *)
| ErrDo (msg : string)
    (* httpClient.Do failed: transport error, timeout, cancelled context *)
| ErrDecode (msg : string)
    (* json Decode failed *)
| ErrMarshal (msg : string)
    (* json.Marshal failed *)
| ErrHealthCheck (node : string) (status : Z)
    (* "node %s health check returned %d" *)
| ErrReturned (method path : string) (status : Z) (body : string)
    (* "GET %s returned %d: %s", "POST %s returned %d: %s" *)
| ErrDeletePodFailed (status : Z) (body : string)
    (* "delete pod failed (%d): %s" *)
| ErrGetPodLogFailed (status : Z) (body : string)
    (* "get pod log failed (%d): %s" *)
| ErrPodNotFound (ns name : string)
    (* "pod %s/%s not found on any node" *)
| ErrNodeNotFound (name : string)
    (* "node %q not found" *)
| ErrNoHealthyNodes.
    (* "no healthy nodes available" *)

Inductive result (A : Type) : Type :=
| Ok (x : A)
| Err (e : error).
Arguments Ok {A} x.
Arguments Err {A} e.

Definition is_ok {A} (r : result A) : bool :=
  match r with Ok _ => true | Err _ => false end.

(** ** Remote resources (the fields of [corev1] the package reads) *)

Module corev1.

Record ObjectMeta : Type := {
  Name : string;
  Namespace : string;
  (* a nil map is [None] *)
  Annotations : option (gmap string string)
}.

Record PodSpec : Type := { NodeName : string }.

Record PodStatus : Type := { Phase : string }.

(** [ObjectMeta] is embedded in [Pod] and [Node]: [pod.Namespace] is
    [Namespace (Meta pod)]. *)
Record Pod : Type := {
  Meta : ObjectMeta;
  Spec : PodSpec;
  Status : PodStatus
}.

Record PodList : Type := { Items : list Pod }.

Record Node : Type := { NodeMeta : ObjectMeta }.

Definition PodRunning : string := "Running".

End corev1.

Import corev1.

(** ** HTTP *)

Record Request : Type := {
  Method : string;
  URL : string;
  Header : list (string * string);
  ReqBody : option string
}.

Record Response : Type := {
  StatusCode : Z;
  Body : string
}.

Definition StatusOK : Z := 200.

(** What the environment answers: request construction, the round trip,
    the JSON codec and the clock. *)
Record World : Type := {
  (* the error of http.NewRequestWithContext(ctx, method, url, _), if any *)
  newRequestErr : string -> string -> option string;
  (* httpClient.Do(req) *)
  Do : Request -> string + Response;
  (* json.NewDecoder(body).Decode(&v) at the three types decoded *)
  decodePodList : string -> string + PodList;
  decodePod : string -> string + Pod;
  decodeNode : string -> string + Node;
  (* json.Marshal(pod) *)
  Marshal : Pod -> string + string;
  (* time.Now() *)
  Now : Time
}.

Inductive Event : Type :=
| EvDo (req : Request)
    (* one call of httpClient.Do *)
| EvLog (fmt node : string) (e : error).
    (* one log.Printf(fmt, node, err) *)

(** ** NodeClient *)

Record HttpClient : Type := { Timeout : Z (* seconds *) }.

Record NodeClient : Type := {
  Name : string;
  Address : string;
  httpClient : HttpClient;
  healthy : bool;
  lastPing : Time
}.

Definition NewNodeClient (name address : string) : NodeClient :=
  {| Name := name;
     Address := address;
     httpClient := {| Timeout := 10 |};
     healthy := true;
     lastPing := zeroTime |}.

(** A call of a [NodeClient] method: its value and the trace it leaves. *)
Definition IO (A : Type) : Type := A * list Event.

Definition io_ret {A} (x : A) : IO A := (x, []).

Definition io_bind {A B} (m : IO A) (f : A -> IO B) : IO B :=
  let '(x, t1) := m in let '(y, t2) := f x in (y, t1 ++ t2).

Definition set_health (c : NodeClient) (h : bool) : NodeClient :=
  {| Name := Name c; Address := Address c; httpClient := httpClient c;
     healthy := h; lastPing := lastPing c |}.

Definition set_lastPing (c : NodeClient) (t : Time) : NodeClient :=
  {| Name := Name c; Address := Address c; httpClient := httpClient c;
     healthy := healthy c; lastPing := t |}.

Section NodeClientMethods.
Variable W : World.

Definition mkRequest (method url : string) (hdr : list (string * string))
    (body : option string) : result Request :=
  match newRequestErr W method url with
  | Some msg => Err (ErrNewRequest msg)
  | None => Ok {| Method := method; URL := url; Header := hdr; ReqBody := body |}
  end.

Definition doRequest (req : Request) : IO (result Response) :=
  (match Do W req with
   | inl msg => Err (ErrDo msg)
   | inr resp => Ok resp
   end, [EvDo req]).

(** [Ping]: the updated receiver and the returned error. *)
Definition NodeClient_Ping (c : NodeClient) : IO (NodeClient * option error) :=
  match mkRequest "GET" (Address c +:+ "/healthz") [] None with
  | Err e => io_ret (set_health c false, Some e)
  | Ok req =>
      io_bind (doRequest req) (fun r =>
        match r with
        | Err e => io_ret (set_health c false, Some e)
        | Ok resp =>
            if negb (StatusCode resp =? StatusOK)
            then io_ret (set_health c false,
                         Some (ErrHealthCheck (Name c) (StatusCode resp)))
            else io_ret (set_lastPing (set_health c true) (Now W), None)
        end)
  end.

Definition NodeClient_IsHealthy (c : NodeClient) : bool := healthy c.

Definition NodeClient_LastPing (c : NodeClient) : Time := lastPing c.

Definition decoded {A} (r : string + A) : result A :=
  match r with
  | inl msg => Err (ErrDecode msg)
  | inr v => Ok v
  end.

Definition getJSON {A} (decode : string -> string + A) (c : NodeClient)
    (path : string) : IO (result A) :=
  match mkRequest "GET" (Address c +:+ path)
          [("Accept", "application/json")] None with
  | Err e => io_ret (Err e)
  | Ok req =>
      io_bind (doRequest req) (fun r =>
        match r with
        | Err e => io_ret (Err e)
        | Ok resp =>
            if 400 <=? StatusCode resp
            then io_ret (Err (ErrReturned "GET" path (StatusCode resp) (Body resp)))
            else io_ret (decoded (decode (Body resp)))
        end)
  end.

Definition postJSON {A} (decode : string -> string + A) (c : NodeClient)
    (path : string) (body : Pod) : IO (result A) :=
  match Marshal W body with
  | inl msg => io_ret (Err (ErrMarshal msg))
  | inr data =>
      match mkRequest "POST" (Address c +:+ path)
              [("Content-Type", "application/json");
               ("Accept", "application/json")] (Some data) with
      | Err e => io_ret (Err e)
      | Ok req =>
          io_bind (doRequest req) (fun r =>
            match r with
            | Err e => io_ret (Err e)
            | Ok resp =>
                if 400 <=? StatusCode resp
                then io_ret (Err (ErrReturned "POST" path (StatusCode resp) (Body resp)))
                else io_ret (decoded (decode (Body resp)))
            end)
      end
  end.

Definition podsPath (ns : string) : string :=
  "/api/v1/namespaces/" +:+ ns +:+ "/pods".

Definition podPath (ns name : string) : string :=
  "/api/v1/namespaces/" +:+ ns +:+ "/pods/" +:+ name.

Definition NodeClient_ListPods (c : NodeClient) : IO (result PodList) :=
  getJSON (decodePodList W) c "/api/v1/pods".

Definition NodeClient_GetPod (c : NodeClient) (ns name : string) : IO (result Pod) :=
  getJSON (decodePod W) c (podPath ns name).

Definition NodeClient_CreatePod (c : NodeClient) (pod : Pod) : IO (result Pod) :=
  postJSON (decodePod W) c (podsPath (Namespace (Meta pod))) pod.

Definition NodeClient_DeletePod (c : NodeClient) (ns name : string) : IO (option error) :=
  match mkRequest "DELETE" (Address c +:+ podPath ns name) [] None with
  | Err e => io_ret (Some e)
  | Ok req =>
      io_bind (doRequest req) (fun r =>
        match r with
        | Err e => io_ret (Some e)
        | Ok resp =>
            if 400 <=? StatusCode resp
            then io_ret (Some (ErrDeletePodFailed (StatusCode resp) (Body resp)))
            else io_ret None
        end)
  end.

(** The log stream handed to the caller is the response body. *)
Definition NodeClient_GetPodLog (c : NodeClient) (ns name : string) : IO (result string) :=
  match mkRequest "GET" (Address c +:+ podPath ns name +:+ "/log") [] None with
  | Err e => io_ret (Err e)
  | Ok req =>
      io_bind (doRequest req) (fun r =>
        match r with
        | Err e => io_ret (Err e)
        | Ok resp =>
            if 400 <=? StatusCode resp
            then io_ret (Err (ErrGetPodLogFailed (StatusCode resp) (Body resp)))
            else io_ret (Ok (Body resp))
        end)
  end.

Definition NodeClient_GetNode (c : NodeClient) : IO (result Node) :=
  getJSON (decodeNode W) c ("/api/v1/nodes/" +:+ Name c).

End NodeClientMethods.

(** ** Aggregator *)

(** The registry; [mu] only serialises access and has no content here. *)
Record Aggregator : Type := { clients : gmap string NodeClient }.

Definition NewAggregator (cs : list NodeClient) : Aggregator :=
  {| clients := foldl (fun m c => <[Name c := c]> m) ∅ cs |}.

(** An [Aggregator] method: value, registry afterwards, trace. *)
Definition M (A : Type) : Type := Aggregator -> A * Aggregator * list Event.

Definition m_ret {A} (x : A) : M A := fun a => (x, a, []).

Definition m_bind {A B} (m : M A) (f : A -> M B) : M B :=
  fun a =>
    let '(x, a1, t1) := m a in
    let '(y, a2, t2) := f x a1 in
    (y, a2, t1 ++ t2).

Notation "x <- m ;; k" := (m_bind m (fun x => k))
  (at level 100, m at next level, right associativity).

Definition liftIO {A} (io : IO A) : M A := fun a => (io.1, a, io.2).

Definition logPrintf (fmt node : string) (e : error) : M unit :=
  fun a => (tt, a, [EvLog fmt node e]).

(** [for _, c := range a.clients] visiting the keys in [order]. *)
Definition rangeClients (order : list string) : M (list NodeClient) :=
  fun a => (omap (fun k => clients a !! k) order, a, []).

Definition lookupClient (name : string) : M (option NodeClient) :=
  fun a => (clients a !! name, a, []).

(** The write through the pointer [c]: the registry holds it under
    [c.Name], so the client stored there becomes the updated one. *)
Definition storeClient (c : NodeClient) : M unit :=
  fun a => (tt, {| clients := <[Name c := c]> (clients a) |}, []).

Fixpoint foldM {A B} (f : B -> A -> M B) (l : list A) (acc : B) : M B :=
  match l with
  | [] => m_ret acc
  | x :: l' => acc' <- f acc x ;; foldM f l' acc'
  end.

(** [range_order a order]: [order] is one way [range a.clients] can visit
    the registry. *)
Definition range_order (a : Aggregator) (order : list string) : Prop :=
  order ≡ₚ (map_to_list (clients a)).*1.

Definition nodeAnnotation : string := "mkube.io/node".

(** [if pod.Annotations == nil { make }; pod.Annotations[key] = node]. *)
Definition annotate (node : string) (pod : Pod) : Pod :=
  {| Meta := {| corev1.Name := corev1.Name (Meta pod);
                Namespace := Namespace (Meta pod);
                Annotations :=
                  Some (<[nodeAnnotation := node]>
                          (match Annotations (Meta pod) with
                           | Some m => m
                           | None => ∅
                           end)) |};
     Spec := Spec pod;
     Status := Status pod |}.

Record NodeSummary : Type := {
  NS_Name : string;
  NS_Healthy : bool;
  NS_PodCount : Z;
  NS_LastPing : Time
}.

Record ClusterSummary : Type := {
  NodeCount : Z;
  HealthyNodes : Z;
  PodCount : Z;
  RunningPods : Z;
  Nodes : list NodeSummary
}.

Section AggregatorMethods.
Variable W : World.

(** The goroutine of [ListAllPods] for client [c]; the part under
    [mu.Lock] appends the node's pods in one block. *)
Definition listPodsTask (allPods : list Pod) (c : NodeClient) : M (list Pod) :=
  r <- liftIO (NodeClient_ListPods W c) ;;
  match r with
  | Err e =>
      u <- logPrintf "error listing pods from %s: %v" (Name c) e ;;
      m_ret allPods
  | Ok l =>
      m_ret (foldl (fun acc pod => acc ++ [annotate (Name c) pod]) allPods (Items l))
  end.

(** [sched] is the order in which the goroutines take the mutex. *)
Definition Aggregator_ListAllPods (order : list string)
    (sched : list NodeClient -> list NodeClient) : M (list Pod * option error) :=
  cs <- rangeClients order ;;
  allPods <- foldM listPodsTask (sched cs) [] ;;
  m_ret (allPods, None).

Definition getNodeTask (nodes : list Node) (c : NodeClient) : M (list Node) :=
  r <- liftIO (NodeClient_GetNode W c) ;;
  match r with
  | Err e =>
      u <- logPrintf "error getting node from %s: %v" (Name c) e ;;
      m_ret nodes
  | Ok node => m_ret (nodes ++ [node])
  end.

Definition Aggregator_ListAllNodes (order : list string)
    (sched : list NodeClient -> list NodeClient) : M (list Node * option error) :=
  cs <- rangeClients order ;;
  nodes <- foldM getNodeTask (sched cs) [] ;;
  m_ret (nodes, None).

(** The scan of [GetPod]: returns at the first client that answers. *)
Fixpoint scanPod (cs : list NodeClient) (ns name : string) : M (result (Pod * string)) :=
  match cs with
  | [] => m_ret (Err (ErrPodNotFound ns name))
  | c :: cs' =>
      r <- liftIO (NodeClient_GetPod W c ns name) ;;
      match r with
      | Ok pod => m_ret (Ok (annotate (Name c) pod, Name c))
      | Err _ => scanPod cs' ns name
      end
  end.

Definition Aggregator_GetPod (order : list string) (ns name : string)
    : M (result (Pod * string)) :=
  cs <- rangeClients order ;;
  scanPod cs ns name.

(** One iteration of the least-pods loop on [(minPods, target)]. *)
Definition leastPodsStep (acc : Z * option NodeClient) (c : NodeClient)
    : M (Z * option NodeClient) :=
  if negb (NodeClient_IsHealthy c) then m_ret acc
  else
    r <- liftIO (NodeClient_ListPods W c) ;;
    match r with
    | Err _ => m_ret acc
    | Ok l =>
        if len (Items l) <? acc.1
        then m_ret (len (Items l), Some c)
        else m_ret acc
    end.

Definition Aggregator_CreatePod (order : list string) (pod : Pod) : M (result Pod) :=
  routed <-
    (if decide (NodeName (Spec pod) = "") then m_ret (Ok None)
     else
       oc <- lookupClient (NodeName (Spec pod)) ;;
       match oc with
       | Some c => m_ret (Ok (Some c))
       | None => m_ret (Err (ErrNodeNotFound (NodeName (Spec pod))))
       end) ;;
  match routed with
  | Err e => m_ret (Err e)
  | Ok target =>
      target <-
        match target with
        | Some c => m_ret (Some c)
        | None =>
            cs <- rangeClients order ;;
            acc <- foldM leastPodsStep cs (maxInt, None) ;;
            m_ret acc.2
        end ;;
      match target with
      | None => m_ret (Err ErrNoHealthyNodes)
      | Some c => liftIO (NodeClient_CreatePod W c pod)
      end
  end.

Definition Aggregator_DeletePod (order : list string) (ns name : string)
    : M (option error) :=
  r <- Aggregator_GetPod order ns name ;;
  match r with
  | Err e => m_ret (Some e)
  | Ok (_, nodeName) =>
      oc <- lookupClient nodeName ;;
      match oc with
      | None => m_ret (Some (ErrNodeNotFound nodeName))
      | Some c => liftIO (NodeClient_DeletePod W c ns name)
      end
  end.

Definition Aggregator_GetPodLog (order : list string) (ns name : string)
    : M (result string) :=
  r <- Aggregator_GetPod order ns name ;;
  match r with
  | Err e => m_ret (Err e)
  | Ok (_, nodeName) =>
      oc <- lookupClient nodeName ;;
      match oc with
      | None => m_ret (Err (ErrNodeNotFound nodeName))
      | Some c => liftIO (NodeClient_GetPodLog W c ns name)
      end
  end.

(** [for _, pod := range list.Items { if Running { RunningPods++ } }]. *)
Definition countRunning (running : Z) (items : list Pod) : Z :=
  foldl (fun n pod =>
           if decide (Phase (Status pod) = PodRunning) then int_add n 1 else n)
        running items.

Definition summaryStep (s : ClusterSummary) (c : NodeClient) : M ClusterSummary :=
  let healthyNodes :=
    if NodeClient_IsHealthy c then int_add (HealthyNodes s) 1 else HealthyNodes s in
  r <- liftIO (NodeClient_ListPods W c) ;;
  match r with
  | Ok l =>
      m_ret {| NodeCount := NodeCount s;
               HealthyNodes := healthyNodes;
               PodCount := int_add (PodCount s) (len (Items l));
               RunningPods := countRunning (RunningPods s) (Items l);
               Nodes := Nodes s ++
                 [{| NS_Name := Name c; NS_Healthy := NodeClient_IsHealthy c;
                     NS_PodCount := len (Items l);
                     NS_LastPing := NodeClient_LastPing c |}] |}
  | Err _ =>
      m_ret {| NodeCount := NodeCount s;
               HealthyNodes := healthyNodes;
               PodCount := PodCount s;
               RunningPods := RunningPods s;
               Nodes := Nodes s ++
                 [{| NS_Name := Name c; NS_Healthy := NodeClient_IsHealthy c;
                     NS_PodCount := 0;
                     NS_LastPing := NodeClient_LastPing c |}] |}
  end.

Definition Aggregator_GetClusterSummary (order : list string) : M ClusterSummary :=
  cs <- rangeClients order ;;
  foldM summaryStep cs
    {| NodeCount := len cs; HealthyNodes := 0; PodCount := 0;
       RunningPods := 0; Nodes := [] |}.

Definition pingStep (_ : unit) (c : NodeClient) : M unit :=
  r <- liftIO (NodeClient_Ping W c) ;;
  u <- storeClient r.1 ;;
  match r.2 with
  | Some e => logPrintf "health check failed for %s: %v" (Name c) e
  | None => m_ret tt
  end.

Definition Aggregator_pingAll (order : list string) : M unit :=
  cs <- rangeClients order ;;
  foldM pingStep cs tt.

Definition Aggregator_GetNode (name : string) : M (result Node) :=
  oc <- lookupClient name ;;
  match oc with
  | None => m_ret (Err (ErrNodeNotFound name))
  | Some c => liftIO (NodeClient_GetNode W c)
  end.

End AggregatorMethods.

(** [RunHealthChecker]: one pass at start, then one pass per tick of the
    15 second ticker until the context is done.  Each pass sees the world
    of its own moment and iterates the registry in its own order. *)
Definition Aggregator_RunHealthChecker (first : World * list string)
    (ticks : list (World * list string)) : M unit :=
  foldM (fun _ p => Aggregator_pingAll p.1 p.2) (first :: ticks) tt.

(** ** Vocabulary of the statements *)

(** The three components of a run. *)
Definition value {A} (r : A * Aggregator * list Event) : A := r.1.1.
Definition after {A} (r : A * Aggregator * list Event) : Aggregator := r.1.2.
Definition trace {A} (r : A * Aggregator * list Event) : list Event := r.2.

(** Every key of the registry is the name of the client stored under it. *)
Definition registry_wf (a : Aggregator) : Prop :=
  forall k c, clients a !! k = Some c -> Name c = k.

(** The registries a process can hold: built by [NewAggregator], then
    only ever passed through probe passes. *)
Inductive reachable : Aggregator -> Prop :=
| reach_new (cs : list NodeClient) : reachable (NewAggregator cs)
| reach_ping (W : World) (order : list string) (a : Aggregator) :
    reachable a -> range_order a order ->
    reachable (after (Aggregator_pingAll W order a)).

(** A method that leaves the registry as it found it. *)
Definition read_only {A} (m : M A) : Prop := forall a, after (m a) = a.

(** What one client contributes to a pod listing and to a node listing. *)
Definition podsFrom (W : World) (c : NodeClient) : list Pod :=
  match (NodeClient_ListPods W c).1 with
  | Ok l => annotate (Name c) <$> Items l
  | Err _ => []
  end.

Definition nodeFrom (W : World) (c : NodeClient) : list Node :=
  match (NodeClient_GetNode W c).1 with
  | Ok n => [n]
  | Err _ => []
  end.

(** The registry's clients that answer a pod listing / a node request. *)
Definition registered (a : Aggregator) : list NodeClient :=
  (map_to_list (clients a)).*2.

Definition podResponders (W : World) (a : Aggregator) : list NodeClient :=
  filter (fun c => is_ok (NodeClient_ListPods W c).1 = true) (registered a).

Definition nodeResponders (W : World) (a : Aggregator) : list NodeClient :=
  filter (fun c => is_ok (NodeClient_GetNode W c).1 = true) (registered a).

(** The provenance annotation of a pod, if it has one. *)
Definition provenance (p : Pod) : option string :=
  match Annotations (Meta p) with
  | Some m => m !! nodeAnnotation
  | None => None
  end.

(** The live pod count of a client that takes part in placement. *)
Definition liveCount (W : World) (c : NodeClient) : option Z :=
  if NodeClient_IsHealthy c then
    match (NodeClient_ListPods W c).1 with
    | Ok l => Some (len (Items l))
    | Err _ => None
    end
  else None.

(** Pod count and running-pod count of a client for the summary; a failed
    listing counts as zero. *)
Definition podCount (W : World) (c : NodeClient) : nat :=
  match (NodeClient_ListPods W c).1 with
  | Ok l => length (Items l)
  | Err _ => 0%nat
  end.

Definition runningCount (W : World) (c : NodeClient) : nat :=
  match (NodeClient_ListPods W c).1 with
  | Ok l => length (filter (fun pod => Phase (Status pod) = PodRunning) (Items l))
  | Err _ => 0%nat
  end.

Definition nodeSummary (W : World) (c : NodeClient) : NodeSummary :=
  {| NS_Name := Name c; NS_Healthy := healthy c;
     NS_PodCount := Z.of_nat (podCount W c); NS_LastPing := lastPing c |}.

(** Go slices are shorter than [maxInt]: what every listing of the world
    satisfies on a real machine. *)
Definition slices_fit (W : World) : Prop :=
  forall body l, decodePodList W body = inr l -> len (Items l) < maxInt.

(** The receiver after a probe. *)
Definition probed (W : World) (c : NodeClient) : NodeClient := (NodeClient_Ping W c).1.1.

(** The registry after the probe loop over [cs]. *)
Definition pingedRegistry (W : World) (cs : list NodeClient)
    (m : gmap string NodeClient) : gmap string NodeClient :=
  foldl (fun m c => <[Name c := probed W c]> m) m cs.

(** The requests of a scan that stops after the clients [cs]. *)
Definition scanTrace (W : World) (ns name : string) (cs : list NodeClient) : list Event :=
  mjoin ((fun c => (NodeClient_GetPod W c ns name).2) <$> cs).

Definition lacksPod (W : World) (ns name : string) (c : NodeClient) : Prop :=
  is_ok (NodeClient_GetPod W c ns name).1 = false.

(** Two registries with the same clients up to the health fields. *)
Definition same_endpoints (a a' : Aggregator) : Prop :=
  forall k,
    match clients a !! k, clients a' !! k with
    | Some c, Some c' =>
        Name c = Name c' /\ Address c = Address c' /\ httpClient c = httpClient c'
    | None, None => True
    | _, _ => False
    end.

(** One iteration of the loop on its accumulator, and what it sends. *)
Definition leastPodsPure (W : World) (acc : Z * option NodeClient) (c : NodeClient)
    : Z * option NodeClient :=
  match liveCount W c with
  | Some n => if n <? acc.1 then (n, Some c) else acc
  | None => acc
  end.

Definition leastPodsTrace (W : World) (c : NodeClient) : list Event :=
  if NodeClient_IsHealthy c then (NodeClient_ListPods W c).2 else [].

(** [c], at position [i] of the iteration, reports [n] pods: no polled client
    reports fewer, and those before it report strictly more. *)
Definition leastPodsChoice (W : World) (cs : list NodeClient) (i : nat)
    (c : NodeClient) (n : Z) : Prop :=
  cs !! i = Some c /\ liveCount W c = Some n /\
  forall j c' m, cs !! j = Some c' -> liveCount W c' = Some m ->
                 n <= m /\ ((j < i)%nat -> n < m).

(** What a task of a fan-out sends and logs. *)
Definition listPodsTrace (W : World) (c : NodeClient) : list Event :=
  (NodeClient_ListPods W c).2 ++
  match (NodeClient_ListPods W c).1 with
  | Err e => [EvLog "error listing pods from %s: %v" (Name c) e]
  | Ok _ => []
  end.

Definition getNodeTrace (W : World) (c : NodeClient) : list Event :=
  (NodeClient_GetNode W c).2 ++
  match (NodeClient_GetNode W c).1 with
  | Err e => [EvLog "error getting node from %s: %v" (Name c) e]
  | Ok _ => []
  end.

Definition summaryPure (W : World) (s : ClusterSummary) (c : NodeClient) : ClusterSummary :=
  {| NodeCount := NodeCount s;
     HealthyNodes := if healthy c then int_add (HealthyNodes s) 1 else HealthyNodes s;
     PodCount :=
       match (NodeClient_ListPods W c).1 with
       | Ok l => int_add (PodCount s) (len (Items l))
       | Err _ => PodCount s
       end;
     RunningPods :=
       match (NodeClient_ListPods W c).1 with
       | Ok l => countRunning (RunningPods s) (Items l)
       | Err _ => RunningPods s
       end;
     Nodes := Nodes s ++ [nodeSummary W c] |}.

Definition healthyCount (cs : list NodeClient) : nat :=
  length (filter (fun c => healthy c = true) cs).

(** ** The API router (package [api])

    A handler is run on the path values and the body of its request and
    gives the reply it writes.  The three ways a handler of this package
    writes a reply are the constructors of [Reply]. *)

Record TypeMeta : Type := { APIVersion : string; Kind : string }.

(** The values handed to [writeJSON]. *)
Inductive JSONValue : Type :=
| JPodList (tm : TypeMeta) (items : list Pod)
    (* corev1.PodList{TypeMeta, Items} *)
| JPod (pod : Pod)
| JNodeList (tm : TypeMeta) (items : list Node)
    (* corev1.NodeList{TypeMeta, Items} *)
| JNode (node : Node)
| JStatus (tm : TypeMeta) (status : string) (deleted : string).
    (* metav1.Status{TypeMeta, Status, Message: "pod %q deleted"} *)

(** The texts handed to [http.Error]. *)
Inductive ErrorText : Type :=
| ErrorOf (e : error)
    (* err.Error() *)
| InvalidPodJSON (msg : string).
    (* "invalid pod JSON: %v" *)

Inductive Reply : Type :=
| WriteJSON (status : Z) (v : JSONValue)
    (* writeJSON(w, status, v): Content-Type application/json *)
| HttpError (text : ErrorText) (status : Z)
    (* http.Error(w, text, status) *)
| CopyText (body : string).
    (* Content-Type text/plain; charset=utf-8, then io.Copy(w, rc) *)

Definition StatusCreated : Z := 201.
Definition StatusBadRequest : Z := 400.
Definition StatusNotFound : Z := 404.
Definition StatusInternalServerError : Z := 500.

(** [pod.Namespace = ns]. *)
Definition setNamespace (pod : Pod) (ns : string) : Pod :=
  {| Meta := {| corev1.Name := corev1.Name (Meta pod);
                Namespace := ns;
                Annotations := Annotations (Meta pod) |};
     Spec := Spec pod;
     Status := Status pod |}.

Section RouterHandlers.
Variable W : World.

Definition Router_handleListAllPods (order : list string)
    (sched : list NodeClient -> list NodeClient) : M Reply :=
  r <- Aggregator_ListAllPods W order sched ;;
  match r.2 with
  | Some e => m_ret (HttpError (ErrorOf e) StatusInternalServerError)
  | None =>
      m_ret (WriteJSON StatusOK
               (JPodList {| APIVersion := "v1"; Kind := "PodList" |} r.1))
  end.

Definition Router_handleListNamespacedPods (order : list string)
    (sched : list NodeClient -> list NodeClient) (ns : string) : M Reply :=
  r <- Aggregator_ListAllPods W order sched ;;
  match r.2 with
  | Some e => m_ret (HttpError (ErrorOf e) StatusInternalServerError)
  | None =>
      let items :=
        foldl (fun items pod =>
                 if decide (Namespace (Meta pod) = ns) then items ++ [pod] else items)
              [] r.1 in
      m_ret (WriteJSON StatusOK
               (JPodList {| APIVersion := "v1"; Kind := "PodList" |} items))
  end.

Definition Router_handleGetPod (order : list string) (ns name : string) : M Reply :=
  r <- Aggregator_GetPod W order ns name ;;
  match r with
  | Err e => m_ret (HttpError (ErrorOf e) StatusNotFound)
  | Ok (pod, _) => m_ret (WriteJSON StatusOK (JPod pod))
  end.

(** [body] is the body of the request. *)
Definition Router_handleCreatePod (order : list string) (ns body : string) : M Reply :=
  match decodePod W body with
  | inl msg => m_ret (HttpError (InvalidPodJSON msg) StatusBadRequest)
  | inr pod =>
      r <- Aggregator_CreatePod W order (setNamespace pod ns) ;;
      match r with
      | Err e => m_ret (HttpError (ErrorOf e) StatusInternalServerError)
      | Ok result => m_ret (WriteJSON StatusCreated (JPod result))
      end
  end.

Definition Router_handleDeletePod (order : list string) (ns name : string) : M Reply :=
  r <- Aggregator_DeletePod W order ns name ;;
  match r with
  | Some e => m_ret (HttpError (ErrorOf e) StatusNotFound)
  | None =>
      m_ret (WriteJSON StatusOK
               (JStatus {| APIVersion := "v1"; Kind := "Status" |} "Success" name))
  end.

Definition Router_handleGetPodLog (order : list string) (ns name : string) : M Reply :=
  r <- Aggregator_GetPodLog W order ns name ;;
  match r with
  | Err e => m_ret (HttpError (ErrorOf e) StatusNotFound)
  | Ok rc => m_ret (CopyText rc)
  end.

Definition Router_handleListNodes (order : list string)
    (sched : list NodeClient -> list NodeClient) : M Reply :=
  r <- Aggregator_ListAllNodes W order sched ;;
  match r.2 with
  | Some e => m_ret (HttpError (ErrorOf e) StatusInternalServerError)
  | None =>
      m_ret (WriteJSON StatusOK
               (JNodeList {| APIVersion := "v1"; Kind := "NodeList" |} r.1))
  end.

Definition Router_handleGetNode (name : string) : M Reply :=
  r <- Aggregator_GetNode W name ;;
  match r with
  | Err e => m_ret (HttpError (ErrorOf e) StatusNotFound)
  | Ok node => m_ret (WriteJSON StatusOK (JNode node))
  end.

End RouterHandlers.

(** The status a reply is written with; [io.Copy] on a fresh writer sends
    200. *)
Definition replyStatus (r : Reply) : Z :=
  match r with
  | WriteJSON status _ => status
  | HttpError _ status => status
  | CopyText _ => StatusOK
  end.

(** ** Configuration (package [config]) and start-up ([main]) *)

Module config.

Record NodeDef : Type := {
  Name : string;
  Address : string
}.

Record Config : Type := {
  ListenAddr : string;
  Nodes : list NodeDef;
  DiscoveryDNS : string;
  RegistryURL : string;
  LogsURL : string
}.

Inductive LoadError : Type :=
| ErrReading (path msg : string)
    (* "reading config %s: %w" *)
| ErrParsing (msg : string)
    (* "parsing config: %w" *)
| ErrNothingConfigured.
    (* "at least one node or discoveryDNS must be configured" *)

(** The file system and the YAML decoder: [os.ReadFile(path)], and
    [yaml.Unmarshal(data, cfg)], which fills the configuration it is given. *)
Record Env : Type := {
  ReadFile : string -> string + string;
  Unmarshal : string -> Config -> string + Config
}.

Definition Load (E : Env) (path : string) : LoadError + Config :=
  let cfg := {| ListenAddr := ":9090"; Nodes := [];
                DiscoveryDNS := ""; RegistryURL := ""; LogsURL := "" |} in
  match ReadFile E path with
  | inl msg => inl (ErrReading path msg)
  | inr data =>
      match Unmarshal E data cfg with
      | inl msg => inl (ErrParsing msg)
      | inr cfg =>
          if (len (Nodes cfg) =? 0) && bool_decide (DiscoveryDNS cfg = "")
          then inl ErrNothingConfigured
          else inr cfg
      end
  end.

End config.

(** How far the set-up of [main] gets. *)
Inductive Startup : Type :=
| ExitConfigError (e : config.LoadError)
    (* "error loading config: %v" on stderr, os.Exit(1) *)
| FatalNoNodes
    (* log.Fatal("no nodes configured") *)
| RegistryBuilt (agg : Aggregator).
    (* agg := cluster.NewAggregator(clients) *)

(** [main] from the start to [agg := cluster.NewAggregator(clients)];
    [configPath] is the value of the [-config] flag.  The statements after
    that one (the health checker goroutine, the router and its templates, the
    routes put on the mux, the server) are not part of this definition:
    whether the process goes on to serve is decided by [net/http], which
    refuses to register patterns that conflict. *)
Definition main (E : config.Env) (configPath : string) : Startup :=
  match config.Load E configPath with
  | inl e => ExitConfigError e
  | inr cfg =>
      let clients :=
        foldl (fun clients n =>
                 clients ++ [NewNodeClient (config.Name n) (config.Address n)])
              [] (config.Nodes cfg) in
      if len clients =? 0 then FatalNoNodes
      else RegistryBuilt (NewAggregator clients)
  end.

(** ** The dashboard (package [ui])

    A page is given by the name of its template set, the template executed
    and the [PageData] handed to it; what the templates print is theirs.
    The fields of a pod and of a node that the views show and that are not in
    [Pod] and [Node] (addresses, container statuses, conditions, capacity)
    are taken as given, gathered in [podRest], [podDetailRest] and
    [nodeRest]. *)

(** [strings.HasPrefix], [strings.TrimPrefix] and [strings.SplitN(s, "/", 2)],
    on bytes as in Go. *)
Fixpoint stripPrefix (prefix s : string) : option string :=
  match prefix with
  | EmptyString => Some s
  | String a prefix' =>
      match s with
      | EmptyString => None
      | String b s' => if Ascii.eqb a b then stripPrefix prefix' s' else None
      end
  end.

Definition HasPrefix (s prefix : string) : bool :=
  match stripPrefix prefix s with Some _ => true | None => false end.

Definition TrimPrefix (s prefix : string) : string :=
  match stripPrefix prefix s with Some rest => rest | None => s end.

Definition slash : Ascii.ascii := Ascii.ascii_of_nat 47.

(** The parts before and after the first slash, if there is one. *)
Fixpoint cutSlash (s : string) : option (string * string) :=
  match s with
  | EmptyString => None
  | String c s' =>
      if Ascii.eqb c slash then Some (EmptyString, s')
      else match cutSlash s' with
           | Some (before, behind) => Some (String c before, behind)
           | None => None
           end
  end.

Definition SplitN2 (s : string) : list string :=
  match cutSlash s with
  | Some (before, behind) => [before; behind]
  | None => [s]
  end.

Record Breadcrumb : Type := { Label : string; CrumbURL : string }.

Record RepoView : Type := { RepoName : string; Tags : list string }.

Record RegistryData : Type := { Available : bool; Repos : list RepoView }.

(** The page names and the content template of each. *)
Definition pageContentMap : gmap string string :=
  list_to_map
    [("dashboard", "dashboard-content");
     ("pods", "pods-content");
     ("pod-detail", "pod-detail-content");
     ("nodes", "nodes-content");
     ("node-detail", "node-detail-content");
     ("registry", "registry-content");
     ("logs", "logs-content")].

Definition StatusClassOf (phase : string) : string :=
  if decide (phase = PodRunning) then "badge-success"
  else if decide (phase = "Pending") then "badge-warning"
  else if decide (phase = "Failed") then "badge-error"
  else "badge-info".

(** [m[key]] of a map of strings that may be nil: the empty string when
    the key is absent. *)
Definition stringAt (m : option (gmap string string)) (key : string) : string :=
  match m with
  | Some m => default "" (m !! key)
  | None => ""
  end.

Section Dashboard.
Variable W : World.
Variables PodRest PodDetailRest NodeRest : Type.
Variable podRest : Pod -> PodRest.
Variable podDetailRest : Pod -> PodDetailRest.
Variable nodeRest : Node -> NodeRest.
(* json Decode of the registry's catalog and of a tag list *)
Variable decodeCatalog : string -> string + list string.
Variable decodeTagList : string -> string + list string.
(* the fields of the Handler *)
Variables registryURL logsURL : string.

Record PodView : Type := {
  PV_Name : string;
  PV_Namespace : string;
  PV_Node : string;
  PV_Status : string;
  PV_StatusClass : string;
  PV_Rest : PodRest   (* IP, Age, Containers, Ready *)
}.

Record NodeView : Type := {
  NV_Name : string;
  NV_Uptime : string;
  NV_Board : string;
  NV_CPULoad : string;
  NV_Rest : NodeRest   (* Status, StatusClass, CPU, Memory, Pods, Architecture *)
}.

Inductive PageContent : Type :=
| DashboardData (nodeCount healthyNodes podCount runningPods : Z)
    (nodes : list NodeSummary) (recentPods : list PodView)
| PodsData (pods : list PodView) (namespaces : list string) (filter : string)
| PodDetailData (pod : PodView) (rest : PodDetailRest)
    (annotations : option (gmap string string)) (node : string)
| NodesData (nodes : list NodeView)
| NodeDetailData (node : NodeView) (pods : list PodView)
| RegistryContent (data : RegistryData)
| LogsData (pods : list PodView) (logs : string).

Record PageData : Type := {
  Title : string;
  CurrentNav : string;
  Breadcrumbs : list Breadcrumb;
  Content : PageContent
}.

Inductive UIReply : Type :=
| ServeStatic
    (* h.staticFS.ServeHTTP(w, r) *)
| Execute (page template : string) (data : PageData)
    (* h.pages[page].ExecuteTemplate(w, template, data) *)
| UnknownPage (page : string)
    (* log "unknown page: %s"; http.Error 500 *)
| PageNotFound.
    (* http.NotFound(w, r) *)

(** What the handler reads of a request. *)
Record UIRequest : Type := {
  Path : string;          (* r.URL.Path *)
  NamespaceQuery : string; (* r.URL.Query().Get("namespace") *)
  HXRequest : string      (* r.Header.Get("HX-Request") *)
}.

(** The iteration orders and schedules of the calls a handler makes, and
    the order in which the namespaces are read off their set. *)
Record Choices : Type := {
  summaryOrder : list string;
  listOrder : list string;
  listSched : list NodeClient -> list NodeClient;
  scanOrder : list string;
  namespaceOrder : gset string -> list string
}.

Definition buildPodView (pod : Pod) : PodView :=
  {| PV_Name := corev1.Name (Meta pod);
     PV_Namespace := Namespace (Meta pod);
     PV_Node := stringAt (Annotations (Meta pod)) nodeAnnotation;
     PV_Status := Phase (Status pod);
     PV_StatusClass := StatusClassOf (Phase (Status pod));
     PV_Rest := podRest pod |}.

Definition buildNodeView (node : Node) : NodeView :=
  {| NV_Name := corev1.Name (NodeMeta node);
     NV_Uptime := stringAt (Annotations (NodeMeta node)) "mkube.io/uptime";
     NV_Board := stringAt (Annotations (NodeMeta node)) "mkube.io/board";
     NV_CPULoad := stringAt (Annotations (NodeMeta node)) "mkube.io/cpu-load";
     NV_Rest := nodeRest node |}.

Definition Handler_isHTMX (r : UIRequest) : bool :=
  bool_decide (HXRequest r = "true").

Definition Handler_render (r : UIRequest) (page : string) (data : PageData) : UIReply :=
  match pageContentMap !! page with
  | None => UnknownPage page
  | Some _ =>
      if Handler_isHTMX r then Execute page "page-content" data
      else Execute page "layout" data
  end.

(** The loop of the dashboard over the pods, left at the tenth view. *)
Fixpoint recentLoop (pods : list Pod) (recentPods : list PodView) : list PodView :=
  match pods with
  | [] => recentPods
  | pod :: pods' =>
      let recentPods := recentPods ++ [buildPodView pod] in
      if 10 <=? len recentPods then recentPods else recentLoop pods' recentPods
  end.

Definition Handler_handleDashboard (ch : Choices) (r : UIRequest) : M UIReply :=
  summary <- Aggregator_GetClusterSummary W (summaryOrder ch) ;;
  pods <- Aggregator_ListAllPods W (listOrder ch) (listSched ch) ;;
  m_ret (Handler_render r "dashboard"
           {| Title := "Dashboard";
              CurrentNav := "dashboard";
              Breadcrumbs := [{| Label := "Dashboard"; CrumbURL := "/ui/" |}];
              Content :=
                DashboardData (NodeCount summary) (HealthyNodes summary)
                  (PodCount summary) (RunningPods summary) (Nodes summary)
                  (recentLoop pods.1 []) |}).

(** One iteration of the loop of the pods page on the views and the set
    of namespaces. *)
Definition podsStep (nsFilter : string) (acc : list PodView * gset string) (pod : Pod)
    : list PodView * gset string :=
  let namespaces := {[Namespace (Meta pod)]} ∪ acc.2 in
  if negb (bool_decide (nsFilter = "")) && negb (bool_decide (Namespace (Meta pod) = nsFilter))
  then (acc.1, namespaces)
  else (acc.1 ++ [buildPodView pod], namespaces).

Definition Handler_handlePods (ch : Choices) (r : UIRequest) : M UIReply :=
  let nsFilter := NamespaceQuery r in
  pods <- Aggregator_ListAllPods W (listOrder ch) (listSched ch) ;;
  let acc := foldl (podsStep nsFilter) ([], ∅) pods.1 in
  m_ret (Handler_render r "pods"
           {| Title := "Pods";
              CurrentNav := "pods";
              Breadcrumbs := [{| Label := "Dashboard"; CrumbURL := "/ui/" |};
                              {| Label := "Pods"; CrumbURL := "/ui/pods" |}];
              Content := PodsData acc.1 (namespaceOrder ch acc.2) nsFilter |}).

Definition Handler_handlePodDetail (ch : Choices) (r : UIRequest) (path : string)
    : M UIReply :=
  match SplitN2 (TrimPrefix path "/pods/") with
  | [ns; name] =>
      got <- Aggregator_GetPod W (scanOrder ch) ns name ;;
      match got with
      | Err _ => m_ret PageNotFound
      | Ok (pod, nodeName) =>
          m_ret (Handler_render r "pod-detail"
                   {| Title := "Pod: " +:+ name;
                      CurrentNav := "pods";
                      Breadcrumbs := [{| Label := "Dashboard"; CrumbURL := "/ui/" |};
                                      {| Label := "Pods"; CrumbURL := "/ui/pods" |};
                                      {| Label := name; CrumbURL := "" |}];
                      Content :=
                        PodDetailData (buildPodView pod) (podDetailRest pod)
                          (Annotations (Meta pod)) nodeName |})
      end
  | _ => m_ret PageNotFound
  end.

Definition Handler_handleNodes (ch : Choices) (r : UIRequest) : M UIReply :=
  nodes <- Aggregator_ListAllNodes W (listOrder ch) (listSched ch) ;;
  m_ret (Handler_render r "nodes"
           {| Title := "Nodes";
              CurrentNav := "nodes";
              Breadcrumbs := [{| Label := "Dashboard"; CrumbURL := "/ui/" |};
                              {| Label := "Nodes"; CrumbURL := "/ui/nodes" |}];
              Content :=
                NodesData (foldl (fun views node => views ++ [buildNodeView node])
                             [] nodes.1) |}).

Definition Handler_handleNodeDetail (ch : Choices) (r : UIRequest) (path : string)
    : M UIReply :=
  let name := TrimPrefix path "/nodes/" in
  got <- Aggregator_GetNode W name ;;
  match got with
  | Err _ => m_ret PageNotFound
  | Ok node =>
      pods <- Aggregator_ListAllPods W (listOrder ch) (listSched ch) ;;
      m_ret (Handler_render r "node-detail"
               {| Title := "Node: " +:+ name;
                  CurrentNav := "nodes";
                  Breadcrumbs := [{| Label := "Dashboard"; CrumbURL := "/ui/" |};
                                  {| Label := "Nodes"; CrumbURL := "/ui/nodes" |};
                                  {| Label := name; CrumbURL := "" |}];
                  Content :=
                    NodeDetailData (buildNodeView node)
                      (foldl (fun views pod =>
                                if decide (stringAt (Annotations (Meta pod)) nodeAnnotation
                                           = name)
                                then views ++ [buildPodView pod] else views)
                             [] pods.1) |})
  end.

(** [http.Get(url)]: the body of an answer with status 200, if any. *)
Definition httpGetOK (url : string) : IO (option string) :=
  match mkRequest W "GET" url [] None with
  | Err _ => io_ret None
  | Ok req =>
      io_bind (doRequest W req) (fun r =>
        match r with
        | Err _ => io_ret None
        | Ok resp =>
            if StatusCode resp =? StatusOK then io_ret (Some (Body resp))
            else io_ret None
        end)
  end.

Definition fetchRepo (repos : list RepoView) (repo : string) : IO (list RepoView) :=
  io_bind (httpGetOK (registryURL +:+ "/v2/" +:+ repo +:+ "/tags/list")) (fun body =>
    let tags :=
      match body with
      | Some body =>
          match decodeTagList body with
          | inr tags => tags
          | inl _ => []
          end
      | None => []
      end in
    io_ret (repos ++ [{| RepoName := repo; Tags := tags |}])).

Fixpoint fetchRepos (catalog : list string) (repos : list RepoView) : IO (list RepoView) :=
  match catalog with
  | [] => io_ret repos
  | repo :: catalog' =>
      io_bind (fetchRepo repos repo) (fun repos => fetchRepos catalog' repos)
  end.

Definition registryData : IO RegistryData :=
  if bool_decide (registryURL = "") then io_ret {| Available := false; Repos := [] |}
  else
    io_bind (httpGetOK (registryURL +:+ "/v2/_catalog")) (fun body =>
      match body with
      | Some body =>
          match decodeCatalog body with
          | inr catalog =>
              io_bind (fetchRepos catalog []) (fun repos =>
                io_ret {| Available := true; Repos := repos |})
          | inl _ => io_ret {| Available := true; Repos := [] |}
          end
      | None => io_ret {| Available := true; Repos := [] |}
      end).

Definition Handler_handleRegistry (r : UIRequest) : M UIReply :=
  data <- liftIO registryData ;;
  m_ret (Handler_render r "registry"
           {| Title := "Registry";
              CurrentNav := "registry";
              Breadcrumbs := [{| Label := "Dashboard"; CrumbURL := "/ui/" |};
                              {| Label := "Registry"; CrumbURL := "/ui/registry" |}];
              Content := RegistryContent data |}).

Definition Handler_handleLogs (ch : Choices) (r : UIRequest) : M UIReply :=
  pods <- Aggregator_ListAllPods W (listOrder ch) (listSched ch) ;;
  m_ret (Handler_render r "logs"
           {| Title := "Logs";
              CurrentNav := "logs";
              Breadcrumbs := [{| Label := "Dashboard"; CrumbURL := "/ui/" |};
                              {| Label := "Logs"; CrumbURL := "/ui/logs" |}];
              Content :=
                LogsData (foldl (fun views pod => views ++ [buildPodView pod]) [] pods.1)
                  logsURL |}).

Definition Handler_ServeHTTP (ch : Choices) (r : UIRequest) : M UIReply :=
  let path := TrimPrefix (Path r) "/ui" in
  let path := if bool_decide (path = "") then "/" else path in
  if HasPrefix path "/static/" then m_ret ServeStatic
  else if bool_decide (path = "/") || bool_decide (path = "") then
    Handler_handleDashboard ch r
  else if bool_decide (path = "/pods") then Handler_handlePods ch r
  else if HasPrefix path "/pods/" then Handler_handlePodDetail ch r path
  else if bool_decide (path = "/nodes") then Handler_handleNodes ch r
  else if HasPrefix path "/nodes/" then Handler_handleNodeDetail ch r path
  else if bool_decide (path = "/registry") then Handler_handleRegistry r
  else if bool_decide (path = "/logs") then Handler_handleLogs ch r
  else m_ret PageNotFound.

End Dashboard.

(** ** Vocabulary of the further properties *)

(** A trace of at most one request, made with [method] to [path] on the
    node of [c]. *)
Definition oneRequestTo (c : NodeClient) (method path : string) (t : list Event) : Prop :=
  t = [] \/
  exists req, t = [EvDo req] /\ Method req = method /\ URL req = Address c +:+ path.

(** The lines a trace writes to the log. *)
Definition isLog (e : Event) : bool :=
  match e with EvLog _ _ _ => true | EvDo _ => false end.

Definition logLines (t : list Event) : list Event :=
  filter (fun e => isLog e = true) t.

(** The requests a trace sends. *)
Definition requests (t : list Event) : list Request :=
  omap (fun e => match e with EvDo req => Some req | EvLog _ _ _ => None end) t.

(** A client after the probes of several passes, one world per pass. *)
Definition probedThrough (passes : list (World * list string)) (c : NodeClient)
    : NodeClient :=
  foldl (fun c p => probed p.1 c) c passes.

(** What the probe of one client sends and logs during a pass. *)
Definition pingTrace (W : World) (c : NodeClient) : list Event :=
  (NodeClient_Ping W c).2 ++
  match (NodeClient_Ping W c).1.2 with
  | Some e => [EvLog "health check failed for %s: %v" (Name c) e]
  | None => []
  end.

(** The annotation of a pod under a key, as [pod.Annotations[key]] with
    the absent key told apart from the empty string. *)
Definition annotationOf (key : string) (p : Pod) : option string :=
  match Annotations (Meta p) with
  | Some m => m !! key
  | None => None
  end.

(** A reply that executes a template executes it for a page the handler
    knows: the whole layout, or the content alone for an HTMX request. *)
Definition wellRendered {PodRest PodDetailRest NodeRest : Type} (r : UIRequest)
    (reply : UIReply PodRest PodDetailRest NodeRest) : Prop :=
  match reply with
  | UnknownPage _ _ _ _ => False
  | Execute _ _ _ page template _ =>
      is_Some (pageContentMap !! page) /\
      template = (if bool_decide (HXRequest r = "true") then "page-content" else "layout")
  | _ => True
  end.

(** The repositories the registry lists, and the tags it gives for one of
    them: none when the request fails, is not answered with 200 or does not
    decode. *)
Definition catalogOf (W : World) (decodeCatalog : string -> string + list string)
    (registryURL : string) : list string :=
  match (httpGetOK W (registryURL +:+ "/v2/_catalog")).1 with
  | Some body => match decodeCatalog body with inr catalog => catalog | inl _ => [] end
  | None => []
  end.

Definition tagsOf (W : World) (decodeTagList : string -> string + list string)
    (registryURL repo : string) : list string :=
  match (httpGetOK W (registryURL +:+ "/v2/" +:+ repo +:+ "/tags/list")).1 with
  | Some body => match decodeTagList body with inr tags => tags | inl _ => [] end
  | None => []
  end.

(** ** A three-node cluster

    Nodes [a] and [c] answer, node [b] is unreachable; [a] lists two pods
    and [c] five, one of which is [default/web]; the health endpoint of [a]
    answers 503 although the node still serves its resources. *)

Definition demoPod (ns name phase : string) : Pod :=
  {| Meta := {| corev1.Name := name; Namespace := ns; Annotations := None |};
     Spec := {| NodeName := "" |};
     Status := {| Phase := phase |} |}.

Definition demoNode (name : string) : Node :=
  {| NodeMeta := {| corev1.Name := name; Namespace := ""; Annotations := None |} |}.

Definition demoDo (req : Request) : string + Response :=
  if String.prefix "http://b" (URL req) then inl "connection refused"
  else if decide (URL req = "http://a/healthz") then
    inr {| StatusCode := 503; Body := "draining" |}
  else if decide (URL req = "http://c/healthz") then
    inr {| StatusCode := 200; Body := "ok" |}
  else if decide (URL req = "http://a/api/v1/pods") then
    inr {| StatusCode := 200; Body := "pods-a" |}
  else if decide (URL req = "http://c/api/v1/pods") then
    inr {| StatusCode := 200; Body := "pods-c" |}
  else if decide (URL req = "http://c/api/v1/namespaces/default/pods/web") then
    inr {| StatusCode := 200; Body := "pod-web" |}
  else if decide (URL req = "http://a/api/v1/namespaces/default/pods") then
    inr {| StatusCode := 201; Body := "pod-job" |}
  else if decide (URL req = "http://c/api/v1/namespaces/default/pods") then
    inr {| StatusCode := 201; Body := "pod-job" |}
  else if decide (URL req = "http://a/api/v1/nodes/a") then
    inr {| StatusCode := 200; Body := "node-a" |}
  else if decide (URL req = "http://c/api/v1/nodes/c") then
    inr {| StatusCode := 200; Body := "node-c" |}
  else if decide (URL req = "http://c/api/v1/namespaces/default/pods/web/log") then
    inr {| StatusCode := 200; Body := "started" |}
  else inr {| StatusCode := 404; Body := "not found" |}.

Definition demoWorld : World :=
  {| newRequestErr := fun _ _ => None;
     Do := demoDo;
     decodePodList := fun body =>
       if decide (body = "pods-a") then
         inr {| Items := [demoPod "default" "api" "Running";
                          demoPod "default" "db" "Pending"] |}
       else if decide (body = "pods-c") then
         inr {| Items := [demoPod "default" "web" "Running";
                          demoPod "default" "w1" "Running";
                          demoPod "default" "w2" "Running";
                          demoPod "kube" "w3" "Failed";
                          demoPod "kube" "w4" "Running"] |}
       else inl "unexpected end of JSON input";
     decodePod := fun body =>
       if decide (body = "pod-web") then inr (demoPod "default" "web" "Running")
       else if decide (body = "pod-job") then inr (demoPod "default" "job" "Pending")
       else inl "unexpected end of JSON input";
     decodeNode := fun body =>
       if decide (body = "node-a") then inr (demoNode "a")
       else if decide (body = "node-c") then inr (demoNode "c")
       else inl "unexpected end of JSON input";
     Marshal := fun _ => inr "{}";
     Now := 1700000000 |}.

Definition clientA : NodeClient := NewNodeClient "a" "http://a".
Definition clientB : NodeClient := NewNodeClient "b" "http://b".
Definition clientC : NodeClient := NewNodeClient "c" "http://c".

Definition demoAggregator : Aggregator := NewAggregator [clientA; clientB; clientC].

Definition demoOrder : list string := ["c"; "b"; "a"].

(** A pod to create: without a target, and aimed at node [a]. *)
Definition demoJob : Pod := demoPod "default" "job" "".

Definition demoJobOnA : Pod :=
  {| Meta := Meta demoJob; Spec := {| NodeName := "a" |}; Status := Status demoJob |}.

(** The registry after one probe pass: only [c] is still marked healthy. *)
Definition demoProbed : Aggregator :=
  after (Aggregator_pingAll demoWorld demoOrder demoAggregator).

(** The same cluster during an outage: no round trip succeeds. *)
Definition demoOutage : World :=
  {| newRequestErr := newRequestErr demoWorld;
     Do := fun _ => inl "network is unreachable";
     decodePodList := decodePodList demoWorld;
     decodePod := decodePod demoWorld;
     decodeNode := decodeNode demoWorld;
     Marshal := Marshal demoWorld;
     Now := 1700000015 |}.

(** The cluster with a registry beside it that lists two repositories and
    answers for the tags of the first only. *)
Definition demoRegistry : World :=
  {| newRequestErr := newRequestErr demoWorld;
     Do := fun req =>
       if decide (URL req = "http://reg/v2/_catalog") then
         inr {| StatusCode := 200; Body := "catalog" |}
       else if decide (URL req = "http://reg/v2/app/tags/list") then
         inr {| StatusCode := 200; Body := "tags-app" |}
       else if decide (URL req = "http://reg/v2/db/tags/list") then
         inr {| StatusCode := 500; Body := "storage error" |}
       else demoDo req;
     decodePodList := decodePodList demoWorld;
     decodePod := decodePod demoWorld;
     decodeNode := decodeNode demoWorld;
     Marshal := Marshal demoWorld;
     Now := Now demoWorld |}.

Definition demoDecodeCatalog (body : string) : string + list string :=
  if decide (body = "catalog") then inr ["app"; "db"]
  else inl "unexpected end of JSON input".

Definition demoDecodeTagList (body : string) : string + list string :=
  if decide (body = "tags-app") then inr ["v1"; "v2"]
  else inl "unexpected end of JSON input".

(** One way the handlers' iterations can go. *)
Definition demoChoices : Choices :=
  {| summaryOrder := demoOrder;
     listOrder := ["a"; "b"; "c"];
     listSched := reverse;
     scanOrder := demoOrder;
     namespaceOrder := elements |}.

Definition demoRequest (path query : string) : UIRequest :=
  {| Path := path; NamespaceQuery := query; HXRequest := "" |}.

(** The dashboard for a registry at [http://reg], showing of a pod and of
    a node what [Pod] and [Node] hold. *)
Definition demoServe (W : World) : Choices -> UIRequest -> M (UIReply unit unit unit) :=
  Handler_ServeHTTP W unit unit unit (fun _ => tt) (fun _ => tt) (fun _ => tt)
    demoDecodeCatalog demoDecodeTagList "http://reg" "http://logs".

Definition demoView : Pod -> PodView unit := buildPodView unit (fun _ => tt).

(** The cluster with [default/web] on [a] as well as on [c], as after a
    move that left a copy behind; either node accepts its deletion. *)
Definition demoTwin : World :=
  {| newRequestErr := newRequestErr demoWorld;
     Do := fun req =>
       if decide (URL req = "http://a/api/v1/namespaces/default/pods/web") then
         inr {| StatusCode := 200; Body := "pod-web" |}
       else demoDo req;
     decodePodList := decodePodList demoWorld;
     decodePod := decodePod demoWorld;
     decodeNode := decodeNode demoWorld;
     Marshal := Marshal demoWorld;
     Now := Now demoWorld |}.

(** A configuration file that names a discovery domain and no node. *)
Definition demoEnv : config.Env :=
  {| config.ReadFile := fun path =>
       if decide (path = "/etc/mkube-console/config.yaml") then
         inr "discoveryDNS: _mkube._tcp.gt.lo"
       else inl "no such file or directory";
     config.Unmarshal := fun data cfg =>
       if decide (data = "discoveryDNS: _mkube._tcp.gt.lo") then
         inr {| config.ListenAddr := config.ListenAddr cfg;
                config.Nodes := config.Nodes cfg;
                config.DiscoveryDNS := "_mkube._tcp.gt.lo";
                config.RegistryURL := config.RegistryURL cfg;
                config.LogsURL := config.LogsURL cfg |}
       else inl "yaml: unmarshal errors" |}.

(** ** Basic facts *)

Lemma maxInt_val : maxInt = 2 ^ 63 - 1.
Proof. reflexivity. Qed.

Lemma wrap_int_small z : - 2 ^ 63 <= z <= maxInt -> wrap_int z = z.
Proof.
  rewrite maxInt_val. intros Hz. unfold wrap_int.
  rewrite Z.mod_small; lia.
Qed.

Lemma len_nonneg {A} (l : list A) : 0 <= len l.
Proof. unfold len. lia. Qed.

Lemma provenance_annotate node pod : provenance (annotate node pod) = Some node.
Proof. unfold provenance, annotate. simpl. apply lookup_insert_eq. Qed.

Lemma annotate_identity node pod :
  corev1.Name (Meta (annotate node pod)) = corev1.Name (Meta pod) /\
  Namespace (Meta (annotate node pod)) = Namespace (Meta pod) /\
  Spec (annotate node pod) = Spec pod /\
  Status (annotate node pod) = Status pod.
Proof. by repeat split. Qed.

(** *** The monad *)

Lemma read_only_ret {A} (x : A) : read_only (m_ret x).
Proof. by intros a. Qed.

Lemma read_only_bind {A B} (m : M A) (f : A -> M B) :
  read_only m -> (forall x, read_only (f x)) -> read_only (m_bind m f).
Proof.
  intros Hm Hf a. unfold m_bind, after.
  specialize (Hm a). destruct (m a) as [[x a1] t1]. unfold after in Hm; simpl in Hm; subst a1.
  specialize (Hf x a). destruct (f x a) as [[y a2] t2]. exact Hf.
Qed.

Lemma read_only_liftIO {A} (io : IO A) : read_only (liftIO io).
Proof. by intros a. Qed.

Lemma read_only_logPrintf fmt node e : read_only (logPrintf fmt node e).
Proof. by intros a. Qed.

Lemma read_only_rangeClients order : read_only (rangeClients order).
Proof. by intros a. Qed.

Lemma read_only_lookupClient name : read_only (lookupClient name).
Proof. by intros a. Qed.

Lemma read_only_foldM {A B} (f : B -> A -> M B) l acc :
  (forall acc x, read_only (f acc x)) -> read_only (foldM f l acc).
Proof.
  intros Hf. revert acc. induction l as [|x l IH]; intros acc; simpl.
  - apply read_only_ret.
  - apply read_only_bind; [apply Hf | intros acc'; apply IH].
Qed.

Create HintDb ro discriminated.
#[local] Hint Resolve read_only_ret read_only_liftIO read_only_logPrintf
  read_only_rangeClients read_only_lookupClient : ro.

Ltac ro_step :=
  match goal with
  | |- read_only (m_bind _ _) => apply read_only_bind; [| intros ?]
  | |- read_only (foldM _ _ _) => apply read_only_foldM; intros ? ?
  | |- read_only (match ?x with _ => _ end) => destruct x
  | |- read_only (if ?b then _ else _) => destruct b
  | |- read_only _ => solve [auto with ro]
  end.

Ltac ro := repeat ro_step.

(** A loop whose body neither writes the registry nor lets its trace
    depend on the accumulator is a fold. *)
Lemma foldM_pure {A B} (f : B -> A -> M B) (g : B -> A -> B) (tr : A -> list Event)
    l acc a :
  (forall acc x a, f acc x a = (g acc x, a, tr x)) ->
  foldM f l acc a = (foldl g acc l, a, mjoin (tr <$> l)).
Proof.
  intros Hf. revert acc. induction l as [|x l IH]; intros acc; simpl; [done|].
  unfold m_bind. rewrite Hf, IH. done.
Qed.

(** *** Iterating the registry *)

Lemma rangeClients_registered a (order : list string) :
  range_order a order ->
  omap (fun k => clients a !! k) order ≡ₚ registered a.
Proof.
  unfold range_order, registered. intros ->.
  assert (forall l : list (string * NodeClient),
            (forall k c, (k, c) ∈ l -> clients a !! k = Some c) ->
            omap (fun k => clients a !! k) l.*1 = l.*2) as Haux.
  { induction l as [|[k c] l IH]; intros Hl; [done|].
    simpl. rewrite (Hl k c) by left. simpl. f_equal.
    apply IH. intros k' c' Hin. apply Hl. by right. }
  rewrite Haux; [done|]. intros k c Hin. by apply elem_of_map_to_list.
Qed.

Lemma elem_of_rangeClients a (order : list string) c :
  c ∈ omap (fun k => clients a !! k) order -> exists k, clients a !! k = Some c.
Proof. rewrite list_elem_of_omap. intros (k & _ & Hk). eauto. Qed.

Lemma elem_of_registered a c :
  c ∈ registered a <-> exists k, clients a !! k = Some c.
Proof.
  unfold registered. rewrite list_elem_of_fmap. split.
  - intros ([k c'] & -> & Hin). exists k. by apply elem_of_map_to_list.
  - intros (k & Hk). exists (k, c). split; [done|]. by apply elem_of_map_to_list.
Qed.

Lemma length_registered a : length (registered a) = size (clients a).
Proof. unfold registered. by rewrite length_fmap, length_map_to_list. Qed.

(** *** Node client calls *)

(** A [NodeClient] call sends at most one request. *)
Lemma getJSON_one_request {A} W (decode : string -> string + A) c path :
  (getJSON W decode c path).2 = [] \/
  exists req, (getJSON W decode c path).2 = [EvDo req] /\
              Method req = "GET" /\ URL req = Address c +:+ path.
Proof.
  unfold getJSON, mkRequest. destruct (newRequestErr W _ _); [by left|].
  right.
  exists {| Method := "GET"; URL := Address c +:+ path;
            Header := [("Accept", "application/json")]; ReqBody := None |}.
  split; [|done].
  unfold io_bind, doRequest. destruct (Do W _) as [msg|resp]; [done|].
  by destruct (400 <=? StatusCode resp).
Qed.

Lemma postJSON_one_request {A} W (decode : string -> string + A) c path body :
  (postJSON W decode c path body).2 = [] \/
  exists req, (postJSON W decode c path body).2 = [EvDo req] /\
              Method req = "POST" /\ URL req = Address c +:+ path.
Proof.
  unfold postJSON, mkRequest.
  destruct (Marshal W body) as [msg|data]; [by left|].
  destruct (newRequestErr W _ _); [by left|].
  right.
  exists {| Method := "POST"; URL := Address c +:+ path;
            Header := [("Content-Type", "application/json");
                       ("Accept", "application/json")];
            ReqBody := Some data |}.
  split; [|done].
  unfold io_bind, doRequest. destruct (Do W _) as [msg|resp]; [done|].
  by destruct (400 <=? StatusCode resp).
Qed.

(** A probe changes neither the name nor the address of its receiver. *)
Lemma probe_name_kept W c :
  Name (NodeClient_Ping W c).1.1 = Name c /\ Address (NodeClient_Ping W c).1.1 = Address c.
Proof.
  unfold NodeClient_Ping, mkRequest.
  destruct (newRequestErr W _ _); [done|].
  unfold io_bind, doRequest. destruct (Do W _) as [msg|resp]; [done|].
  by destruct (StatusCode resp =? StatusOK).
Qed.

(** ** The probe *)

(** C4. A probe that succeeds (request built, round trip done, status 200)
    sets [healthy] to true, sets [lastPing] to the current time and returns
    no error; every other probe sets [healthy] to false, keeps [lastPing]
    and returns the error it met (that of the request, that of the round
    trip, or the status it was answered with); either way at most one request
    is sent (no retry) and the identity of the client is kept.  A client fresh
    from [NewNodeClient] is healthy with the zero time as [lastPing]. *)
Theorem probe_updates_health (W : World) (c : NodeClient) :
  let req := {| Method := "GET"; URL := Address c +:+ "/healthz";
                Header := []; ReqBody := None |} in
  let succeeds :=
    newRequestErr W "GET" (Address c +:+ "/healthz") = None /\
    exists resp, Do W req = inr resp /\ StatusCode resp = StatusOK in
  let r := NodeClient_Ping W c in
  (succeeds ->
     healthy r.1.1 = true /\ lastPing r.1.1 = Now W /\ r.1.2 = None) /\
  (~ succeeds ->
     healthy r.1.1 = false /\ lastPing r.1.1 = lastPing c /\ exists e, r.1.2 = Some e) /\
  (forall msg,
     newRequestErr W "GET" (Address c +:+ "/healthz") = Some msg ->
     r.1.2 = Some (ErrNewRequest msg) /\ r.2 = []) /\
  (newRequestErr W "GET" (Address c +:+ "/healthz") = None ->
     (forall msg, Do W req = inl msg -> r.1.2 = Some (ErrDo msg)) /\
     (forall resp, Do W req = inr resp -> StatusCode resp <> StatusOK ->
                   r.1.2 = Some (ErrHealthCheck (Name c) (StatusCode resp))) /\
     r.2 = [EvDo req]) /\
  Name r.1.1 = Name c /\ Address r.1.1 = Address c /\
  (forall name address,
     healthy (NewNodeClient name address) = true /\
     lastPing (NewNodeClient name address) = zeroTime /\
     Name (NewNodeClient name address) = name /\
     Address (NewNodeClient name address) = address).
Proof.
  intros req succeeds r. subst r succeeds.
  unfold NodeClient_Ping, mkRequest.
  destruct (newRequestErr W "GET" (Address c +:+ "/healthz")) as [msg|] eqn:Hreq.
  { simpl. repeat apply conj; eauto.
    - by intros [? _].
    - by intros msg' [= <-].
    - done. }
  fold req. unfold io_bind, doRequest.
  destruct (Do W req) as [msg|resp] eqn:Hdo.
  { simpl. repeat apply conj; eauto.
    - by intros [_ (? & ? & _)].
    - done.
    - intros _. repeat apply conj; [by intros msg' [= <-]|done|done]. }
  destruct (StatusCode resp =? StatusOK) eqn:Hst; simpl.
  - apply Z.eqb_eq in Hst. repeat apply conj; eauto.
    + intros Hn. destruct Hn. split; [done|]. by exists resp.
    + done.
    + intros _. repeat apply conj; [done| |done].
      intros resp' [= <-] Hne. done.
  - apply Z.eqb_neq in Hst. repeat apply conj; eauto.
    + intros [_ (resp' & [= <-] & Hok)]. done.
    + done.
    + intros _. repeat apply conj; [done| |done].
      by intros resp' [= <-] _.
Qed.

(** ** Who writes the health fields *)

Lemma read_only_ListAllPods W order sched : read_only (Aggregator_ListAllPods W order sched).
Proof. unfold Aggregator_ListAllPods, listPodsTask. ro. Qed.

Lemma read_only_ListAllNodes W order sched : read_only (Aggregator_ListAllNodes W order sched).
Proof. unfold Aggregator_ListAllNodes, getNodeTask. ro. Qed.

Lemma read_only_scanPod W cs ns name : read_only (scanPod W cs ns name).
Proof. induction cs as [|c cs IH]; simpl; ro. Qed.

Lemma read_only_GetPod W order ns name : read_only (Aggregator_GetPod W order ns name).
Proof. unfold Aggregator_GetPod. ro. apply read_only_scanPod. Qed.

Lemma read_only_CreatePod W order pod : read_only (Aggregator_CreatePod W order pod).
Proof. unfold Aggregator_CreatePod, leastPodsStep. ro. Qed.

Lemma read_only_DeletePod W order ns name : read_only (Aggregator_DeletePod W order ns name).
Proof.
  unfold Aggregator_DeletePod.
  apply read_only_bind; [apply read_only_GetPod | intros r]. ro.
Qed.

Lemma read_only_GetPodLog W order ns name : read_only (Aggregator_GetPodLog W order ns name).
Proof.
  unfold Aggregator_GetPodLog.
  apply read_only_bind; [apply read_only_GetPod | intros r]. ro.
Qed.

Lemma read_only_GetClusterSummary W order : read_only (Aggregator_GetClusterSummary W order).
Proof. unfold Aggregator_GetClusterSummary, summaryStep. ro. Qed.

Lemma read_only_GetNode W name : read_only (Aggregator_GetNode W name).
Proof. unfold Aggregator_GetNode. ro. Qed.

(** *** The probe pass *)

Lemma probed_name W c : Name (probed W c) = Name c.
Proof. apply probe_name_kept. Qed.

Lemma pingStep_run W u c a :
  pingStep W u c a =
    (tt, {| clients := <[Name c := probed W c]> (clients a) |},
     (NodeClient_Ping W c).2 ++
     match (NodeClient_Ping W c).1.2 with
     | Some e => [EvLog "health check failed for %s: %v" (Name c) e]
     | None => []
     end).
Proof.
  unfold pingStep, m_bind, liftIO, storeClient, probed. simpl.
  rewrite (proj1 (probe_name_kept W c)).
  destruct (NodeClient_Ping W c) as [[c' [e|]] t]; simpl; by rewrite ?app_nil_r.
Qed.

Lemma foldM_pingStep_after W cs a :
  clients (after (foldM (pingStep W) cs tt a)) = pingedRegistry W cs (clients a).
Proof.
  revert a. induction cs as [|c cs IH]; intros a; [done|].
  simpl. unfold m_bind. rewrite pingStep_run.
  specialize (IH {| clients := <[Name c := probed W c]> (clients a) |}).
  unfold after in *.
  destruct (foldM (pingStep W) cs tt _) as [[u a2] t2]. simpl in *. exact IH.
Qed.

Lemma pingAll_after W order a :
  clients (after (Aggregator_pingAll W order a)) =
    pingedRegistry W (omap (fun k => clients a !! k) order) (clients a).
Proof.
  unfold Aggregator_pingAll, m_bind, rangeClients.
  rewrite <- (foldM_pingStep_after W _ a). unfold after.
  by destruct (foldM (pingStep W) _ tt a) as [[u a2] t2].
Qed.

Lemma pingedRegistry_cons W c cs m :
  pingedRegistry W (c :: cs) m = pingedRegistry W cs (<[Name c := probed W c]> m).
Proof. done. Qed.

Lemma pingedRegistry_other W cs m k :
  (forall c, c ∈ cs -> Name c <> k) -> pingedRegistry W cs m !! k = m !! k.
Proof.
  revert m. induction cs as [|c cs IH]; intros m Hk; [done|].
  rewrite pingedRegistry_cons, IH.
  - apply lookup_insert_ne. apply Hk. by left.
  - intros c' Hc'. apply Hk. by right.
Qed.

Lemma pingedRegistry_probed W cs m c :
  NoDup (Name <$> cs) -> c ∈ cs ->
  pingedRegistry W cs m !! Name c = Some (probed W c).
Proof.
  revert m. induction cs as [|x cs IH]; intros m Hnd Hin; [by inversion Hin|].
  rewrite fmap_cons in Hnd. apply NoDup_cons in Hnd as [Hx Hnd].
  rewrite pingedRegistry_cons.
  apply elem_of_cons in Hin as [->|Hin].
  - rewrite pingedRegistry_other; [apply lookup_insert_eq|].
    intros c' Hc' Heq. apply Hx. rewrite <- Heq.
    apply list_elem_of_fmap. by exists c'.
  - by apply IH.
Qed.

Lemma pingedRegistry_wf W cs m :
  (forall k c, m !! k = Some c -> Name c = k) ->
  forall k c, pingedRegistry W cs m !! k = Some c -> Name c = k.
Proof.
  revert m. induction cs as [|x cs IH]; intros m Hm; [done|].
  rewrite pingedRegistry_cons. apply IH. intros k c. rewrite lookup_insert.
  case_decide as Hk; [|by apply Hm].
  intros [= <-]. by rewrite probed_name.
Qed.

Lemma NewAggregator_wf cs : registry_wf (NewAggregator cs).
Proof.
  unfold registry_wf, NewAggregator. simpl.
  assert (forall m : gmap string NodeClient,
            (forall k c, m !! k = Some c -> Name c = k) ->
            forall k c, foldl (fun m c => <[Name c := c]> m) m cs !! k = Some c ->
                        Name c = k) as Haux.
  { induction cs as [|x cs IH]; intros m Hm; [done|].
    simpl. apply IH. intros k c. rewrite lookup_insert.
    case_decide as Hk; [|by apply Hm]. by intros [= <-]. }
  apply Haux. intros k c. by rewrite lookup_empty.
Qed.

(** The registry built from clients with distinct names holds exactly
    those clients. *)
Lemma NewAggregator_clients cs :
  clients (NewAggregator cs) = list_to_map ((fun c => (Name c, c)) <$> reverse cs).
Proof.
  unfold NewAggregator. simpl. induction cs as [|x l IH] using rev_ind; [done|].
  rewrite foldl_app, reverse_snoc, fmap_cons, list_to_map_cons. simpl. by rewrite IH.
Qed.

Lemma NewAggregator_registered cs :
  NoDup (Name <$> cs) -> registered (NewAggregator cs) ≡ₚ cs.
Proof.
  intros Hnd. unfold registered. rewrite NewAggregator_clients.
  rewrite map_to_list_to_map.
  - rewrite <- list_fmap_compose.
    change (snd ∘ (fun c : NodeClient => (Name c, c))) with (@id NodeClient).
    rewrite list_fmap_id. apply reverse_Permutation.
  - rewrite <- list_fmap_compose.
    change (fst ∘ (fun c : NodeClient => (Name c, c))) with Name.
    by rewrite fmap_reverse, reverse_Permutation.
Qed.

Lemma reachable_wf a : reachable a -> registry_wf a.
Proof.
  induction 1 as [cs|W order a Hr IH Ho].
  - apply NewAggregator_wf.
  - unfold registry_wf. rewrite pingAll_after. by apply pingedRegistry_wf.
Qed.

Lemma after_bind {A B} (m : M A) (f : A -> M B) a :
  after (m_bind m f a) = after (f (value (m a)) (after (m a))).
Proof.
  unfold m_bind, after, value. destruct (m a) as [[x a1] t1]. simpl.
  by destruct (f x a1) as [[y a2] t2].
Qed.

Lemma pingAll_wf W order a :
  registry_wf a -> registry_wf (after (Aggregator_pingAll W order a)).
Proof.
  intros Hwf. unfold registry_wf. rewrite pingAll_after. by apply pingedRegistry_wf.
Qed.

(** The health checker, however long it runs, keeps every client under its
    own name. *)
Lemma RunHealthChecker_wf first ticks a :
  registry_wf a -> registry_wf (after (Aggregator_RunHealthChecker first ticks a)).
Proof.
  unfold Aggregator_RunHealthChecker. generalize (first :: ticks) as passes.
  intros passes. generalize tt as u. revert a.
  induction passes as [|p passes IH]; intros a u Hwf; [done|].
  simpl. rewrite after_bind. apply IH. by apply pingAll_wf.
Qed.

Lemma registered_names a :
  registry_wf a -> Name <$> registered a = (map_to_list (clients a)).*1.
Proof.
  intros Hwf. unfold registered.
  assert (forall l : list (string * NodeClient),
            (forall k c, (k, c) ∈ l -> Name c = k) -> Name <$> l.*2 = l.*1) as Haux.
  { induction l as [|[k c] l IH]; intros Hl; [done|].
    simpl. f_equal; [apply Hl; by left|]. apply IH. intros ? ? ?. apply Hl. by right. }
  apply Haux. intros k c Hin. apply Hwf. by apply elem_of_map_to_list.
Qed.

(** After a probe pass every registered client is the probed version of
    what it was, and nothing else has been added. *)
Lemma pingAll_lookup W order a k :
  registry_wf a -> range_order a order ->
  clients (after (Aggregator_pingAll W order a)) !! k = probed W <$> clients a !! k.
Proof.
  intros Hwf Ho. rewrite pingAll_after.
  pose proof (rangeClients_registered a order Ho) as Hperm.
  destruct (clients a !! k) as [c|] eqn:Hk; simpl.
  - rewrite <- (Hwf k c Hk). apply pingedRegistry_probed.
    + rewrite Hperm, registered_names by done. apply NoDup_fst_map_to_list.
    + rewrite Hperm. apply elem_of_registered. eauto.
  - rewrite pingedRegistry_other; [done|].
    intros c Hc Heq. apply elem_of_rangeClients in Hc as [k' Hk'].
    rewrite (Hwf k' c Hk') in Heq. congruence.
Qed.

(** C8. None of [ListAllPods], [ListAllNodes], [GetPod], [CreatePod],
    [DeletePod], [GetPodLog], [GetClusterSummary] and [GetNode] changes the
    registry: every client's [healthy] and [lastPing] are after the call what
    they were before it.  The probe pass is the writer: it replaces every
    registered client by its probed version. *)
Theorem only_probe_writes_health (W : World) (a : Aggregator) :
  (forall order sched, after (Aggregator_ListAllPods W order sched a) = a) /\
  (forall order sched, after (Aggregator_ListAllNodes W order sched a) = a) /\
  (forall order ns name, after (Aggregator_GetPod W order ns name a) = a) /\
  (forall order pod, after (Aggregator_CreatePod W order pod a) = a) /\
  (forall order ns name, after (Aggregator_DeletePod W order ns name a) = a) /\
  (forall order ns name, after (Aggregator_GetPodLog W order ns name a) = a) /\
  (forall order, after (Aggregator_GetClusterSummary W order a) = a) /\
  (forall name, after (Aggregator_GetNode W name a) = a) /\
  (forall order k, registry_wf a -> range_order a order ->
     clients (after (Aggregator_pingAll W order a)) !! k = probed W <$> clients a !! k).
Proof.
  repeat apply conj; intros.
  - apply read_only_ListAllPods.
  - apply read_only_ListAllNodes.
  - apply read_only_GetPod.
  - apply read_only_CreatePod.
  - apply read_only_DeletePod.
  - apply read_only_GetPodLog.
  - apply read_only_GetClusterSummary.
  - apply read_only_GetNode.
  - by apply pingAll_lookup.
Qed.

(** ** Single-pod lookup *)

Lemma scanPod_found W pre c post pod ns name a :
  (forall c', c' ∈ pre -> lacksPod W ns name c') ->
  (NodeClient_GetPod W c ns name).1 = Ok pod ->
  scanPod W (pre ++ c :: post) ns name a =
    (Ok (annotate (Name c) pod, Name c), a, scanTrace W ns name (pre ++ [c])).
Proof.
  intros Hpre Hc. induction pre as [|x pre IH]; simpl.
  - unfold m_bind, liftIO, scanTrace. rewrite Hc. simpl. by rewrite !app_nil_r.
  - unfold m_bind, liftIO. specialize (Hpre x) as Hx. unfold lacksPod in Hx.
    destruct (NodeClient_GetPod W x ns name) as [[p|e] t] eqn:Hxe; simpl in *.
    { discriminate Hx. by left. }
    rewrite IH; [|intros c' Hc'; apply Hpre; by right].
    unfold scanTrace. simpl. by rewrite Hxe.
Qed.

Lemma scanPod_none W cs ns name a :
  (forall c, c ∈ cs -> lacksPod W ns name c) ->
  scanPod W cs ns name a = (Err (ErrPodNotFound ns name), a, scanTrace W ns name cs).
Proof.
  intros Hcs. induction cs as [|x cs IH]; simpl; [done|].
  unfold m_bind, liftIO. specialize (Hcs x) as Hx. unfold lacksPod in Hx.
  destruct (NodeClient_GetPod W x ns name) as [[p|e] t] eqn:Hxe; simpl in *.
  { discriminate Hx. by left. }
  rewrite IH; [|intros c' Hc'; apply Hcs; by right].
  unfold scanTrace. simpl. by rewrite Hxe.
Qed.

(** Every scan is of one of the two kinds. *)
Lemma scan_cases W ns name cs :
  (exists pre c post pod,
     cs = pre ++ c :: post /\
     (forall c', c' ∈ pre -> lacksPod W ns name c') /\
     (NodeClient_GetPod W c ns name).1 = Ok pod) \/
  (forall c, c ∈ cs -> lacksPod W ns name c).
Proof.
  induction cs as [|x cs IH].
  - right. intros c Hc. by inversion Hc.
  - destruct (NodeClient_GetPod W x ns name).1 as [pod|e] eqn:Hx.
    + left. exists [], x, cs, pod. repeat split; [|done].
      intros c' Hc'. by inversion Hc'.
    + destruct IH as [(pre & c & post & pod & -> & Hpre & Hc)|Hnone].
      * left. exists (x :: pre), c, post, pod. repeat split; [|done].
        intros c' [->|Hc']%elem_of_cons; [|by apply Hpre].
        unfold lacksPod. by rewrite Hx.
      * right. intros c [->|Hc']%elem_of_cons; [|by apply Hnone].
        unfold lacksPod. by rewrite Hx.
Qed.

Lemma GetPod_run W order ns name a :
  Aggregator_GetPod W order ns name a =
    scanPod W (omap (fun k => clients a !! k) order) ns name a.
Proof.
  unfold Aggregator_GetPod, m_bind, rangeClients.
  by destruct (scanPod W _ ns name a) as [[r a'] t].
Qed.

(** C3. [GetPod] asks the clients one after another in the order of the
    iteration and stops at the first that answers: it returns that pod,
    carrying the name of its node as provenance, and that name; the clients
    after it are not asked.  It fails, with the not-found error, exactly when
    every registered client has been asked and none answered. *)
Theorem GetPod_first_owner (W : World) (a : Aggregator) (order : list string)
    (ns name : string) :
  range_order a order ->
  let cs := omap (fun k => clients a !! k) order in
  let r := Aggregator_GetPod W order ns name a in
  (forall pre c post pod,
     cs = pre ++ c :: post ->
     (forall c', c' ∈ pre -> lacksPod W ns name c') ->
     (NodeClient_GetPod W c ns name).1 = Ok pod ->
     value r = Ok (annotate (Name c) pod, Name c) /\
     provenance (annotate (Name c) pod) = Some (Name c) /\
     trace r = scanTrace W ns name (pre ++ [c])) /\
  (forall p n,
     value r = Ok (p, n) ->
     exists pre c post pod,
       cs = pre ++ c :: post /\
       (forall c', c' ∈ pre -> lacksPod W ns name c') /\
       (NodeClient_GetPod W c ns name).1 = Ok pod /\
       p = annotate (Name c) pod /\ n = Name c) /\
  ((forall k c, clients a !! k = Some c -> lacksPod W ns name c) ->
     value r = Err (ErrPodNotFound ns name) /\ trace r = scanTrace W ns name cs) /\
  (forall e,
     value r = Err e ->
     e = ErrPodNotFound ns name /\
     trace r = scanTrace W ns name cs /\
     forall k c, clients a !! k = Some c -> c ∈ cs /\ lacksPod W ns name c).
Proof.
  intros Ho cs r. subst r. rewrite GetPod_run. fold cs.
  pose proof (rangeClients_registered a order Ho) as Hperm. fold cs in Hperm.
  repeat apply conj.
  - intros pre c post pod -> Hpre Hc.
    rewrite (scanPod_found W pre c post pod) by done.
    repeat split. apply provenance_annotate.
  - intros p n Hr.
    destruct (scan_cases W ns name cs) as [(pre & c & post & pod & Hcs & Hpre & Hc)|Hnone].
    + rewrite Hcs, (scanPod_found W pre c post pod) in Hr by done.
      injection Hr as <- <-. by exists pre, c, post, pod.
    + by rewrite scanPod_none in Hr.
  - intros Hall. rewrite scanPod_none; [done|].
    intros c [k Hk]%elem_of_rangeClients. by apply (Hall k).
  - intros e Hr.
    destruct (scan_cases W ns name cs) as [(pre & c & post & pod & Hcs & Hpre & Hc)|Hnone].
    + by rewrite Hcs, (scanPod_found W pre c post pod) in Hr.
    + rewrite scanPod_none in Hr |- * by done. injection Hr as <-.
      split; [done|split; [done|]].
      intros k c Hk.
      assert (c ∈ cs) by (rewrite Hperm; apply elem_of_registered; eauto).
      auto.
Qed.

(** ** Operations on the owner of a pod *)

Lemma lookup_scanned a (order : list string) c :
  registry_wf a ->
  c ∈ omap (fun k => clients a !! k) order ->
  clients a !! Name c = Some c.
Proof.
  intros Hwf [k Hk]%elem_of_rangeClients. by rewrite (Hwf k c Hk).
Qed.

Lemma DeletePod_found W a order ns name pre c post pod :
  registry_wf a ->
  omap (fun k => clients a !! k) order = pre ++ c :: post ->
  (forall c', c' ∈ pre -> lacksPod W ns name c') ->
  (NodeClient_GetPod W c ns name).1 = Ok pod ->
  Aggregator_DeletePod W order ns name a =
    ((NodeClient_DeletePod W c ns name).1, a,
     scanTrace W ns name (pre ++ [c]) ++ (NodeClient_DeletePod W c ns name).2).
Proof.
  intros Hwf Hcs Hpre Hc.
  assert (clients a !! Name c = Some c) as Hlook.
  { apply (lookup_scanned a order); [done|]. rewrite Hcs. set_solver. }
  unfold Aggregator_DeletePod, m_bind. rewrite GetPod_run, Hcs.
  rewrite (scanPod_found W pre c post pod) by done.
  unfold lookupClient, liftIO. rewrite Hlook. simpl.
  by destruct (NodeClient_DeletePod W c ns name).
Qed.

Lemma GetPodLog_found W a order ns name pre c post pod :
  registry_wf a ->
  omap (fun k => clients a !! k) order = pre ++ c :: post ->
  (forall c', c' ∈ pre -> lacksPod W ns name c') ->
  (NodeClient_GetPod W c ns name).1 = Ok pod ->
  Aggregator_GetPodLog W order ns name a =
    ((NodeClient_GetPodLog W c ns name).1, a,
     scanTrace W ns name (pre ++ [c]) ++ (NodeClient_GetPodLog W c ns name).2).
Proof.
  intros Hwf Hcs Hpre Hc.
  assert (clients a !! Name c = Some c) as Hlook.
  { apply (lookup_scanned a order); [done|]. rewrite Hcs. set_solver. }
  unfold Aggregator_GetPodLog, m_bind. rewrite GetPod_run, Hcs.
  rewrite (scanPod_found W pre c post pod) by done.
  unfold lookupClient, liftIO. rewrite Hlook. simpl.
  by destruct (NodeClient_GetPodLog W c ns name).
Qed.

Lemma DeletePod_none W a order ns name :
  (forall c, c ∈ omap (fun k => clients a !! k) order -> lacksPod W ns name c) ->
  Aggregator_DeletePod W order ns name a =
    (Some (ErrPodNotFound ns name), a,
     scanTrace W ns name (omap (fun k => clients a !! k) order)).
Proof.
  intros Hnone. unfold Aggregator_DeletePod, m_bind.
  rewrite GetPod_run, scanPod_none by done. simpl. by rewrite app_nil_r.
Qed.

Lemma GetPodLog_none W a order ns name :
  (forall c, c ∈ omap (fun k => clients a !! k) order -> lacksPod W ns name c) ->
  Aggregator_GetPodLog W order ns name a =
    (Err (ErrPodNotFound ns name), a,
     scanTrace W ns name (omap (fun k => clients a !! k) order)).
Proof.
  intros Hnone. unfold Aggregator_GetPodLog, m_bind.
  rewrite GetPod_run, scanPod_none by done. simpl. by rewrite app_nil_r.
Qed.

(** When at most one registered client holds the pod, two iterations of
    the registry end their scan at the same client. *)
Lemma scan_any_order W a (order order' : list string) ns name :
  range_order a order -> range_order a order' ->
  (forall c c', c ∈ registered a -> c' ∈ registered a ->
                ~ lacksPod W ns name c -> ~ lacksPod W ns name c' -> c = c') ->
  let cs := omap (fun k => clients a !! k) order in
  let cs' := omap (fun k => clients a !! k) order' in
  (exists c pod pre post pre' post',
     cs = pre ++ c :: post /\ cs' = pre' ++ c :: post' /\
     (forall x, x ∈ pre -> lacksPod W ns name x) /\
     (forall x, x ∈ pre' -> lacksPod W ns name x) /\
     (NodeClient_GetPod W c ns name).1 = Ok pod) \/
  ((forall x, x ∈ cs -> lacksPod W ns name x) /\
   (forall x, x ∈ cs' -> lacksPod W ns name x)).
Proof.
  intros Ho Ho' Huniq cs cs'.
  pose proof (rangeClients_registered a order Ho) as Hperm. fold cs in Hperm.
  pose proof (rangeClients_registered a order' Ho') as Hperm'. fold cs' in Hperm'.
  assert (forall c pod, (NodeClient_GetPod W c ns name).1 = Ok pod ->
                        ~ lacksPod W ns name c) as Hholds.
  { intros c pod Hc. unfold lacksPod. by rewrite Hc. }
  destruct (scan_cases W ns name cs) as [(pre & c & post & pod & Hcs & Hpre & Hc)|Hnone];
    destruct (scan_cases W ns name cs')
      as [(pre' & c' & post' & pod' & Hcs' & Hpre' & Hc')|Hnone'].
  - left. assert (c = c') as <-.
    { apply Huniq; eauto.
      - rewrite <- Hperm, Hcs. set_solver.
      - rewrite <- Hperm', Hcs'. set_solver. }
    by exists c, pod, pre, post, pre', post'.
  - exfalso. apply (Hholds c pod Hc). apply Hnone'.
    rewrite Hperm', <- Hperm, Hcs. set_solver.
  - exfalso. apply (Hholds c' pod' Hc'). apply Hnone.
    rewrite Hperm, <- Hperm', Hcs'. set_solver.
  - by right.
Qed.

(** C7. With the registry, its iteration order and the answers of the
    nodes held fixed: when [GetPod] returns an owner, [DeletePod] and
    [GetPodLog] send their request to the client registered under that very
    name, after the same scan and to no one else; when [GetPod] fails, both
    fail with the same not-found error.  The iteration order itself does not
    matter when at most one registered client holds the pod: all three calls
    then return the same under any two orders. *)
Theorem delete_and_log_use_GetPod_owner (W : World) (a : Aggregator)
    (order : list string) (ns name : string) :
  reachable a ->
  let g := Aggregator_GetPod W order ns name a in
  let d := Aggregator_DeletePod W order ns name a in
  let l := Aggregator_GetPodLog W order ns name a in
  (forall p owner,
     value g = Ok (p, owner) ->
     exists c,
       clients a !! owner = Some c /\ Name c = owner /\
       value d = (NodeClient_DeletePod W c ns name).1 /\
       trace d = trace g ++ (NodeClient_DeletePod W c ns name).2 /\
       value l = (NodeClient_GetPodLog W c ns name).1 /\
       trace l = trace g ++ (NodeClient_GetPodLog W c ns name).2) /\
  (forall e,
     value g = Err e ->
     e = ErrPodNotFound ns name /\
     value d = Some e /\ trace d = trace g /\
     value l = Err e /\ trace l = trace g) /\
  (forall order',
     range_order a order -> range_order a order' ->
     (forall c c', c ∈ registered a -> c' ∈ registered a ->
                   ~ lacksPod W ns name c -> ~ lacksPod W ns name c' -> c = c') ->
     value (Aggregator_GetPod W order' ns name a) = value g /\
     value (Aggregator_DeletePod W order' ns name a) = value d /\
     value (Aggregator_GetPodLog W order' ns name a) = value l).
Proof.
  intros Hwf%reachable_wf g d l. subst g d l.
  set (cs := omap (fun k => clients a !! k) order).
  repeat apply conj.
  - destruct (scan_cases W ns name cs) as [(pre & c & post & pod & Hcs & Hpre & Hc)|Hnone].
    + rewrite (DeletePod_found W a order ns name pre c post pod) by done.
      rewrite (GetPodLog_found W a order ns name pre c post pod) by done.
      rewrite GetPod_run. fold cs. rewrite Hcs.
      rewrite (scanPod_found W pre c post pod) by done.
      intros p owner [= <- <-]. exists c.
      repeat split. apply (lookup_scanned a order); [done|].
      fold cs. rewrite Hcs. set_solver.
    + rewrite GetPod_run. fold cs. by rewrite scanPod_none.
  - destruct (scan_cases W ns name cs) as [(pre & c & post & pod & Hcs & Hpre & Hc)|Hnone].
    + rewrite GetPod_run. fold cs. by rewrite Hcs, (scanPod_found W pre c post pod).
    + rewrite DeletePod_none, GetPodLog_none, GetPod_run by done. fold cs.
      rewrite scanPod_none by done. by intros e [= <-].
  - intros order' Ho Ho' Huniq.
    destruct (scan_any_order W a order order' ns name Ho Ho' Huniq)
      as [(c & pod & pre & post & pre' & post' & Hcs & Hcs' & Hpre & Hpre' & Hc)
         |[Hnone Hnone']].
    + rewrite (DeletePod_found W a order ns name pre c post pod) by done.
      rewrite (GetPodLog_found W a order ns name pre c post pod) by done.
      rewrite (DeletePod_found W a order' ns name pre' c post' pod) by done.
      rewrite (GetPodLog_found W a order' ns name pre' c post' pod) by done.
      rewrite !GetPod_run, Hcs, Hcs'.
      by rewrite (scanPod_found W pre c post pod), (scanPod_found W pre' c post' pod).
    + rewrite !DeletePod_none, !GetPodLog_none, !GetPod_run by done.
      by rewrite !scanPod_none.
Qed.

(** C10. In a registry built by [NewAggregator] (and probed any number of
    times), the name [GetPod] returns is a key of the registry, so the lookup
    that [DeletePod] and [GetPodLog] make next finds a client: neither ever
    returns the node-not-found error of that branch. *)
Theorem owner_lookup_succeeds (W : World) (a : Aggregator)
    (order : list string) (ns name : string) :
  reachable a ->
  let g := Aggregator_GetPod W order ns name a in
  (forall p owner,
     value g = Ok (p, owner) ->
     exists c, value (lookupClient owner (after g)) = Some c /\ Name c = owner) /\
  (forall n, value (Aggregator_DeletePod W order ns name a) <> Some (ErrNodeNotFound n)) /\
  (forall n, value (Aggregator_GetPodLog W order ns name a) <> Err (ErrNodeNotFound n)).
Proof.
  intros Hwf%reachable_wf g. subst g.
  set (cs := omap (fun k => clients a !! k) order).
  destruct (scan_cases W ns name cs) as [(pre & c & post & pod & Hcs & Hpre & Hc)|Hnone].
  - rewrite (DeletePod_found W a order ns name pre c post pod) by done.
    rewrite (GetPodLog_found W a order ns name pre c post pod) by done.
    rewrite GetPod_run. fold cs. rewrite Hcs.
    rewrite (scanPod_found W pre c post pod) by done.
    repeat apply conj.
    + intros p owner [= <- <-]. exists c. split; [|done].
      apply (lookup_scanned a order); [done|]. fold cs. rewrite Hcs. set_solver.
    + intros n. unfold value. simpl.
      unfold NodeClient_DeletePod, mkRequest.
      destruct (newRequestErr W _ _); [done|].
      unfold io_bind, doRequest. destruct (Do W _) as [msg|resp]; [done|].
      by destruct (400 <=? StatusCode resp).
    + intros n. unfold value. simpl.
      unfold NodeClient_GetPodLog, mkRequest.
      destruct (newRequestErr W _ _); [done|].
      unfold io_bind, doRequest. destruct (Do W _) as [msg|resp]; [done|].
      by destruct (400 <=? StatusCode resp).
  - rewrite DeletePod_none, GetPodLog_none, GetPod_run by done. fold cs.
    rewrite scanPod_none by done. done.
Qed.

(** ** Placement *)

Lemma CreatePod_explicit W order pod a :
  NodeName (Spec pod) <> "" ->
  Aggregator_CreatePod W order pod a =
    match clients a !! NodeName (Spec pod) with
    | Some c => ((NodeClient_CreatePod W c pod).1, a, (NodeClient_CreatePod W c pod).2)
    | None => (Err (ErrNodeNotFound (NodeName (Spec pod))), a, [])
    end.
Proof.
  intros Hn. unfold Aggregator_CreatePod, m_bind, lookupClient, liftIO.
  destruct (decide (NodeName (Spec pod) = "")) as [|_]; [done|]. simpl.
  destruct (clients a !! NodeName (Spec pod)) as [c|]; [|done]. simpl.
  by destruct (NodeClient_CreatePod W c pod).
Qed.

(** C5. A create that names its node goes to the client registered under
    that name and nowhere else: its value and its trace are those of that
    client's [CreatePod], at most one request, a POST to that client's
    address, and no pod listing is requested from anyone.  When no client is
    registered under the name the call fails with the node-not-found error
    without any request. *)
Theorem CreatePod_named_node_only (W : World) (a : Aggregator)
    (order : list string) (pod : Pod) :
  NodeName (Spec pod) <> "" ->
  let r := Aggregator_CreatePod W order pod a in
  (forall c,
     clients a !! NodeName (Spec pod) = Some c ->
     value r = (NodeClient_CreatePod W c pod).1 /\
     trace r = (NodeClient_CreatePod W c pod).2 /\
     (trace r = [] \/
      exists req, trace r = [EvDo req] /\ Method req = "POST" /\
                  URL req = Address c +:+ podsPath (Namespace (Meta pod)))) /\
  (clients a !! NodeName (Spec pod) = None ->
     value r = Err (ErrNodeNotFound (NodeName (Spec pod))) /\ trace r = []).
Proof.
  intros Hn r. subst r. rewrite CreatePod_explicit by done.
  split.
  - intros c ->. repeat split. unfold trace. simpl.
    apply postJSON_one_request.
  - by intros ->.
Qed.

Lemma NodeClient_CreatePod_address W c c' pod :
  Address c = Address c' -> NodeClient_CreatePod W c pod = NodeClient_CreatePod W c' pod.
Proof.
  intros Ha. unfold NodeClient_CreatePod, postJSON. by rewrite Ha.
Qed.

(** C9. A create that names a registered node is delegated to that node's
    client whatever its health flag, in particular when the flag is false;
    and the outcome of such a create is the same in any two registries that
    differ only in the health fields of their clients. *)
Theorem CreatePod_named_node_ignores_health (W : World) (a : Aggregator)
    (order : list string) (pod : Pod) (c : NodeClient) :
  NodeName (Spec pod) <> "" ->
  clients a !! NodeName (Spec pod) = Some c ->
  (healthy c = false ->
     value (Aggregator_CreatePod W order pod a) = (NodeClient_CreatePod W c pod).1 /\
     trace (Aggregator_CreatePod W order pod a) = (NodeClient_CreatePod W c pod).2) /\
  (forall a' order',
     same_endpoints a a' ->
     value (Aggregator_CreatePod W order' pod a') = value (Aggregator_CreatePod W order pod a) /\
     trace (Aggregator_CreatePod W order' pod a') = trace (Aggregator_CreatePod W order pod a)).
Proof.
  intros Hn Hc. rewrite CreatePod_explicit by done. rewrite Hc.
  split; [done|].
  intros a' order' Hsame. rewrite CreatePod_explicit by done.
  specialize (Hsame (NodeName (Spec pod))). rewrite Hc in Hsame.
  destruct (clients a' !! NodeName (Spec pod)) as [c'|]; [|done].
  destruct Hsame as (_ & Haddr & _).
  by rewrite (NodeClient_CreatePod_address W c c').
Qed.

(** *** Least-pods selection *)

Lemma leastPodsStep_run W acc c a :
  leastPodsStep W acc c a = (leastPodsPure W acc c, a, leastPodsTrace W c).
Proof.
  unfold leastPodsStep, leastPodsPure, leastPodsTrace, liveCount, NodeClient_IsHealthy.
  destruct (healthy c); simpl; [|done].
  unfold m_bind, liftIO.
  destruct (NodeClient_ListPods W c) as [[l|e] t]; simpl; [|by rewrite app_nil_r].
  destruct (len (Items l) <? acc.1); simpl; by rewrite app_nil_r.
Qed.

Lemma ListPods_decoded W c l :
  (NodeClient_ListPods W c).1 = Ok l -> exists body, decodePodList W body = inr l.
Proof.
  unfold NodeClient_ListPods, getJSON, mkRequest.
  destruct (newRequestErr W _ _); [done|].
  unfold io_bind, doRequest. destruct (Do W _) as [msg|resp]; [done|].
  destruct (400 <=? StatusCode resp); [done|]. simpl.
  destruct (decodePodList W (Body resp)) as [msg|l'] eqn:Hd; [done|].
  intros [= <-]. eauto.
Qed.

Lemma liveCount_fits W c n : slices_fit W -> liveCount W c = Some n -> 0 <= n < maxInt.
Proof.
  intros Hfit. unfold liveCount.
  destruct (NodeClient_IsHealthy c); [|done].
  destruct (NodeClient_ListPods W c).1 as [l|e] eqn:Hl; [|done].
  intros [= <-]. apply ListPods_decoded in Hl as [body Hb].
  split; [apply len_nonneg | by apply (Hfit body)].
Qed.

Lemma leastPodsChoice_unique W cs i c n i' c' n' :
  leastPodsChoice W cs i c n -> leastPodsChoice W cs i' c' n' ->
  i = i' /\ c = c' /\ n = n'.
Proof.
  intros (Hi & Hn & Hmin) (Hi' & Hn' & Hmin').
  destruct (Hmin i' c' n' Hi' Hn') as [Hle Hlt].
  destruct (Hmin' i c n Hi Hn) as [Hle' Hlt'].
  assert (i = i') as <- by lia.
  rewrite Hi in Hi'. injection Hi' as <-. rewrite Hn in Hn'. by injection Hn' as <-.
Qed.

(** The loop leaves either no target, when no client of the iteration is
    eligible, or the first client with the least count. *)
Lemma leastPods_fold W cs :
  slices_fit W ->
  (foldl (leastPodsPure W) (maxInt, None) cs = (maxInt, None) /\
   forall c, c ∈ cs -> liveCount W c = None) \/
  (exists i c n,
     foldl (leastPodsPure W) (maxInt, None) cs = (n, Some c) /\
     leastPodsChoice W cs i c n).
Proof.
  intros Hfit. induction cs as [|x l IH] using rev_ind.
  { left. split; [done|]. intros c Hc. by inversion Hc. }
  rewrite foldl_app. simpl. unfold leastPodsPure at 1 3.
  destruct IH as [[-> Hnone]|(i & c & n & -> & Hi & Hn & Hmin)]; simpl.
  - destruct (liveCount W x) as [m|] eqn:Hx.
    + right. pose proof (liveCount_fits W x m Hfit Hx) as Hm.
      assert ((m <? maxInt) = true) as -> by (apply Z.ltb_lt; lia).
      exists (length l), x, m. split; [done|].
      split; [by rewrite lookup_app_r, Nat.sub_diag by lia|].
      split; [done|]. intros j c' m' Hj Hc'.
      destruct (decide (j < length l)%nat) as [Hlt|Hge].
      * rewrite lookup_app_l in Hj by done.
        rewrite (Hnone c') in Hc'; [done|]. by eapply list_elem_of_lookup_2.
      * rewrite lookup_app_r in Hj by lia.
        destruct (j - length l)%nat eqn:Hjl; [|done].
        injection Hj as <-. rewrite Hx in Hc'. injection Hc' as <-. lia.
    + left. split; [done|]. intros c [Hc|Hc]%elem_of_app; [by apply Hnone|].
      apply list_elem_of_singleton in Hc as ->. done.
  - assert (i < length l)%nat as Hil by (by eapply lookup_lt_Some).
    destruct (liveCount W x) as [m|] eqn:Hx.
    + destruct (m <? n) eqn:Hmn; right.
      * apply Z.ltb_lt in Hmn.
        exists (length l), x, m. split; [done|].
        split; [by rewrite lookup_app_r, Nat.sub_diag by lia|].
        split; [done|]. intros j c' m' Hj Hc'.
        destruct (decide (j < length l)%nat) as [Hlt|Hge].
        -- rewrite lookup_app_l in Hj by done.
           destruct (Hmin j c' m' Hj Hc') as [Hle _]. lia.
        -- rewrite lookup_app_r in Hj by lia.
           destruct (j - length l)%nat eqn:Hjl; [|done].
           injection Hj as <-. rewrite Hx in Hc'. injection Hc' as <-. lia.
      * apply Z.ltb_ge in Hmn.
        exists i, c, n. split; [done|].
        split; [by rewrite lookup_app_l|].
        split; [done|]. intros j c' m' Hj Hc'.
        destruct (decide (j < length l)%nat) as [Hlt|Hge].
        -- rewrite lookup_app_l in Hj by done. by apply (Hmin j c' m').
        -- rewrite lookup_app_r in Hj by lia.
           destruct (j - length l)%nat eqn:Hjl; [|done].
           injection Hj as <-. rewrite Hx in Hc'. injection Hc' as <-. lia.
    + right. exists i, c, n. split; [done|].
      split; [by rewrite lookup_app_l|].
      split; [done|]. intros j c' m' Hj Hc'.
      destruct (decide (j < length l)%nat) as [Hlt|Hge].
      * rewrite lookup_app_l in Hj by done. by apply (Hmin j c' m').
      * rewrite lookup_app_r in Hj by lia.
        destruct (j - length l)%nat eqn:Hjl; [|done].
        injection Hj as <-. congruence.
Qed.

Lemma CreatePod_unnamed W order pod a :
  NodeName (Spec pod) = "" ->
  let cs := omap (fun k => clients a !! k) order in
  Aggregator_CreatePod W order pod a =
    match (foldl (leastPodsPure W) (maxInt, None) cs).2 with
    | None => (Err ErrNoHealthyNodes, a, mjoin (leastPodsTrace W <$> cs))
    | Some c => ((NodeClient_CreatePod W c pod).1, a,
                 mjoin (leastPodsTrace W <$> cs) ++ (NodeClient_CreatePod W c pod).2)
    end.
Proof.
  intros Hn cs. unfold Aggregator_CreatePod, m_bind, rangeClients, liftIO.
  destruct (decide (NodeName (Spec pod) = "")) as [_|]; [|done]. simpl.
  fold cs.
  rewrite (foldM_pure (leastPodsStep W) (leastPodsPure W) (leastPodsTrace W))
    by apply leastPodsStep_run.
  simpl. destruct (foldl (leastPodsPure W) (maxInt, None) cs).2 as [c|]; simpl.
  - destruct (NodeClient_CreatePod W c pod). simpl. by rewrite app_nil_r.
  - by rewrite !app_nil_r.
Qed.

(** C2. A create that names no node polls, in iteration order, the pod
    listing of every client whose health flag is true and of no other; among
    those that answer it picks the first one with the least count (so a
    client is chosen only if every client before it reports strictly more and
    none reports less), delegates the create to it after the polls, and
    returns what that client returns.  Such a client exists as soon as one
    healthy client answers the poll.  When every registered client has its
    flag false the call sends nothing and fails with the no-healthy-nodes
    error. *)
Theorem CreatePod_least_pods (W : World) (a : Aggregator)
    (order : list string) (pod : Pod) :
  NodeName (Spec pod) = "" ->
  range_order a order ->
  slices_fit W ->
  let cs := omap (fun k => clients a !! k) order in
  let r := Aggregator_CreatePod W order pod a in
  (forall i c n,
     leastPodsChoice W cs i c n ->
     value r = (NodeClient_CreatePod W c pod).1 /\
     trace r = mjoin (leastPodsTrace W <$> cs) ++ (NodeClient_CreatePod W c pod).2) /\
  ((exists k c, clients a !! k = Some c /\ is_Some (liveCount W c)) ->
     exists i c n, leastPodsChoice W cs i c n) /\
  ((forall k c, clients a !! k = Some c -> liveCount W c = None) ->
     value r = Err ErrNoHealthyNodes) /\
  ((forall k c, clients a !! k = Some c -> healthy c = false) ->
     value r = Err ErrNoHealthyNodes /\ trace r = []).
Proof.
  intros Hn Ho Hfit cs r. subst r. rewrite CreatePod_unnamed by done. fold cs.
  pose proof (rangeClients_registered a order Ho) as Hperm. fold cs in Hperm.
  assert (forall c, c ∈ cs <-> exists k, clients a !! k = Some c) as Hcs.
  { intros c. rewrite Hperm. apply elem_of_registered. }
  destruct (leastPods_fold W cs Hfit) as [[Hf Hnone]|(i & c & n & Hf & Hch)];
    rewrite Hf; simpl.
  - repeat apply conj.
    + intros i c n (Hi & Hc & _).
      rewrite (Hnone c) in Hc; [done|]. by eapply list_elem_of_lookup_2.
    + intros (k & c & Hk & [n Hc]).
      rewrite (Hnone c) in Hc; [done|]. apply Hcs. eauto.
    + done.
    + intros Hall. split; [done|]. unfold trace. simpl.
      assert (forall l : list NodeClient,
                (forall c, c ∈ l -> healthy c = false) ->
                mjoin (leastPodsTrace W <$> l) = []) as Haux.
      { induction l as [|x l IH]; intros Hl; [done|].
        simpl. unfold leastPodsTrace at 1, NodeClient_IsHealthy.
        rewrite (Hl x) by (by left). simpl. apply IH.
        intros c Hc. apply Hl. by right. }
      apply Haux. intros c [k Hk]%Hcs. by apply (Hall k).
  - repeat apply conj.
    + intros i' c' n' Hch'.
      destruct (leastPodsChoice_unique W cs i c n i' c' n' Hch Hch') as (_ & <- & _).
      done.
    + intros _. by exists i, c, n.
    + intros Hall. destruct Hch as (Hi & Hc & _).
      assert (c ∈ cs) as [k Hk]%Hcs by (by eapply list_elem_of_lookup_2).
      rewrite (Hall k c Hk) in Hc. done.
    + intros Hall. destruct Hch as (Hi & Hc & _).
      assert (c ∈ cs) as [k Hk]%Hcs by (by eapply list_elem_of_lookup_2).
      unfold liveCount, NodeClient_IsHealthy in Hc. rewrite (Hall k c Hk) in Hc. done.
Qed.

(** ** Fan-out listings *)

Lemma foldl_snoc_fmap {A B} (f : A -> B) (l : list A) (acc : list B) :
  foldl (fun acc x => acc ++ [f x]) acc l = acc ++ (f <$> l).
Proof.
  revert acc. induction l as [|x l IH]; intros acc; simpl.
  - by rewrite app_nil_r.
  - rewrite IH. by rewrite <- app_assoc.
Qed.

Lemma foldl_app_bind {A B} (f : A -> list B) (l : list A) (acc : list B) :
  foldl (fun acc x => acc ++ f x) acc l = acc ++ (l ≫= f).
Proof.
  revert acc. induction l as [|x l IH]; intros acc; simpl.
  - by rewrite app_nil_r.
  - rewrite IH. by rewrite <- app_assoc.
Qed.

Lemma listPodsTask_run W allPods c a :
  listPodsTask W allPods c a = (allPods ++ podsFrom W c, a, listPodsTrace W c).
Proof.
  unfold listPodsTask, podsFrom, listPodsTrace, m_bind, liftIO, logPrintf.
  destruct (NodeClient_ListPods W c) as [[l|e] t]; simpl.
  - by rewrite foldl_snoc_fmap.
  - by rewrite !app_nil_r.
Qed.

Lemma getNodeTask_run W nodes c a :
  getNodeTask W nodes c a = (nodes ++ nodeFrom W c, a, getNodeTrace W c).
Proof.
  unfold getNodeTask, nodeFrom, getNodeTrace, m_bind, liftIO, logPrintf.
  destruct (NodeClient_GetNode W c) as [[n|e] t]; simpl; [done|].
  by rewrite !app_nil_r.
Qed.

Lemma ListAllPods_run W order sched a :
  Aggregator_ListAllPods W order sched a =
    ((sched (omap (fun k => clients a !! k) order) ≫= podsFrom W, None), a,
     mjoin (listPodsTrace W <$> sched (omap (fun k => clients a !! k) order))).
Proof.
  unfold Aggregator_ListAllPods, m_bind, rangeClients.
  rewrite (foldM_pure (listPodsTask W) (fun acc c => acc ++ podsFrom W c) (listPodsTrace W))
    by apply listPodsTask_run.
  simpl. by rewrite foldl_app_bind, app_nil_r.
Qed.

Lemma ListAllNodes_run W order sched a :
  Aggregator_ListAllNodes W order sched a =
    ((sched (omap (fun k => clients a !! k) order) ≫= nodeFrom W, None), a,
     mjoin (getNodeTrace W <$> sched (omap (fun k => clients a !! k) order))).
Proof.
  unfold Aggregator_ListAllNodes, m_bind, rangeClients.
  rewrite (foldM_pure (getNodeTask W) (fun acc c => acc ++ nodeFrom W c) (getNodeTrace W))
    by apply getNodeTask_run.
  simpl. by rewrite foldl_app_bind, app_nil_r.
Qed.

(** Clients that contribute nothing can be left out of a merge. *)
Lemma bind_filter_contributors {A B} (f : A -> list B) (P : A -> Prop)
    `{!forall x, Decision (P x)} (l : list A) :
  (forall x, ~ P x -> f x = []) -> l ≫= f = filter P l ≫= f.
Proof.
  intros Hf. induction l as [|x l IH]; [done|].
  rewrite filter_cons, bind_cons. destruct (decide (P x)) as [Hx|Hx].
  - by rewrite bind_cons, IH.
  - by rewrite (Hf x Hx), IH.
Qed.

(** C1. Whatever the iteration order and the order in which the tasks of
    the fan-out finish, [ListAllPods] returns a nil error and, up to order,
    the pods of exactly those registered clients that answered the listing,
    each carrying the name of the client it came from as provenance;
    [ListAllNodes] returns a nil error and the nodes of exactly those
    registered clients that answered.  Clients that failed contribute nothing
    and do not make the call fail. *)
Theorem fanout_merges_responders (W : World) (a : Aggregator)
    (orderP orderN : list string)
    (schedP schedN : list NodeClient -> list NodeClient) :
  range_order a orderP -> range_order a orderN ->
  (forall l, schedP l ≡ₚ l) -> (forall l, schedN l ≡ₚ l) ->
  let rp := value (Aggregator_ListAllPods W orderP schedP a) in
  let rn := value (Aggregator_ListAllNodes W orderN schedN a) in
  rp.2 = None /\
  rp.1 ≡ₚ podResponders W a ≫= podsFrom W /\
  (forall p, p ∈ rp.1 ->
     exists c l p0,
       c ∈ podResponders W a /\ (NodeClient_ListPods W c).1 = Ok l /\
       p0 ∈ Items l /\ p = annotate (Name c) p0 /\
       provenance p = Some (Name c)) /\
  rn.2 = None /\
  rn.1 ≡ₚ nodeResponders W a ≫= nodeFrom W /\
  (forall n, n ∈ rn.1 ->
     exists c, c ∈ nodeResponders W a /\ (NodeClient_GetNode W c).1 = Ok n).
Proof.
  intros HoP HoN HsP HsN rp rn. subst rp rn.
  rewrite ListAllPods_run, ListAllNodes_run. unfold value. simpl.
  assert (schedP (omap (fun k => clients a !! k) orderP) ≫= podsFrom W
            ≡ₚ podResponders W a ≫= podsFrom W) as HP.
  { rewrite HsP, (rangeClients_registered a orderP HoP). unfold podResponders.
    rewrite <- bind_filter_contributors; [done|].
    intros c Hc. unfold podsFrom. by destruct (NodeClient_ListPods W c).1. }
  assert (schedN (omap (fun k => clients a !! k) orderN) ≫= nodeFrom W
            ≡ₚ nodeResponders W a ≫= nodeFrom W) as HN.
  { rewrite HsN, (rangeClients_registered a orderN HoN). unfold nodeResponders.
    rewrite <- bind_filter_contributors; [done|].
    intros c Hc. unfold nodeFrom. by destruct (NodeClient_GetNode W c).1. }
  repeat apply conj; [done|done| |done|done|].
  - intros p Hp. rewrite HP in Hp.
    apply list_elem_of_bind in Hp as (c & Hp & Hc).
    unfold podsFrom in Hp.
    destruct (NodeClient_ListPods W c).1 as [l|e] eqn:Hl; [|by inversion Hp].
    apply list_elem_of_fmap in Hp as (p0 & -> & Hp0).
    exists c, l, p0. repeat split; [done..|]. apply provenance_annotate.
  - intros n Hn. rewrite HN in Hn.
    apply list_elem_of_bind in Hn as (c & Hn & Hc).
    unfold nodeFrom in Hn.
    destruct (NodeClient_GetNode W c).1 as [n'|e] eqn:Hl; [|by inversion Hn].
    apply list_elem_of_singleton in Hn as ->. by exists c.
Qed.

(** ** Cluster summary *)

Lemma summaryStep_run W s c a :
  summaryStep W s c a = (summaryPure W s c, a, (NodeClient_ListPods W c).2).
Proof.
  unfold summaryStep, summaryPure, nodeSummary, podCount, m_bind, liftIO,
    NodeClient_IsHealthy, NodeClient_LastPing.
  destruct (NodeClient_ListPods W c) as [[l|e] t]; simpl; by rewrite app_nil_r.
Qed.

Lemma wrap_int_add_l x y : wrap_int (wrap_int x + y) = wrap_int (x + y).
Proof.
  unfold wrap_int. f_equal.
  replace ((x + 2 ^ 63) mod 2 ^ 64 - 2 ^ 63 + y + 2 ^ 63)
    with ((x + 2 ^ 63) mod 2 ^ 64 + y) by lia.
  rewrite Zplus_mod_idemp_l. f_equal. lia.
Qed.

Lemma int_add_wrapped x y : int_add (wrap_int x) y = wrap_int (x + y).
Proof. apply wrap_int_add_l. Qed.

(** The running-pod loop counts the running pods, as an [int]. *)
Lemma countRunning_wrapped r items :
  countRunning (wrap_int r) items =
    wrap_int (r + Z.of_nat (length (filter (fun pod => Phase (Status pod) = PodRunning) items))).
Proof.
  unfold countRunning. revert r. induction items as [|p items IH]; intros r.
  - simpl. by rewrite Z.add_0_r.
  - rewrite filter_cons. simpl.
    destruct (decide (Phase (Status p) = PodRunning)) as [Hp|Hp].
    + rewrite int_add_wrapped, IH, length_cons. f_equal. lia.
    + apply IH.
Qed.

Lemma running_le_pods W c : (runningCount W c <= podCount W c)%nat.
Proof.
  unfold runningCount, podCount. destruct (NodeClient_ListPods W c).1; [|done].
  apply length_filter.
Qed.

Lemma running_sum_le_pods W cs :
  (sum_list_with (runningCount W) cs <= sum_list_with (podCount W) cs)%nat.
Proof.
  induction cs as [|c cs IH]; simpl; [done|].
  pose proof (running_le_pods W c). lia.
Qed.

Lemma healthyCount_cons c cs :
  healthyCount (c :: cs) = ((if healthy c then 1 else 0) + healthyCount cs)%nat.
Proof.
  unfold healthyCount. rewrite filter_cons. by destruct (healthy c).
Qed.

(** The summary loop from accumulators [h], [p], [r]: sums taken in [int]. *)
Lemma summary_fold W cs s h p r :
  HealthyNodes s = wrap_int h -> PodCount s = wrap_int p -> RunningPods s = wrap_int r ->
  foldl (summaryPure W) s cs =
    {| NodeCount := NodeCount s;
       HealthyNodes := wrap_int (h + Z.of_nat (healthyCount cs));
       PodCount := wrap_int (p + Z.of_nat (sum_list_with (podCount W) cs));
       RunningPods := wrap_int (r + Z.of_nat (sum_list_with (runningCount W) cs));
       Nodes := Nodes s ++ (nodeSummary W <$> cs) |}.
Proof.
  revert s h p r. induction cs as [|c cs IH]; intros s h p r Hh Hp Hr.
  - simpl. rewrite !Z.add_0_r, app_nil_r, <- Hh, <- Hp, <- Hr. by destruct s.
  - simpl.
    rewrite (IH (summaryPure W s c)
               (h + (if healthy c then 1 else 0))
               (p + Z.of_nat (podCount W c))
               (r + Z.of_nat (runningCount W c))).
    + rewrite healthyCount_cons. simpl. f_equal.
      * f_equal. destruct (healthy c); lia.
      * f_equal. lia.
      * f_equal. lia.
      * by rewrite <- app_assoc.
    + simpl. rewrite Hh. destruct (healthy c).
      * apply int_add_wrapped.
      * by rewrite Z.add_0_r.
    + simpl. rewrite Hp. unfold podCount.
      destruct (NodeClient_ListPods W c).1 as [l|e].
      * apply int_add_wrapped.
      * by rewrite Z.add_0_r.
    + simpl. rewrite Hr. unfold runningCount.
      destruct (NodeClient_ListPods W c).1 as [l|e].
      * apply countRunning_wrapped.
      * by rewrite Z.add_0_r.
Qed.

Lemma GetClusterSummary_run W order a :
  let cs := omap (fun k => clients a !! k) order in
  Aggregator_GetClusterSummary W order a =
    (foldl (summaryPure W)
       {| NodeCount := len cs; HealthyNodes := 0; PodCount := 0;
          RunningPods := 0; Nodes := [] |} cs,
     a, mjoin ((fun c => (NodeClient_ListPods W c).2) <$> cs)).
Proof.
  intros cs. unfold Aggregator_GetClusterSummary, m_bind, rangeClients. fold cs.
  by rewrite (foldM_pure (summaryStep W) (summaryPure W)
                (fun c => (NodeClient_ListPods W c).2)) by apply summaryStep_run.
Qed.

(** C6. [GetClusterSummary] reports the number of registered clients, the
    number of those whose health flag is true, and the pod count and
    running-pod count summed over the listings it requests, once from every
    registered client during the call; a client whose listing fails counts
    zero pods, in the totals and in its own entry.  The sums are taken in
    [int]: they are the exact numbers whenever the number of clients and the
    total number of pods fit in an [int].  The registry is left as it was:
    nothing is kept from one call to the next. *)
Theorem summary_counts_live_listings (W : World) (a : Aggregator) (order : list string) :
  range_order a order ->
  let cs := omap (fun k => clients a !! k) order in
  let r := Aggregator_GetClusterSummary W order a in
  NodeCount (value r) = Z.of_nat (size (clients a)) /\
  HealthyNodes (value r) = wrap_int (Z.of_nat (healthyCount (registered a))) /\
  PodCount (value r) = wrap_int (Z.of_nat (sum_list_with (podCount W) (registered a))) /\
  RunningPods (value r)
    = wrap_int (Z.of_nat (sum_list_with (runningCount W) (registered a))) /\
  (Z.of_nat (size (clients a)) <= maxInt ->
   Z.of_nat (sum_list_with (podCount W) (registered a)) <= maxInt ->
   HealthyNodes (value r) = Z.of_nat (healthyCount (registered a)) /\
   PodCount (value r) = Z.of_nat (sum_list_with (podCount W) (registered a)) /\
   RunningPods (value r) = Z.of_nat (sum_list_with (runningCount W) (registered a))) /\
  Nodes (value r) = nodeSummary W <$> cs /\
  (forall c,
     is_ok (NodeClient_ListPods W c).1 = false ->
     podCount W c = 0%nat /\ runningCount W c = 0%nat /\
     NS_PodCount (nodeSummary W c) = 0) /\
  trace r = mjoin ((fun c => (NodeClient_ListPods W c).2) <$> cs) /\
  after r = a.
Proof.
  intros Ho cs r. subst r.
  pose proof (rangeClients_registered a order Ho) as Hperm. fold cs in Hperm.
  rewrite GetClusterSummary_run. fold cs. unfold value, trace, after. simpl.
  assert (length cs = size (clients a)) as Hlen
    by (by rewrite Hperm, length_registered).
  assert (healthyCount cs = healthyCount (registered a)) as Hhc
    by (unfold healthyCount; by rewrite Hperm).
  assert (sum_list_with (podCount W) cs = sum_list_with (podCount W) (registered a)) as Hpc
    by (by rewrite Hperm).
  assert (sum_list_with (runningCount W) cs
            = sum_list_with (runningCount W) (registered a)) as Hrc
    by (by rewrite Hperm).
  rewrite (summary_fold W cs _ 0 0 0) by done. simpl.
  rewrite Hhc, Hpc, Hrc. unfold len. rewrite Hlen.
  repeat apply conj; try done.
  - intros Hsize Hpods.
    assert (healthyCount (registered a) <= size (clients a))%nat as Hhle.
    { rewrite <- length_registered. apply length_filter. }
    pose proof (running_sum_le_pods W (registered a)) as Hrle.
    rewrite !wrap_int_small by (rewrite maxInt_val in *; lia). done.
  - intros c Hc. unfold nodeSummary, podCount, runningCount. simpl.
    by destruct (NodeClient_ListPods W c).1.
Qed.

(** ** The statements on the three-node cluster *)

Lemma demo_range_order : range_order demoAggregator demoOrder.
Proof. unfold range_order. vm_compute. apply perm_skip, perm_swap. Qed.

Lemma demo_iteration :
  omap (fun k => clients demoAggregator !! k) demoOrder = [clientC; clientB; clientA].
Proof. vm_compute. reflexivity. Qed.

Lemma demo_reachable : reachable demoProbed.
Proof. apply reach_ping; [apply reach_new | apply demo_range_order]. Qed.

Lemma demo_slices_fit : slices_fit demoWorld.
Proof.
  intros body l. simpl. repeat case_decide; intros [= <-]; vm_compute; reflexivity.
Qed.

(** Node [a], last in the iteration, is the first with the least count. *)
Lemma demo_choice :
  leastPodsChoice demoWorld (omap (fun k => clients demoAggregator !! k) demoOrder)
    2 clientA 2.
Proof.
  rewrite demo_iteration. split; [done|]. split; [by vm_compute|].
  intros [|[|[|j]]] c' m; simpl; intros [= <-]; vm_compute; intros [= <-];
    split; try done; lia.
Qed.

(** With [b] down, the listings hold the pods and nodes of [a] and [c]
    only, and report no error. *)
Lemma fanout_merges_responders_demo :
  (value (Aggregator_ListAllPods demoWorld demoOrder reverse demoAggregator)).2 = None /\
  (value (Aggregator_ListAllPods demoWorld demoOrder reverse demoAggregator)).1
    ≡ₚ podResponders demoWorld demoAggregator ≫= podsFrom demoWorld /\
  (value (Aggregator_ListAllNodes demoWorld demoOrder (fun l => l) demoAggregator)).1
    ≡ₚ nodeResponders demoWorld demoAggregator ≫= nodeFrom demoWorld.
Proof.
  destruct (fanout_merges_responders demoWorld demoAggregator demoOrder demoOrder
              reverse (fun l => l) demo_range_order demo_range_order
              reverse_Permutation (fun l => reflexivity l))
    as (Herr & Hpods & _ & _ & Hnodes & _).
  exact (conj Herr (conj Hpods Hnodes)).
Defined.

(** Two pods on [a], five on [c]: the new pod goes to [a]. *)
Lemma CreatePod_least_pods_demo :
  value (Aggregator_CreatePod demoWorld demoOrder demoJob demoAggregator)
    = (NodeClient_CreatePod demoWorld clientA demoJob).1.
Proof.
  exact (proj1 (proj1 (CreatePod_least_pods demoWorld demoAggregator demoOrder demoJob
                         eq_refl demo_range_order demo_slices_fit)
                  2%nat clientA 2 demo_choice)).
Defined.

(** [default/web] is found on [c], the first client of the iteration. *)
Lemma GetPod_first_owner_demo :
  value (Aggregator_GetPod demoWorld demoOrder "default" "web" demoAggregator)
    = Ok (annotate "c" (demoPod "default" "web" "Running"), "c").
Proof.
  refine (proj1 (proj1 (GetPod_first_owner demoWorld demoAggregator demoOrder
                          "default" "web" demo_range_order)
                   [] clientC [clientB; clientA] (demoPod "default" "web" "Running")
                   demo_iteration _ _)).
  - intros c' Hc'. by inversion Hc'.
  - vm_compute. reflexivity.
Defined.

(** A pod aimed at [a] is created through [a]'s client. *)
Lemma CreatePod_named_node_only_demo :
  value (Aggregator_CreatePod demoWorld demoOrder demoJobOnA demoAggregator)
    = (NodeClient_CreatePod demoWorld clientA demoJobOnA).1 /\
  trace (Aggregator_CreatePod demoWorld demoOrder demoJobOnA demoAggregator)
    = (NodeClient_CreatePod demoWorld clientA demoJobOnA).2.
Proof.
  assert (NodeName (Spec demoJobOnA) <> "") as Hn by discriminate.
  assert (clients demoAggregator !! NodeName (Spec demoJobOnA) = Some clientA) as Hc
    by (vm_compute; reflexivity).
  destruct (proj1 (CreatePod_named_node_only demoWorld demoAggregator demoOrder
                     demoJobOnA Hn) clientA Hc) as (Hv & Ht & _).
  exact (conj Hv Ht).
Defined.

(** Seven pods in all, five of them running, on three registered nodes. *)
Lemma summary_counts_live_listings_demo :
  NodeCount (value (Aggregator_GetClusterSummary demoWorld demoOrder demoAggregator)) = 3 /\
  PodCount (value (Aggregator_GetClusterSummary demoWorld demoOrder demoAggregator))
    = Z.of_nat (sum_list_with (podCount demoWorld) (registered demoAggregator)) /\
  RunningPods (value (Aggregator_GetClusterSummary demoWorld demoOrder demoAggregator))
    = Z.of_nat (sum_list_with (runningCount demoWorld) (registered demoAggregator)).
Proof.
  assert (Z.of_nat (size (clients demoAggregator)) <= maxInt) as Hsize
    by (vm_compute; discriminate).
  assert (Z.of_nat (sum_list_with (podCount demoWorld) (registered demoAggregator))
            <= maxInt) as Hpods by (vm_compute; discriminate).
  destruct (summary_counts_live_listings demoWorld demoAggregator demoOrder
              demo_range_order) as (Hn & _ & _ & _ & Hexact & _).
  destruct (Hexact Hsize Hpods) as (_ & Hp & Hr).
  exact (conj Hn (conj Hp Hr)).
Defined.

(** After the probe pass, deleting [default/web] and reading its log go to
    the client registered as [c], the owner [GetPod] names. *)
Lemma delete_and_log_use_GetPod_owner_demo :
  exists c,
    clients demoProbed !! "c" = Some c /\
    value (Aggregator_DeletePod demoWorld demoOrder "default" "web" demoProbed)
      = (NodeClient_DeletePod demoWorld c "default" "web").1 /\
    value (Aggregator_GetPodLog demoWorld demoOrder "default" "web" demoProbed)
      = (NodeClient_GetPodLog demoWorld c "default" "web").1.
Proof.
  assert (value (Aggregator_GetPod demoWorld demoOrder "default" "web" demoProbed)
            = Ok (annotate "c" (demoPod "default" "web" "Running"), "c")) as Hg
    by (vm_compute; reflexivity).
  destruct (proj1 (delete_and_log_use_GetPod_owner demoWorld demoProbed demoOrder
                     "default" "web" demo_reachable) _ "c" Hg)
    as (c & Hc & _ & Hd & _ & Hl & _).
  exists c. exact (conj Hc (conj Hd Hl)).
Defined.

(** Two calls need not range over the registry in the same order.  With
    [default/web] on both [a] and [c], a [GetPod] that visits [a] first names
    [a] as the owner, while a [DeletePod] and a [GetPodLog] whose own scans
    visit [c] first act on [c]: the pod that is deleted is not the one the
    direct call reported, and nothing is sent to [a]. *)
Lemma delete_owner_depends_on_iteration :
  let g := Aggregator_GetPod demoTwin ["a"; "b"; "c"] "default" "web" demoAggregator in
  let d := Aggregator_DeletePod demoTwin demoOrder "default" "web" demoAggregator in
  let l := Aggregator_GetPodLog demoTwin demoOrder "default" "web" demoAggregator in
  reachable demoAggregator /\
  range_order demoAggregator ["a"; "b"; "c"] /\
  range_order demoAggregator demoOrder /\
  value g = Ok (annotate "a" (demoPod "default" "web" "Running"), "a") /\
  clients demoAggregator !! "a" = Some clientA /\
  value d = None /\
  (fun req => (Method req, URL req)) <$> requests (trace d) =
    [("GET", "http://c/api/v1/namespaces/default/pods/web");
     ("DELETE", "http://c/api/v1/namespaces/default/pods/web")] /\
  value l = Ok "started" /\
  (fun req => (Method req, URL req)) <$> requests (trace l) =
    [("GET", "http://c/api/v1/namespaces/default/pods/web");
     ("GET", "http://c/api/v1/namespaces/default/pods/web/log")] /\
  ~ (exists c, clients demoAggregator !! "a" = Some c /\
               value d = (NodeClient_DeletePod demoTwin c "default" "web").1 /\
               trace d = trace g ++ (NodeClient_DeletePod demoTwin c "default" "web").2) /\
  ~ (exists c, clients demoAggregator !! "a" = Some c /\
               value l = (NodeClient_GetPodLog demoTwin c "default" "web").1 /\
               trace l = trace g ++ (NodeClient_GetPodLog demoTwin c "default" "web").2).
Proof.
  intros g d l. subst g d l.
  assert (clients demoAggregator !! "a" = Some clientA) as Ha by (vm_compute; reflexivity).
  repeat apply conj; try (vm_compute; reflexivity).
  - apply reach_new.
  - unfold range_order. vm_compute.
    eapply perm_trans; [apply perm_skip, perm_swap | apply perm_swap].
  - apply demo_range_order.
  - intros (c & Hc & _ & Ht). rewrite Ha in Hc. injection Hc as <-.
    vm_compute in Ht. discriminate Ht.
  - intros (c & Hc & Hv & _). rewrite Ha in Hc. injection Hc as <-.
    vm_compute in Hv. discriminate Hv.
Qed.

(** After the probe pass [a] is marked unhealthy; a pod aimed at [a] is
    created through [a]'s client all the same. *)
Lemma CreatePod_named_node_ignores_health_demo :
  healthy (probed demoWorld clientA) = false /\
  value (Aggregator_CreatePod demoWorld demoOrder demoJobOnA demoProbed)
    = (NodeClient_CreatePod demoWorld (probed demoWorld clientA) demoJobOnA).1.
Proof.
  assert (NodeName (Spec demoJobOnA) <> "") as Hn by discriminate.
  assert (clients demoProbed !! NodeName (Spec demoJobOnA)
            = Some (probed demoWorld clientA)) as Hc by (vm_compute; reflexivity).
  assert (healthy (probed demoWorld clientA) = false) as Hh by (vm_compute; reflexivity).
  exact (conj Hh (proj1 (proj1 (CreatePod_named_node_ignores_health demoWorld demoProbed
                                  demoOrder demoJobOnA _ Hn Hc) Hh))).
Defined.

(** The owner [GetPod] names is registered. *)
Lemma owner_lookup_succeeds_demo :
  exists c,
    value (lookupClient "c"
             (after (Aggregator_GetPod demoWorld demoOrder "default" "web" demoProbed)))
      = Some c /\ Name c = "c".
Proof.
  assert (value (Aggregator_GetPod demoWorld demoOrder "default" "web" demoProbed)
            = Ok (annotate "c" (demoPod "default" "web" "Running"), "c")) as Hg
    by (vm_compute; reflexivity).
  exact (proj1 (owner_lookup_succeeds demoWorld demoProbed demoOrder "default" "web"
                  demo_reachable) _ _ Hg).
Defined.

(** The probe pass marks [a] (503) and [b] (unreachable) unhealthy and
    stamps [c]; a pod without a target then goes to [c], although [a] lists
    fewer pods: the flag decides who is polled. *)
Example demo_probe_pass :
  (healthy <$> clients demoProbed !! "a") = Some false /\
  (healthy <$> clients demoProbed !! "b") = Some false /\
  (healthy <$> clients demoProbed !! "c") = Some true /\
  (lastPing <$> clients demoProbed !! "c") = Some (Now demoWorld) /\
  (lastPing <$> clients demoProbed !! "a") = Some zeroTime.
Proof. vm_compute. by repeat split. Qed.

Example demo_unnamed_after_probe :
  trace (Aggregator_CreatePod demoWorld demoOrder demoJob demoProbed) =
    (NodeClient_ListPods demoWorld clientC).2 ++
    (NodeClient_CreatePod demoWorld clientC demoJob).2.
Proof. vm_compute. reflexivity. Qed.

(** * Further properties of the code *)

(** ** Building the registry *)

Lemma NewAggregator_snoc cs x :
  clients (NewAggregator (cs ++ [x])) = <[Name x := x]> (clients (NewAggregator cs)).
Proof. unfold NewAggregator. simpl. by rewrite foldl_app. Qed.

(** X1. [NewAggregator] keeps, for every name, the last client of the
    list that bears it (an earlier client of the same name is dropped), and
    nothing under a name no client bears; so the registry never holds more
    clients than it was given, and none from an empty list. *)
Theorem NewAggregator_last_wins (cs : list NodeClient) :
  (forall k, clients (NewAggregator cs) !! k = last (filter (fun c => Name c = k) cs)) /\
  (size (clients (NewAggregator cs)) <= length cs)%nat /\
  (cs = [] -> clients (NewAggregator cs) = ∅).
Proof.
  repeat apply conj.
  - intros k. induction cs as [|x l IH] using rev_ind; [done|].
    rewrite NewAggregator_snoc, filter_app, lookup_insert.
    rewrite filter_cons, filter_nil. case_decide as Hk.
    + by rewrite last_snoc.
    + by rewrite app_nil_r.
  - induction cs as [|x l IH] using rev_ind; [done|].
    rewrite NewAggregator_snoc, length_app. change (length [x]) with 1%nat.
    pose proof (map_size_insert (Name x) x (clients (NewAggregator l))) as Hs.
    destruct (clients (NewAggregator l) !! Name x); unfold id in Hs; lia.
  - by intros ->.
Qed.

(** X2. Given clients with pairwise distinct names, the registry holds
    exactly those clients, each under its own name. *)
Theorem NewAggregator_distinct_names (cs : list NodeClient) :
  NoDup (Name <$> cs) ->
  registered (NewAggregator cs) ≡ₚ cs /\
  size (clients (NewAggregator cs)) = length cs /\
  (forall c, c ∈ cs -> clients (NewAggregator cs) !! Name c = Some c).
Proof.
  intros Hnd. pose proof (NewAggregator_registered cs Hnd) as Hperm.
  repeat apply conj.
  - done.
  - by rewrite <- length_registered, Hperm.
  - intros c Hc. rewrite <- Hperm in Hc.
    apply elem_of_registered in Hc as [k Hk].
    by rewrite (NewAggregator_wf cs k c Hk).
Qed.

Lemma NewAggregator_distinct_names_demo :
  registered demoAggregator ≡ₚ [clientA; clientB; clientC] /\
  size (clients demoAggregator) = 3%nat.
Proof.
  assert (NoDup (Name <$> [clientA; clientB; clientC])) as Hnd
    by (apply (bool_decide_unpack _); vm_compute; exact I).
  destruct (NewAggregator_distinct_names [clientA; clientB; clientC] Hnd) as (Hp & Hs & _).
  exact (conj Hp Hs).
Defined.

(** ** The node client *)

Lemma Ping_one_request W c : oneRequestTo c "GET" "/healthz" (NodeClient_Ping W c).2.
Proof.
  unfold oneRequestTo, NodeClient_Ping, mkRequest.
  destruct (newRequestErr W _ _); [by left|]. right.
  exists {| Method := "GET"; URL := Address c +:+ "/healthz";
            Header := []; ReqBody := None |}.
  split; [|done].
  unfold io_bind, doRequest. destruct (Do W _) as [msg|resp]; [done|].
  by destruct (StatusCode resp =? StatusOK).
Qed.

Lemma DeletePod_one_request W c ns name :
  oneRequestTo c "DELETE" (podPath ns name) (NodeClient_DeletePod W c ns name).2.
Proof.
  unfold oneRequestTo, NodeClient_DeletePod, mkRequest.
  destruct (newRequestErr W _ _); [by left|]. right.
  exists {| Method := "DELETE"; URL := Address c +:+ podPath ns name;
            Header := []; ReqBody := None |}.
  split; [|done].
  unfold io_bind, doRequest. destruct (Do W _) as [msg|resp]; [done|].
  by destruct (400 <=? StatusCode resp).
Qed.

Lemma GetPodLog_one_request W c ns name :
  oneRequestTo c "GET" (podPath ns name +:+ "/log") (NodeClient_GetPodLog W c ns name).2.
Proof.
  unfold oneRequestTo, NodeClient_GetPodLog, mkRequest.
  destruct (newRequestErr W _ _); [by left|]. right.
  exists {| Method := "GET"; URL := Address c +:+ podPath ns name +:+ "/log";
            Header := []; ReqBody := None |}.
  split; [|done].
  unfold io_bind, doRequest. destruct (Do W _) as [msg|resp]; [done|].
  by destruct (400 <=? StatusCode resp).
Qed.

(** X4. No method of a node client retries or contacts another node: each
    call sends at most one request, with the method and the path of that
    call, to the address of its own client. *)
Theorem NodeClient_one_request_each (W : World) (c : NodeClient) :
  oneRequestTo c "GET" "/healthz" (NodeClient_Ping W c).2 /\
  oneRequestTo c "GET" "/api/v1/pods" (NodeClient_ListPods W c).2 /\
  (forall ns name,
     oneRequestTo c "GET" (podPath ns name) (NodeClient_GetPod W c ns name).2) /\
  (forall pod,
     oneRequestTo c "POST" (podsPath (Namespace (Meta pod)))
       (NodeClient_CreatePod W c pod).2) /\
  (forall ns name,
     oneRequestTo c "DELETE" (podPath ns name) (NodeClient_DeletePod W c ns name).2) /\
  (forall ns name,
     oneRequestTo c "GET" (podPath ns name +:+ "/log")
       (NodeClient_GetPodLog W c ns name).2) /\
  oneRequestTo c "GET" ("/api/v1/nodes/" +:+ Name c) (NodeClient_GetNode W c).2.
Proof.
  repeat apply conj; intros.
  - apply Ping_one_request.
  - apply getJSON_one_request.
  - apply getJSON_one_request.
  - apply postJSON_one_request.
  - apply DeletePod_one_request.
  - apply GetPodLog_one_request.
  - apply getJSON_one_request.
Qed.

(** The outcome of a probe depends on the address and the name of the
    client only. *)
Lemma Ping_same_endpoint W c c' :
  Address c = Address c' -> Name c = Name c' ->
  healthy (probed W c) = healthy (probed W c') /\
  (NodeClient_Ping W c).1.2 = (NodeClient_Ping W c').1.2 /\
  (NodeClient_Ping W c).2 = (NodeClient_Ping W c').2.
Proof.
  intros Ha Hn. unfold probed, NodeClient_Ping, mkRequest. rewrite Ha, Hn.
  destruct (newRequestErr W _ _); [done|].
  unfold io_bind, doRequest. destruct (Do W _) as [msg|resp]; [done|].
  by destruct (StatusCode resp =? StatusOK).
Qed.

(** A probe returns an error exactly when it leaves the client unhealthy. *)
Lemma Ping_error_unhealthy W c :
  (NodeClient_Ping W c).1.2 = None <-> healthy (probed W c) = true.
Proof.
  unfold probed, NodeClient_Ping, mkRequest.
  destruct (newRequestErr W _ _); [done|].
  unfold io_bind, doRequest. destruct (Do W _) as [msg|resp]; [done|].
  by destruct (StatusCode resp =? StatusOK).
Qed.

(** X5. What a probe makes of the health flag does not depend on what the
    flag or the last-ping time were before: a client marked unhealthy is
    marked healthy by the next probe that succeeds, and conversely.  Probing
    twice in the same world is probing once. *)
Theorem probe_forgets_past_health (W : World) (c : NodeClient) :
  (forall h t,
     healthy (probed W (set_lastPing (set_health c h) t)) = healthy (probed W c) /\
     (NodeClient_Ping W (set_lastPing (set_health c h) t)).1.2
       = (NodeClient_Ping W c).1.2) /\
  (healthy (probed W c) = true -> lastPing (probed W c) = Now W) /\
  (healthy (probed W c) = false -> lastPing (probed W c) = lastPing c) /\
  probed W (probed W c) = probed W c.
Proof.
  repeat apply conj.
  - intros h t.
    destruct (Ping_same_endpoint W (set_lastPing (set_health c h) t) c) as (H1 & H2 & _);
      done.
  - unfold probed, NodeClient_Ping, mkRequest.
    destruct (newRequestErr W _ _); [done|].
    unfold io_bind, doRequest. destruct (Do W _) as [msg|resp]; [done|].
    by destruct (StatusCode resp =? StatusOK).
  - unfold probed, NodeClient_Ping, mkRequest.
    destruct (newRequestErr W _ _); [done|].
    unfold io_bind, doRequest. destruct (Do W _) as [msg|resp]; [done|].
    by destruct (StatusCode resp =? StatusOK).
  - unfold probed, NodeClient_Ping, mkRequest.
    destruct (newRequestErr W "GET" (Address c +:+ "/healthz")) as [msg|] eqn:Hreq.
    { simpl. by rewrite Hreq. }
    unfold io_bind, doRequest.
    destruct (Do W _) as [msg|resp] eqn:Hdo.
    { simpl. rewrite Hreq. simpl. by rewrite Hdo. }
    destruct (StatusCode resp =? StatusOK) eqn:Hst; simpl;
      rewrite Hreq; simpl; rewrite Hdo, Hst; done.
Qed.

(** ** The health checker *)

Lemma pingAll_fmap W order a :
  registry_wf a -> range_order a order ->
  clients (after (Aggregator_pingAll W order a)) = probed W <$> clients a.
Proof.
  intros Hwf Ho. apply map_eq. intros k.
  by rewrite lookup_fmap, pingAll_lookup.
Qed.

Lemma foldM_pingStep_trace W cs a :
  trace (foldM (pingStep W) cs tt a) = mjoin (pingTrace W <$> cs).
Proof.
  revert a. induction cs as [|c cs IH]; intros a; [done|].
  simpl. unfold m_bind. rewrite pingStep_run.
  specialize (IH {| clients := <[Name c := probed W c]> (clients a) |}).
  unfold trace in *.
  destruct (foldM (pingStep W) cs tt _) as [[u a2] t2]. simpl in *.
  by rewrite IH.
Qed.

Lemma pingAll_trace W order a :
  trace (Aggregator_pingAll W order a)
    = mjoin (pingTrace W <$> omap (fun k => clients a !! k) order).
Proof.
  unfold Aggregator_pingAll, m_bind, rangeClients.
  rewrite <- (foldM_pingStep_trace W _ a). unfold trace.
  by destruct (foldM (pingStep W) _ tt a) as [[u a2] t2].
Qed.

Lemma registered_fmap (f : NodeClient -> NodeClient) a a' :
  clients a' = f <$> clients a -> registered a' ≡ₚ f <$> registered a.
Proof.
  intros Hc. unfold registered. rewrite Hc, map_to_list_fmap.
  rewrite <- !list_fmap_compose. done.
Qed.

Lemma range_order_fmap (f : NodeClient -> NodeClient) a a' order :
  clients a' = f <$> clients a -> range_order a' order <-> range_order a order.
Proof.
  intros Hc. unfold range_order. rewrite Hc, map_to_list_fmap.
  rewrite <- !list_fmap_compose. done.
Qed.

Lemma logLines_app t1 t2 : logLines (t1 ++ t2) = logLines t1 ++ logLines t2.
Proof. apply filter_app. Qed.

Lemma requests_app t1 t2 : requests (t1 ++ t2) = requests t1 ++ requests t2.
Proof. apply omap_app. Qed.

(** The probe of one client: one log line if and only if it fails, and at
    most one request. *)
Lemma pingTrace_counts W c :
  length (logLines (pingTrace W c)) = (if healthy (probed W c) then 0 else 1)%nat /\
  (length (requests (pingTrace W c)) <= 1)%nat.
Proof.
  unfold pingTrace. rewrite logLines_app, requests_app, !length_app.
  pose proof (Ping_error_unhealthy W c) as Herr.
  assert (logLines (NodeClient_Ping W c).2 = [] /\
          (length (requests (NodeClient_Ping W c).2) <= 1)%nat) as [-> Hreq].
  { destruct (Ping_one_request W c) as [->|(req & -> & _)]; simpl; split; done || lia. }
  destruct (NodeClient_Ping W c).1.2 as [e|].
  - destruct (healthy (probed W c)).
    + discriminate (proj2 Herr eq_refl).
    + split; simpl; [done|lia].
  - rewrite (proj1 Herr) by done. split; simpl; [done|lia].
Qed.

(** X6. A probe pass over a registry replaces every client by its probed
    version and changes nothing else: the names registered stay the same.  It
    writes one log line for each client it leaves unhealthy and none for the
    others, and sends at most one request per registered client. *)
Theorem probe_pass_logs_failures (W : World) (a : Aggregator) (order : list string) :
  reachable a -> range_order a order ->
  let r := Aggregator_pingAll W order a in
  clients (after r) = probed W <$> clients a /\
  (forall k, is_Some (clients (after r) !! k) <-> is_Some (clients a !! k)) /\
  length (logLines (trace r))
    = length (filter (fun c => healthy c = false) (registered (after r))) /\
  (length (requests (trace r)) <= size (clients a))%nat.
Proof.
  intros Hwf%reachable_wf Ho r. subst r.
  pose proof (pingAll_fmap W order a Hwf Ho) as Hfmap.
  pose proof (rangeClients_registered a order Ho) as Hperm.
  repeat apply conj.
  - done.
  - intros k. rewrite Hfmap, lookup_fmap. by rewrite fmap_is_Some.
  - rewrite (registered_fmap (probed W) a _ Hfmap), <- Hperm, pingAll_trace.
    generalize (omap (fun k => clients a !! k) order) as cs.
    induction cs as [|c cs IH]; [done|].
    rewrite !fmap_cons, filter_cons. simpl.
    rewrite logLines_app, length_app, IH.
    rewrite (proj1 (pingTrace_counts W c)).
    by destruct (healthy (probed W c)).
  - rewrite <- length_registered, <- Hperm, pingAll_trace.
    generalize (omap (fun k => clients a !! k) order) as cs.
    induction cs as [|c cs IH]; [done|].
    rewrite fmap_cons. simpl. rewrite requests_app, length_app.
    pose proof (proj2 (pingTrace_counts W c)). lia.
Qed.

Lemma probe_pass_logs_failures_demo :
  length (logLines (trace (Aggregator_pingAll demoWorld demoOrder demoAggregator)))
    = length (filter (fun c => healthy c = false) (registered demoProbed)).
Proof.
  exact (proj1 (proj2 (proj2 (probe_pass_logs_failures demoWorld demoAggregator demoOrder
                                (reach_new [clientA; clientB; clientC]) demo_range_order)))).
Defined.

Lemma probedThrough_endpoint passes c :
  Name (probedThrough passes c) = Name c /\ Address (probedThrough passes c) = Address c.
Proof.
  unfold probedThrough. revert c. induction passes as [|p passes IH]; intros c; [done|].
  simpl. destruct (IH (probed p.1 c)) as [-> ->]. apply probe_name_kept.
Qed.

Lemma probedThrough_snoc passes p c :
  probedThrough (passes ++ [p]) c = probed p.1 (probedThrough passes c).
Proof. unfold probedThrough. by rewrite foldl_app. Qed.

Lemma passes_after passes u a :
  registry_wf a ->
  Forall (fun p : World * list string => range_order a p.2) passes ->
  clients (after (foldM (fun _ p => Aggregator_pingAll p.1 p.2) passes u a))
    = probedThrough passes <$> clients a.
Proof.
  revert u a. induction passes as [|p passes IH]; intros u a Hwf Hall.
  - simpl. by rewrite map_fmap_id.
  - apply Forall_cons in Hall as [Hp Hall]. simpl. rewrite after_bind.
    pose proof (pingAll_fmap p.1 p.2 a Hwf Hp) as Hfmap.
    rewrite IH.
    + rewrite Hfmap, <- map_fmap_compose. done.
    + by apply pingAll_wf.
    + eapply Forall_impl; [exact Hall|]. intros q Hq. simpl in *.
      by apply (range_order_fmap (probed p.1) a).
Qed.

(** X7. The health checker, run for any number of ticks, leaves every
    registered client where it was, under the same name and with the same
    address, probed once per pass, the first pass included; no client is added
    or removed.  The health flag it leaves is the one of the last pass
    alone. *)
Theorem health_checker_probes_every_pass (first : World * list string)
    (ticks : list (World * list string)) (a : Aggregator) :
  reachable a ->
  Forall (fun p : World * list string => range_order a p.2) (first :: ticks) ->
  let r := Aggregator_RunHealthChecker first ticks a in
  clients (after r) = probedThrough (first :: ticks) <$> clients a /\
  (forall k c,
     clients a !! k = Some c ->
     exists c',
       clients (after r) !! k = Some c' /\
       Name c' = Name c /\ Address c' = Address c /\
       healthy c' = healthy (probed (default first (last ticks)).1 c)) /\
  (forall k, clients a !! k = None -> clients (after r) !! k = None).
Proof.
  intros Hwf%reachable_wf Hall r. subst r. unfold Aggregator_RunHealthChecker.
  rewrite (passes_after (first :: ticks) tt a Hwf Hall).
  repeat apply conj.
  - done.
  - intros k c Hk. exists (probedThrough (first :: ticks) c).
    rewrite lookup_fmap, Hk. split; [done|].
    destruct (probedThrough_endpoint (first :: ticks) c) as [Hn Ha].
    split; [done|]. split; [done|].
    destruct ticks as [|t ticks _] using rev_ind.
    + done.
    + rewrite last_snoc, app_comm_cons, probedThrough_snoc.
      change (default first (Some t)) with t.
      destruct (probedThrough_endpoint (first :: ticks) c) as [Hn' Ha'].
      by destruct (Ping_same_endpoint t.1 (probedThrough (first :: ticks) c) c).
  - intros k Hk. by rewrite lookup_fmap, Hk.
Qed.

(** Two passes over the three nodes, the second in a world where every round
    trip fails: all three clients end unhealthy, [c] keeping the time of the
    first pass. *)
Lemma health_checker_probes_every_pass_demo :
  clients (after (Aggregator_RunHealthChecker (demoWorld, demoOrder)
                    [(demoOutage, ["a"; "b"; "c"])] demoAggregator))
    = probedThrough [(demoWorld, demoOrder); (demoOutage, ["a"; "b"; "c"])]
        <$> clients demoAggregator.
Proof.
  refine (proj1 (health_checker_probes_every_pass (demoWorld, demoOrder)
                   [(demoOutage, ["a"; "b"; "c"])] demoAggregator
                   (reach_new [clientA; clientB; clientC]) _)).
  repeat apply Forall_cons_2; [apply demo_range_order| |apply Forall_nil_2].
  unfold range_order. apply (bool_decide_unpack _). vm_compute. exact I.
Defined.

(** ** Nodes by name *)

Lemma GetNode_run W name a :
  Aggregator_GetNode W name a =
    match clients a !! name with
    | Some c => ((NodeClient_GetNode W c).1, a, (NodeClient_GetNode W c).2)
    | None => (Err (ErrNodeNotFound name), a, [])
    end.
Proof.
  unfold Aggregator_GetNode, m_bind, lookupClient, liftIO.
  destruct (clients a !! name) as [c|]; [|done]. simpl.
  by destruct (NodeClient_GetNode W c).
Qed.

(** X3. [GetNode] of a name that is not registered fails with the
    node-not-found error without any request.  For a registered name it
    returns what that client's own node request returns, a single GET of
    [/api/v1/nodes/<name>] at that client's address; and a node it returns is
    one of the nodes [ListAllNodes] returns. *)
Theorem GetNode_by_name (W : World) (a : Aggregator) (name : string) :
  reachable a ->
  let r := Aggregator_GetNode W name a in
  (clients a !! name = None ->
     value r = Err (ErrNodeNotFound name) /\ trace r = []) /\
  (forall c,
     clients a !! name = Some c ->
     value r = (NodeClient_GetNode W c).1 /\
     trace r = (NodeClient_GetNode W c).2 /\
     oneRequestTo c "GET" ("/api/v1/nodes/" +:+ name) (trace r)) /\
  (forall n order sched,
     value r = Ok n -> range_order a order ->
     (forall l : list NodeClient, sched l ≡ₚ l) ->
     n ∈ (value (Aggregator_ListAllNodes W order sched a)).1).
Proof.
  intros Hwf%reachable_wf r. subst r. rewrite GetNode_run.
  repeat apply conj.
  - by intros ->.
  - intros c Hc. rewrite Hc. repeat split.
    unfold trace. simpl. rewrite <- (Hwf name c Hc). apply getJSON_one_request.
  - intros n order sched Hn Ho Hs.
    rewrite ListAllNodes_run. unfold value. simpl.
    rewrite Hs, (rangeClients_registered a order Ho).
    destruct (clients a !! name) as [c|] eqn:Hc; [|done].
    unfold value in Hn. simpl in Hn.
    apply list_elem_of_bind. exists c. split.
    + unfold nodeFrom. rewrite Hn. by left.
    + apply elem_of_registered. eauto.
Qed.

Lemma GetNode_by_name_demo :
  value (Aggregator_GetNode demoWorld "zz" demoProbed) = Err (ErrNodeNotFound "zz") /\
  trace (Aggregator_GetNode demoWorld "zz" demoProbed) = [].
Proof.
  refine (proj1 (GetNode_by_name demoWorld demoProbed "zz" demo_reachable) _).
  vm_compute. reflexivity.
Defined.

(** ** Listings *)

Lemma provenance_podsFrom W c p : p ∈ podsFrom W c -> provenance p = Some (Name c).
Proof.
  unfold podsFrom. destruct (NodeClient_ListPods W c).1 as [l|e]; [|by inversion 1].
  intros (p0 & -> & _)%list_elem_of_fmap. apply provenance_annotate.
Qed.

(** X8. Listing the pods twice in a row gives the same pods, whatever the
    order in which the registry is iterated and in which the goroutines
    finish each time: the second list is a permutation of the first, and the
    registry the second call runs on is the one the first call ran on. *)
Theorem ListAllPods_twice (W : World) (a : Aggregator)
    (order1 order2 : list string) (sched1 sched2 : list NodeClient -> list NodeClient) :
  range_order a order1 -> range_order a order2 ->
  (forall l, sched1 l ≡ₚ l) -> (forall l, sched2 l ≡ₚ l) ->
  let r1 := Aggregator_ListAllPods W order1 sched1 a in
  let r2 := Aggregator_ListAllPods W order2 sched2 (after r1) in
  after r1 = a /\ (value r2).1 ≡ₚ (value r1).1 /\
  length (value r2).1 = length (value r1).1.
Proof.
  intros Ho1 Ho2 Hs1 Hs2 r1 r2. subst r1 r2.
  rewrite (read_only_ListAllPods W order1 sched1 a).
  rewrite !ListAllPods_run. unfold value. simpl.
  assert (sched2 (omap (fun k => clients a !! k) order2) ≫= podsFrom W
            ≡ₚ sched1 (omap (fun k => clients a !! k) order1) ≫= podsFrom W) as Hp.
  { by rewrite Hs1, Hs2, (rangeClients_registered a order1 Ho1),
      (rangeClients_registered a order2 Ho2). }
  split; [done|]. split; [done|]. by rewrite Hp.
Qed.

Lemma ListAllPods_twice_demo :
  (value (Aggregator_ListAllPods demoWorld ["a"; "b"; "c"] (fun l => l)
            (after (Aggregator_ListAllPods demoWorld demoOrder reverse demoAggregator)))).1
    ≡ₚ (value (Aggregator_ListAllPods demoWorld demoOrder reverse demoAggregator)).1.
Proof.
  assert (range_order demoAggregator ["a"; "b"; "c"]) as Ho
    by (unfold range_order; apply (bool_decide_unpack _); vm_compute; exact I).
  exact (proj1 (proj2 (ListAllPods_twice demoWorld demoAggregator demoOrder ["a"; "b"; "c"]
                         reverse (fun l => l) demo_range_order Ho
                         reverse_Permutation (fun l => reflexivity l)))).
Defined.

(** X9. In the list [ListAllPods] returns, the pods of one node stand
    together, in the order in which that node listed them: the pods of two
    nodes are never interleaved. *)
Theorem ListAllPods_node_blocks (W : World) (a : Aggregator) (order : list string)
    (sched : list NodeClient -> list NodeClient) (k : string) (c : NodeClient) :
  range_order a order -> (forall l, sched l ≡ₚ l) ->
  clients a !! k = Some c ->
  exists before behind,
    (value (Aggregator_ListAllPods W order sched a)).1
      = before ++ podsFrom W c ++ behind /\
    (forall l, (NodeClient_ListPods W c).1 = Ok l ->
               podsFrom W c = annotate (Name c) <$> Items l).
Proof.
  intros Ho Hs Hk. rewrite ListAllPods_run. unfold value. simpl.
  assert (c ∈ sched (omap (fun k => clients a !! k) order)) as Hin.
  { rewrite Hs, (rangeClients_registered a order Ho). apply elem_of_registered. eauto. }
  apply list_elem_of_split in Hin as (pre & post & ->).
  exists (pre ≫= podsFrom W), (post ≫= podsFrom W). split.
  - by rewrite bind_app, bind_cons.
  - intros l Hl. unfold podsFrom. by rewrite Hl.
Qed.

Lemma ListAllPods_node_blocks_demo :
  exists before behind,
    (value (Aggregator_ListAllPods demoWorld demoOrder reverse demoAggregator)).1
      = before ++ podsFrom demoWorld clientC ++ behind.
Proof.
  assert (clients demoAggregator !! "c" = Some clientC) as Hk by (vm_compute; reflexivity).
  destruct (ListAllPods_node_blocks demoWorld demoAggregator demoOrder reverse "c" clientC
              demo_range_order reverse_Permutation Hk) as (before & behind & Heq & _).
  exists before, behind. exact Heq.
Defined.

(** X10. The provenance written on a pod replaces whatever the node had
    put under that key, so a node cannot pass its pods off as another's, and
    writing it again (an aggregator listing another aggregator) keeps only
    the last name; every other annotation and the rest of the pod are kept
    as the node sent them. *)
Theorem provenance_overwrites (node node' : string) (pod : Pod) :
  annotationOf nodeAnnotation (annotate node pod) = Some node /\
  annotate node (annotate node' pod) = annotate node pod /\
  (forall key, key <> nodeAnnotation ->
               annotationOf key (annotate node pod) = annotationOf key pod) /\
  corev1.Name (Meta (annotate node pod)) = corev1.Name (Meta pod) /\
  Namespace (Meta (annotate node pod)) = Namespace (Meta pod) /\
  Spec (annotate node pod) = Spec pod /\
  Status (annotate node pod) = Status pod.
Proof.
  repeat apply conj; try done.
  - apply lookup_insert_eq.
  - unfold annotate. simpl. by rewrite insert_insert_eq.
  - intros key Hkey. unfold annotationOf, annotate. simpl.
    rewrite lookup_insert_ne by done.
    by destruct (Annotations (Meta pod)).
Qed.

(** ** Summary and listing together *)

Lemma GetClusterSummary_value W order a :
  let cs := omap (fun k => clients a !! k) order in
  value (Aggregator_GetClusterSummary W order a) =
    {| NodeCount := len cs;
       HealthyNodes := wrap_int (Z.of_nat (healthyCount cs));
       PodCount := wrap_int (Z.of_nat (sum_list_with (podCount W) cs));
       RunningPods := wrap_int (Z.of_nat (sum_list_with (runningCount W) cs));
       Nodes := nodeSummary W <$> cs |}.
Proof.
  intros cs. rewrite GetClusterSummary_run. fold cs. unfold value. simpl.
  by rewrite (summary_fold W cs _ 0 0 0).
Qed.

Lemma sum_podCount_entries W cs :
  foldr Z.add 0 (NS_PodCount <$> (nodeSummary W <$> cs))
    = Z.of_nat (sum_list_with (podCount W) cs).
Proof.
  induction cs as [|c cs IH]; [done|].
  rewrite !fmap_cons. cbn [foldr]. rewrite IH. simpl. lia.
Qed.

Lemma healthy_entries W cs :
  length (filter (fun e => NS_Healthy e = true) (nodeSummary W <$> cs)) = healthyCount cs.
Proof.
  unfold healthyCount. induction cs as [|c cs IH]; [done|].
  rewrite fmap_cons, !filter_cons. simpl.
  destruct (decide (healthy c = true)); simpl; by rewrite IH.
Qed.

(** X11. The parts of a cluster summary agree with each other: there is one
    entry per registered client, bearing the name it is registered under; the number of healthy
    nodes is the number of entries marked healthy and is at most the number
    of nodes; the pod count is the sum of the entries' pod counts; and the
    running pods are at most the pods (the counts being those of the program
    whenever the number of clients and of pods fit in an [int]). *)
Theorem summary_is_consistent (W : World) (a : Aggregator) (order : list string) :
  reachable a ->
  range_order a order ->
  Z.of_nat (size (clients a)) <= maxInt ->
  Z.of_nat (sum_list_with (podCount W) (registered a)) <= maxInt ->
  let s := value (Aggregator_GetClusterSummary W order a) in
  len (Nodes s) = NodeCount s /\
  NS_Name <$> Nodes s ≡ₚ (map_to_list (clients a)).*1 /\
  HealthyNodes s = len (filter (fun e => NS_Healthy e = true) (Nodes s)) /\
  0 <= HealthyNodes s <= NodeCount s /\
  PodCount s = foldr Z.add 0 (NS_PodCount <$> Nodes s) /\
  0 <= RunningPods s <= PodCount s.
Proof.
  intros Hwf%reachable_wf Ho Hsize Hpods s. subst s. rewrite GetClusterSummary_value.
  cbn [NodeCount HealthyNodes PodCount RunningPods Nodes].
  set (cs := omap (fun k => clients a !! k) order).
  pose proof (rangeClients_registered a order Ho) as Hperm. fold cs in Hperm.
  assert (length cs = size (clients a)) as Hlen by (by rewrite Hperm, length_registered).
  assert (sum_list_with (podCount W) cs = sum_list_with (podCount W) (registered a)) as Hpc
    by (by rewrite Hperm).
  assert (healthyCount cs <= length cs)%nat as Hhle by apply length_filter.
  pose proof (running_sum_le_pods W cs) as Hrle.
  rewrite !wrap_int_small by (rewrite maxInt_val in *; lia).
  unfold len. rewrite length_fmap, healthy_entries, sum_podCount_entries.
  repeat apply conj; try done; try lia.
  rewrite <- list_fmap_compose.
  change (NS_Name ∘ nodeSummary W) with Name.
  by rewrite Hperm, registered_names.
Qed.

Lemma summary_is_consistent_demo :
  PodCount (value (Aggregator_GetClusterSummary demoWorld demoOrder demoProbed))
    = foldr Z.add 0
        (NS_PodCount <$>
           Nodes (value (Aggregator_GetClusterSummary demoWorld demoOrder demoProbed))).
Proof.
  assert (range_order demoProbed demoOrder) as Ho
    by (unfold range_order; apply (bool_decide_unpack _); vm_compute; exact I).
  assert (Z.of_nat (size (clients demoProbed)) <= maxInt) as Hsize
    by (vm_compute; discriminate).
  assert (Z.of_nat (sum_list_with (podCount demoWorld) (registered demoProbed))
            <= maxInt) as Hpods by (vm_compute; discriminate).
  destruct (summary_is_consistent demoWorld demoProbed demoOrder
              demo_reachable Ho Hsize Hpods) as (_ & _ & _ & _ & Hp & _).
  exact Hp.
Defined.

Lemma length_podsFrom W c : length (podsFrom W c) = podCount W c.
Proof.
  unfold podsFrom, podCount. destruct (NodeClient_ListPods W c).1; [|done].
  apply length_fmap.
Qed.

Lemma running_podsFrom W c :
  length (filter (fun pod => Phase (Status pod) = PodRunning) (podsFrom W c))
    = runningCount W c.
Proof.
  unfold podsFrom, runningCount. destruct (NodeClient_ListPods W c).1 as [l|e]; [|done].
  induction (Items l) as [|p ps IH]; [done|].
  rewrite fmap_cons, !filter_cons. simpl.
  destruct (decide (Phase (Status p) = PodRunning)); simpl; by rewrite IH.
Qed.

Lemma length_bind_podsFrom W cs :
  length (cs ≫= podsFrom W) = sum_list_with (podCount W) cs /\
  length (filter (fun pod => Phase (Status pod) = PodRunning) (cs ≫= podsFrom W))
    = sum_list_with (runningCount W) cs.
Proof.
  induction cs as [|c cs [IH1 IH2]]; [done|].
  rewrite bind_cons, filter_app, !length_app, IH1, IH2.
  by rewrite length_podsFrom, running_podsFrom.
Qed.

(** X12. Over the same answers of the nodes, the summary and the pod
    listing agree: the pod count of the summary is the length of the list
    [ListAllPods] returns, and its running-pod count is the number of pods of
    that list in phase [Running] (as long as the counts fit in an [int]). *)
Theorem summary_counts_the_listing (W : World) (a : Aggregator)
    (order order' : list string) (sched : list NodeClient -> list NodeClient) :
  range_order a order -> range_order a order' ->
  (forall l, sched l ≡ₚ l) ->
  Z.of_nat (sum_list_with (podCount W) (registered a)) <= maxInt ->
  let s := value (Aggregator_GetClusterSummary W order a) in
  let pods := (value (Aggregator_ListAllPods W order' sched a)).1 in
  PodCount s = len pods /\
  RunningPods s = len (filter (fun pod => Phase (Status pod) = PodRunning) pods).
Proof.
  intros Ho Ho' Hs Hpods s pods. subst s pods.
  rewrite GetClusterSummary_value, ListAllPods_run. unfold value.
  cbn [PodCount RunningPods fst snd].
  pose proof (rangeClients_registered a order Ho) as Hperm.
  pose proof (rangeClients_registered a order' Ho') as Hperm'.
  unfold len.
  destruct (length_bind_podsFrom W (sched (omap (fun k => clients a !! k) order')))
    as [-> ->].
  rewrite Hs, Hperm, Hperm'.
  pose proof (running_sum_le_pods W (registered a)) as Hrle.
  by rewrite !wrap_int_small by (rewrite maxInt_val in *; lia).
Qed.

Lemma summary_counts_the_listing_demo :
  PodCount (value (Aggregator_GetClusterSummary demoWorld demoOrder demoAggregator))
    = len (value (Aggregator_ListAllPods demoWorld demoOrder reverse demoAggregator)).1.
Proof.
  assert (Z.of_nat (sum_list_with (podCount demoWorld) (registered demoAggregator))
            <= maxInt) as Hpods by (vm_compute; discriminate).
  exact (proj1 (summary_counts_the_listing demoWorld demoAggregator demoOrder demoOrder
                  reverse demo_range_order demo_range_order reverse_Permutation Hpods)).
Defined.

(** ** Placement, once more *)

Lemma leastPods_target W cs acc c :
  (foldl (leastPodsPure W) acc cs).2 = Some c ->
  acc.2 = Some c \/ (c ∈ cs /\ healthy c = true).
Proof.
  revert acc. induction cs as [|x cs IH]; intros acc Hc; [by left|].
  simpl in Hc. apply IH in Hc as [Hc|[Hc Hh]].
  - unfold leastPodsPure in Hc.
    destruct (liveCount W x) as [n|] eqn:Hx; [|by left].
    destruct (n <? acc.1); [|by left].
    injection Hc as <-. right. split; [by left|].
    unfold liveCount, NodeClient_IsHealthy in Hx. by destruct (healthy x).
  - right. split; [by right|done].
Qed.

Lemma requests_mjoin (ts : list (list Event)) req :
  req ∈ requests (mjoin ts) -> exists t, t ∈ ts /\ req ∈ requests t.
Proof.
  induction ts as [|t ts IH]; [by inversion 1|].
  simpl. rewrite requests_app. intros [Hr|Hr]%elem_of_app.
  - exists t. split; [by left|done].
  - destruct (IH Hr) as (t' & Ht' & Hr'). exists t'. split; [by right|done].
Qed.

Lemma oneRequestTo_requests c method path t req :
  oneRequestTo c method path t -> req ∈ requests t ->
  Method req = method /\ URL req = Address c +:+ path.
Proof.
  intros [->|(req' & -> & Hm & Hu)] Hr; [by inversion Hr|].
  simpl in Hr. by apply list_elem_of_singleton in Hr as ->.
Qed.

Lemma no_post_among_gets (rs : list Request) :
  Forall (fun r => Method r = "GET") rs ->
  filter (fun r => Method r = "POST") rs = [].
Proof.
  induction 1 as [|r rs Hr _ IH]; [done|].
  rewrite filter_cons. destruct (decide (Method r = "POST")) as [Hp|_]; [|done].
  rewrite Hr in Hp. discriminate.
Qed.

(** X13. A create that names no node never sends a request to a node
    whose health flag is false: every request of the call goes to the address
    of a registered client marked healthy, and at most one of them, the last,
    is the POST that creates the pod. *)
Theorem placement_contacts_healthy_only (W : World) (a : Aggregator)
    (order : list string) (pod : Pod) :
  NodeName (Spec pod) = "" ->
  let t := trace (Aggregator_CreatePod W order pod a) in
  (forall req,
     req ∈ requests t ->
     exists k c path,
       clients a !! k = Some c /\ healthy c = true /\ URL req = Address c +:+ path) /\
  (length (filter (fun req => Method req = "POST") (requests t)) <= 1)%nat /\
  (forall polls req, requests t = polls ++ [req] ->
                     Forall (fun r => Method r = "GET") polls).
Proof.
  intros Hn t. subst t. rewrite (CreatePod_unnamed W order pod a Hn).
  set (cs := omap (fun k => clients a !! k) order).
  assert (forall req, req ∈ requests (mjoin (leastPodsTrace W <$> cs)) ->
            Method req = "GET" /\
            exists k c path,
              clients a !! k = Some c /\ healthy c = true /\
              URL req = Address c +:+ path) as Hpolls.
  { intros req (t & Ht & Hr)%requests_mjoin.
    apply list_elem_of_fmap in Ht as (c & -> & Hc).
    apply elem_of_rangeClients in Hc as [k Hk].
    unfold leastPodsTrace, NodeClient_IsHealthy in Hr.
    destruct (healthy c) eqn:Hh; [|by inversion Hr].
    destruct (oneRequestTo_requests c "GET" "/api/v1/pods" _ req
                (getJSON_one_request W (decodePodList W) c "/api/v1/pods") Hr) as [Hm Hu].
    split; [done|]. by exists k, c, "/api/v1/pods". }
  assert (Forall (fun r => Method r = "GET") (requests (mjoin (leastPodsTrace W <$> cs))))
    as Hget.
  { apply Forall_forall. intros req Hr. by apply Hpolls. }
  assert (filter (fun req => Method req = "POST")
            (requests (mjoin (leastPodsTrace W <$> cs))) = []) as Hnopost.
  { by apply no_post_among_gets. }
  destruct (foldl (leastPodsPure W) (maxInt, None) cs).2 as [c|] eqn:Hc;
    unfold trace; simpl.
  - apply leastPods_target in Hc as [Hc|[Hc Hh]]; [done|].
    apply elem_of_rangeClients in Hc as [k Hk].
    pose proof (postJSON_one_request W (decodePod W) c
                  (podsPath (Namespace (Meta pod))) pod) as Hone.
    fold (NodeClient_CreatePod W c pod) in Hone.
    rewrite requests_app.
    repeat apply conj.
    + intros req [Hr|Hr]%elem_of_app; [by apply Hpolls|].
      destruct (oneRequestTo_requests c "POST" _ _ req Hone Hr) as [_ Hu].
      by exists k, c, (podsPath (Namespace (Meta pod))).
    + rewrite filter_app, Hnopost. simpl.
      destruct Hone as [->|(req & -> & _)]; simpl; [lia|].
      rewrite filter_cons, filter_nil. destruct (decide _); simpl; lia.
    + intros polls req Heq.
      destruct Hone as [Ht|(req' & Ht & _)]; rewrite Ht in Heq; simpl in Heq.
      * rewrite app_nil_r in Heq. rewrite Heq in Hget.
        by apply Forall_app in Hget as [? _].
      * apply app_inj_tail in Heq as [<- _]. done.
  - repeat apply conj.
    + intros req Hr. by apply Hpolls.
    + rewrite Hnopost. simpl. lia.
    + intros polls req Heq. rewrite Heq in Hget.
      by apply Forall_app in Hget as [? _].
Qed.

(** After the probe pass only [c] is marked healthy: the poll and the
    create both go to [c], none to [a] or [b]. *)
Lemma placement_contacts_healthy_only_demo :
  URL <$> requests (trace (Aggregator_CreatePod demoWorld demoOrder demoJob demoProbed))
    = ["http://c/api/v1/pods"; "http://c/api/v1/namespaces/default/pods"] /\
  (length (filter (fun req => Method req = "POST")
             (requests (trace (Aggregator_CreatePod demoWorld demoOrder demoJob demoProbed))))
     <= 1)%nat.
Proof.
  split; [vm_compute; reflexivity|].
  exact (proj1 (proj2 (placement_contacts_healthy_only demoWorld demoProbed demoOrder
                         demoJob eq_refl))).
Defined.

(** ** The API handlers *)

Lemma foldl_filter_snoc {A} (P : A -> Prop) `{!forall x, Decision (P x)}
    (l : list A) (acc : list A) :
  foldl (fun items x => if decide (P x) then items ++ [x] else items) acc l
    = acc ++ filter P l.
Proof.
  revert acc. induction l as [|x l IH]; intros acc; simpl.
  - by rewrite app_nil_r.
  - rewrite IH, filter_cons. destruct (decide (P x)); [|done].
    by rewrite <- app_assoc.
Qed.

Lemma handleListNamespacedPods_run W order sched ns a :
  Router_handleListNamespacedPods W order sched ns a =
    (WriteJSON StatusOK
       (JPodList {| APIVersion := "v1"; Kind := "PodList" |}
          (filter (fun pod => Namespace (Meta pod) = ns)
             (value (Aggregator_ListAllPods W order sched a)).1)),
     a, trace (Aggregator_ListAllPods W order sched a)).
Proof.
  unfold Router_handleListNamespacedPods, m_bind.
  rewrite ListAllPods_run. unfold value, trace. simpl.
  by rewrite foldl_filter_snoc, app_nil_r.
Qed.

(** X14. The listing endpoints never answer an error, however many nodes
    fail: each replies 200 with the list the aggregator returns.  The
    namespaced listing replies with the pods of the requested namespace only,
    in the order of the full listing, each still carrying the name of the
    registered node it came from; it sends the same requests as the full
    listing. *)
Theorem list_handlers_always_answer (W : World) (a : Aggregator) (order : list string)
    (sched : list NodeClient -> list NodeClient) (ns : string) :
  let all := (value (Aggregator_ListAllPods W order sched a)).1 in
  let inNs := filter (fun pod => Namespace (Meta pod) = ns) all in
  value (Router_handleListAllPods W order sched a)
    = WriteJSON StatusOK (JPodList {| APIVersion := "v1"; Kind := "PodList" |} all) /\
  value (Router_handleListNamespacedPods W order sched ns a)
    = WriteJSON StatusOK (JPodList {| APIVersion := "v1"; Kind := "PodList" |} inNs) /\
  trace (Router_handleListNamespacedPods W order sched ns a)
    = trace (Router_handleListAllPods W order sched a) /\
  value (Router_handleListNodes W order sched a)
    = WriteJSON StatusOK
        (JNodeList {| APIVersion := "v1"; Kind := "NodeList" |}
           (value (Aggregator_ListAllNodes W order sched a)).1) /\
  (forall pod, pod ∈ inNs <-> pod ∈ all /\ Namespace (Meta pod) = ns) /\
  (range_order a order -> (forall l, sched l ≡ₚ l) ->
   forall pod, pod ∈ inNs ->
     exists k c, clients a !! k = Some c /\ provenance pod = Some (Name c)).
Proof.
  intros all inNs. subst inNs all.
  rewrite handleListNamespacedPods_run.
  unfold Router_handleListAllPods, Router_handleListNodes, m_bind.
  rewrite ListAllPods_run, ListAllNodes_run. unfold value, trace. simpl.
  repeat apply conj; try done.
  - by rewrite app_nil_r.
  - intros pod. rewrite list_elem_of_filter. tauto.
  - intros Ho Hs pod [_ Hin]%list_elem_of_filter.
    apply list_elem_of_bind in Hin as (c & Hp & Hc).
    rewrite Hs in Hc. apply elem_of_rangeClients in Hc as [k Hk].
    exists k, c. split; [done|]. by apply (provenance_podsFrom W c).
Qed.

Lemma CreatePod_posts W a order pod req :
  req ∈ requests (trace (Aggregator_CreatePod W order pod a)) ->
  Method req = "POST" ->
  exists k c, clients a !! k = Some c /\
              URL req = Address c +:+ podsPath (Namespace (Meta pod)).
Proof.
  intros Hr Hm.
  destruct (decide (NodeName (Spec pod) = "")) as [Hn|Hn].
  - rewrite (CreatePod_unnamed W order pod a Hn) in Hr.
    set (cs := omap (fun k => clients a !! k) order) in *.
    assert (forall r, r ∈ requests (mjoin (leastPodsTrace W <$> cs)) -> Method r = "GET")
      as Hpolls.
    { intros r (t & Ht & Hrt)%requests_mjoin.
      apply list_elem_of_fmap in Ht as (c & -> & Hc).
      unfold leastPodsTrace in Hrt.
      destruct (NodeClient_IsHealthy c); [|by inversion Hrt].
      by destruct (oneRequestTo_requests c "GET" "/api/v1/pods" _ r
                     (getJSON_one_request W (decodePodList W) c "/api/v1/pods") Hrt). }
    destruct (foldl (leastPodsPure W) (maxInt, None) cs).2 as [c|] eqn:Hc;
      unfold trace in Hr; simpl in Hr.
    + rewrite requests_app in Hr. apply elem_of_app in Hr as [Hr|Hr].
      { rewrite (Hpolls req Hr) in Hm. discriminate. }
      apply leastPods_target in Hc as [Hc|[Hc _]]; [done|].
      apply elem_of_rangeClients in Hc as [k Hk].
      destruct (oneRequestTo_requests c "POST" _ _ req
                  (postJSON_one_request W (decodePod W) c
                     (podsPath (Namespace (Meta pod))) pod) Hr) as [_ Hu].
      by exists k, c.
    + rewrite (Hpolls req Hr) in Hm. discriminate.
  - rewrite (CreatePod_explicit W order pod a Hn) in Hr.
    destruct (clients a !! NodeName (Spec pod)) as [c|] eqn:Hc;
      unfold trace in Hr; simpl in Hr; [|by inversion Hr].
    destruct (oneRequestTo_requests c "POST" _ _ req
                (postJSON_one_request W (decodePod W) c
                   (podsPath (Namespace (Meta pod))) pod) Hr) as [_ Hu].
    by exists (NodeName (Spec pod)), c.
Qed.

Lemma leastPodsTrace_unhealthy W cs :
  (forall c, c ∈ cs -> healthy c = false) -> mjoin (leastPodsTrace W <$> cs) = [].
Proof.
  induction cs as [|c cs IH]; intros Hcs; [done|].
  rewrite fmap_cons. simpl. rewrite IH by (intros c' Hc'; apply Hcs; by right).
  unfold leastPodsTrace, NodeClient_IsHealthy. by rewrite (Hcs c) by left.
Qed.

(** X15. The create endpoint rejects a body that is not a pod with 400
    before any node is contacted.  Otherwise the namespace of the request
    path replaces the one of the body: whichever node is chosen, the pod is
    posted to [/api/v1/namespaces/<ns>/pods] of a registered node with the
    [ns] of the path.  The reply is 201 with the pod the node returned when the
    create succeeds and 500 with the error in every other case.  A body that
    names a node that is not registered is answered 500 and nothing is sent;
    one that names a registered node makes the handler send what that
    client's create sends, at most the one POST; when no registered client is
    marked healthy a body without a target is answered 500 and nothing is
    sent either. *)
Theorem handleCreatePod_path_namespace (W : World) (a : Aggregator)
    (order : list string) (ns body : string) :
  let r := Router_handleCreatePod W order ns body a in
  (forall msg,
     decodePod W body = inl msg ->
     value r = HttpError (InvalidPodJSON msg) StatusBadRequest /\ trace r = []) /\
  (forall pod,
     decodePod W body = inr pod ->
     let created := value (Aggregator_CreatePod W order (setNamespace pod ns) a) in
     (forall req, req ∈ requests (trace r) -> Method req = "POST" ->
        exists k c, clients a !! k = Some c /\ URL req = Address c +:+ podsPath ns) /\
     (forall result, created = Ok result ->
                     value r = WriteJSON StatusCreated (JPod result)) /\
     (forall e, created = Err e ->
                value r = HttpError (ErrorOf e) StatusInternalServerError) /\
     (NodeName (Spec pod) <> "" -> clients a !! NodeName (Spec pod) = None ->
        value r = HttpError (ErrorOf (ErrNodeNotFound (NodeName (Spec pod))))
                    StatusInternalServerError /\
        trace r = []) /\
     (forall c,
        NodeName (Spec pod) <> "" -> clients a !! NodeName (Spec pod) = Some c ->
        trace r = (NodeClient_CreatePod W c (setNamespace pod ns)).2 /\
        oneRequestTo c "POST" (podsPath ns) (trace r)) /\
     (NodeName (Spec pod) = "" ->
      (forall k c, clients a !! k = Some c -> healthy c = false) ->
        value r = HttpError (ErrorOf ErrNoHealthyNodes) StatusInternalServerError /\
        trace r = [])) /\
  after r = a.
Proof.
  intros r. subst r. unfold Router_handleCreatePod.
  destruct (decodePod W body) as [msg|pod] eqn:Hd.
  { repeat apply conj.
    - intros msg' Heq. by injection Heq as <-.
    - intros pod Heq. discriminate.
    - done. }
  assert (forall X,
            m_bind (Aggregator_CreatePod W order (setNamespace pod ns))
              (fun r => match r with
                        | Err e => m_ret (HttpError (ErrorOf e) StatusInternalServerError)
                        | Ok result => m_ret (WriteJSON StatusCreated (JPod result))
                        end) a = X ->
            value X = match value (Aggregator_CreatePod W order (setNamespace pod ns) a) with
                      | Err e => HttpError (ErrorOf e) StatusInternalServerError
                      | Ok result => WriteJSON StatusCreated (JPod result)
                      end /\
            trace X = trace (Aggregator_CreatePod W order (setNamespace pod ns) a) /\
            after X = after (Aggregator_CreatePod W order (setNamespace pod ns) a)) as Hrun.
  { intros X <-. unfold m_bind, value, trace, after.
    destruct (Aggregator_CreatePod W order (setNamespace pod ns) a) as [[[res|e] a1] t1];
      simpl; by rewrite app_nil_r. }
  destruct (Hrun _ eq_refl) as (Hv & Ht & Ha). clear Hrun.
  repeat apply conj.
  - done.
  - intros pod' Heq. injection Heq as <-. cbv zeta. rewrite Hv, Ht.
    repeat apply conj.
    + intros req Hr Hm.
      destruct (CreatePod_posts W a order (setNamespace pod ns) req Hr Hm)
        as (k & c & Hk & Hu). by exists k, c.
    + by intros result ->.
    + by intros e ->.
    + intros Hn Hnone.
      assert (NodeName (Spec (setNamespace pod ns)) <> "") as Hn' by done.
      rewrite (CreatePod_explicit W order _ a Hn'). simpl. by rewrite Hnone.
    + intros c Hn Hc.
      assert (NodeName (Spec (setNamespace pod ns)) <> "") as Hn' by done.
      rewrite (CreatePod_explicit W order _ a Hn'). simpl. rewrite Hc.
      unfold trace. simpl. split; [done|].
      apply (postJSON_one_request W (decodePod W) c (podsPath ns) (setNamespace pod ns)).
    + intros Hn Hall.
      assert (NodeName (Spec (setNamespace pod ns)) = "") as Hn' by done.
      rewrite (CreatePod_unnamed W order _ a Hn').
      destruct (foldl (leastPodsPure W) (maxInt, None) _).2 as [c|] eqn:Hc.
      * apply leastPods_target in Hc as [Hc|[Hc Hh]]; [done|].
        apply elem_of_rangeClients in Hc as [k Hk].
        rewrite (Hall k c Hk) in Hh. discriminate.
      * unfold value, trace. simpl. split; [done|].
        apply leastPodsTrace_unhealthy. intros c' [k Hk]%elem_of_rangeClients.
        by apply (Hall k).
  - rewrite Ha. apply read_only_CreatePod.
Qed.

Lemma handleGetPod_run W order ns name a :
  Router_handleGetPod W order ns name a =
    (match value (Aggregator_GetPod W order ns name a) with
     | Err e => HttpError (ErrorOf e) StatusNotFound
     | Ok (pod, _) => WriteJSON StatusOK (JPod pod)
     end, a, trace (Aggregator_GetPod W order ns name a)).
Proof.
  unfold Router_handleGetPod, m_bind, value, trace.
  pose proof (read_only_GetPod W order ns name a) as Ha. unfold after in Ha.
  destruct (Aggregator_GetPod W order ns name a) as [[[[pod n]|e] a1] t1];
    simpl in *; subst a1; by rewrite app_nil_r.
Qed.

Lemma handleDeletePod_run W order ns name a :
  Router_handleDeletePod W order ns name a =
    (match value (Aggregator_DeletePod W order ns name a) with
     | Some e => HttpError (ErrorOf e) StatusNotFound
     | None =>
         WriteJSON StatusOK
           (JStatus {| APIVersion := "v1"; Kind := "Status" |} "Success" name)
     end, a, trace (Aggregator_DeletePod W order ns name a)).
Proof.
  unfold Router_handleDeletePod, m_bind, value, trace.
  pose proof (read_only_DeletePod W order ns name a) as Ha. unfold after in Ha.
  destruct (Aggregator_DeletePod W order ns name a) as [[[e|] a1] t1];
    simpl in *; subst a1; by rewrite app_nil_r.
Qed.

Lemma handleGetPodLog_run W order ns name a :
  Router_handleGetPodLog W order ns name a =
    (match value (Aggregator_GetPodLog W order ns name a) with
     | Err e => HttpError (ErrorOf e) StatusNotFound
     | Ok rc => CopyText rc
     end, a, trace (Aggregator_GetPodLog W order ns name a)).
Proof.
  unfold Router_handleGetPodLog, m_bind, value, trace.
  pose proof (read_only_GetPodLog W order ns name a) as Ha. unfold after in Ha.
  destruct (Aggregator_GetPodLog W order ns name a) as [[[rc|e] a1] t1];
    simpl in *; subst a1; by rewrite app_nil_r.
Qed.

(** The requests of a scan are GETs. *)
Lemma scanTrace_gets W ns name cs :
  Forall (fun r => Method r = "GET") (requests (scanTrace W ns name cs)).
Proof.
  unfold scanTrace. induction cs as [|c cs IH]; [done|].
  rewrite fmap_cons. simpl. rewrite requests_app. apply Forall_app. split; [|done].
  destruct (getJSON_one_request W (decodePod W) c (podPath ns name))
    as [Ht|(req & Ht & Hm & _)]; fold (NodeClient_GetPod W c ns name) in Ht;
    rewrite Ht; simpl; [done|]. by apply Forall_singleton.
Qed.

(** X16. The endpoints for one pod answer 404 for every failure, not only
    for a pod that no node has.  When no node has the pod, get, delete and log
    all answer 404 with the not-found error and only the GETs of the scan are
    sent: no DELETE leaves the console.  When a node has it, get answers 200
    with the pod carrying that node's name; delete answers 200 with a
    [Success] status if that node accepts the DELETE and 404 with the node's
    error if it refuses (whatever status the node refused with); log copies
    the node's log body, or answers 404 with the node's error. *)
Theorem pod_handlers_answer_404_on_failure (W : World) (a : Aggregator)
    (order : list string) (ns name : string) :
  reachable a ->
  let cs := omap (fun k => clients a !! k) order in
  let get := Router_handleGetPod W order ns name a in
  let del := Router_handleDeletePod W order ns name a in
  let log := Router_handleGetPodLog W order ns name a in
  ((forall c, c ∈ cs -> lacksPod W ns name c) ->
     value get = HttpError (ErrorOf (ErrPodNotFound ns name)) StatusNotFound /\
     value del = HttpError (ErrorOf (ErrPodNotFound ns name)) StatusNotFound /\
     value log = HttpError (ErrorOf (ErrPodNotFound ns name)) StatusNotFound /\
     Forall (fun r => Method r = "GET") (requests (trace del))) /\
  (forall pre c post pod,
     cs = pre ++ c :: post ->
     (forall c', c' ∈ pre -> lacksPod W ns name c') ->
     (NodeClient_GetPod W c ns name).1 = Ok pod ->
     value get = WriteJSON StatusOK (JPod (annotate (Name c) pod)) /\
     value del =
       match (NodeClient_DeletePod W c ns name).1 with
       | None => WriteJSON StatusOK
                   (JStatus {| APIVersion := "v1"; Kind := "Status" |} "Success" name)
       | Some e => HttpError (ErrorOf e) StatusNotFound
       end /\
     (forall resp,
        newRequestErr W "DELETE" (Address c +:+ podPath ns name) = None ->
        Do W {| Method := "DELETE"; URL := Address c +:+ podPath ns name;
                Header := []; ReqBody := None |} = inr resp ->
        400 <= StatusCode resp ->
        value del = HttpError (ErrorOf (ErrDeletePodFailed (StatusCode resp) (Body resp)))
                      StatusNotFound) /\
     value log =
       match (NodeClient_GetPodLog W c ns name).1 with
       | Ok body => CopyText body
       | Err e => HttpError (ErrorOf e) StatusNotFound
       end) /\
  after get = a /\ after del = a /\ after log = a.
Proof.
  intros Hwf%reachable_wf cs get del log. subst get del log.
  rewrite handleGetPod_run, handleDeletePod_run, handleGetPodLog_run.
  unfold value at 1 3 5. unfold after. simpl.
  repeat apply conj; try done.
  - intros Hnone.
    rewrite GetPod_run, DeletePod_none, GetPodLog_none by done.
    rewrite scanPod_none by done. unfold value, trace. simpl.
    repeat apply conj; try done. apply scanTrace_gets.
  - intros pre c post pod Hcs Hpre Hc.
    rewrite GetPod_run. fold cs. rewrite Hcs.
    rewrite (scanPod_found W pre c post pod) by done.
    rewrite (DeletePod_found W a order ns name pre c post pod) by done.
    rewrite (GetPodLog_found W a order ns name pre c post pod) by done.
    unfold value. simpl. repeat apply conj; try done.
    intros resp Hreq Hdo Hst.
    unfold NodeClient_DeletePod, mkRequest. rewrite Hreq.
    unfold io_bind, doRequest. rewrite Hdo.
    apply Z.leb_le in Hst. by rewrite Hst.
Qed.

(** [default/web] lives on [c]: get, delete and log succeed; nothing
    named [default/none] exists: all three answer 404. *)
Lemma pod_handlers_answer_404_on_failure_demo :
  value (Router_handleGetPod demoWorld demoOrder "default" "none" demoProbed)
    = HttpError (ErrorOf (ErrPodNotFound "default" "none")) StatusNotFound /\
  value (Router_handleDeletePod demoWorld demoOrder "default" "none" demoProbed)
    = HttpError (ErrorOf (ErrPodNotFound "default" "none")) StatusNotFound.
Proof.
  assert (forall c, c ∈ omap (fun k => clients demoProbed !! k) demoOrder ->
                    lacksPod demoWorld "default" "none" c) as Hnone.
  { intros c Hc. vm_compute in Hc.
    repeat (apply elem_of_cons in Hc as [->|Hc]; [vm_compute; reflexivity|]).
    by inversion Hc. }
  destruct (proj1 (pod_handlers_answer_404_on_failure demoWorld demoProbed demoOrder
                     "default" "none" demo_reachable) Hnone) as (Hg & Hd & _).
  exact (conj Hg Hd).
Defined.

(** ** Start-up *)

Lemma main_clients (nodes : list config.NodeDef) :
  foldl (fun clients n => clients ++ [NewNodeClient (config.Name n) (config.Address n)])
        [] nodes
    = (fun n => NewNodeClient (config.Name n) (config.Address n)) <$> nodes.
Proof. by rewrite foldl_snoc_fmap. Qed.

Lemma NewAggregator_nonempty cs :
  cs <> [] -> (0 < size (clients (NewAggregator cs)))%nat.
Proof.
  destruct cs as [|x pre _] using rev_ind; [done|]. intros _.
  assert (size (clients (NewAggregator (pre ++ [x]))) <> 0)%nat; [|lia].
  intros Hz%map_size_empty_iff.
  pose proof (lookup_insert_eq (clients (NewAggregator pre)) (Name x) x) as Hx.
  rewrite <- NewAggregator_snoc, Hz in Hx. done.
Qed.

Lemma NewAggregator_elem cs k c : clients (NewAggregator cs) !! k = Some c -> c ∈ cs.
Proof.
  induction cs as [|x pre IH] using rev_ind; [done|].
  rewrite NewAggregator_snoc, lookup_insert.
  case_decide; [intros [= <-]; set_solver|].
  intros Hk. apply elem_of_app. left. by apply IH.
Qed.

(** X17. [main] builds a registry only from a configuration file that is
    read, parsed and lists at least one static node: a load error ends the
    process with that error, and a file that names a discovery domain and no
    node is accepted by [Load] and still ends in "no nodes configured".  The
    registry it builds holds one fresh client per listed node (the last one
    for a name listed twice), so every client starts healthy with the zero
    time as last ping, under its own name, and there is at least one
    client. *)
Theorem main_needs_static_nodes (E : config.Env) (path : string) :
  (forall e, config.Load E path = inl e -> main E path = ExitConfigError e) /\
  (forall cfg,
     config.Load E path = inr cfg ->
     (config.Nodes cfg <> [] \/ config.DiscoveryDNS cfg <> "") /\
     (config.Nodes cfg = [] -> main E path = FatalNoNodes) /\
     (config.Nodes cfg <> [] ->
        main E path =
          RegistryBuilt
            (NewAggregator
               ((fun n => NewNodeClient (config.Name n) (config.Address n))
                  <$> config.Nodes cfg)))) /\
  (forall agg,
     main E path = RegistryBuilt agg ->
     reachable agg /\
     (0 < size (clients agg))%nat /\
     (forall k c, clients agg !! k = Some c ->
                  healthy c = true /\ lastPing c = zeroTime /\ Name c = k)).
Proof.
  repeat apply conj.
  - intros e He. unfold main. by rewrite He.
  - intros cfg Hl. unfold main. rewrite Hl, main_clients.
    repeat apply conj.
    + unfold config.Load in Hl.
      destruct (config.ReadFile E path) as [msg|data]; [done|].
      destruct (config.Unmarshal E data _) as [msg|cfg']; [done|].
      destruct (len (config.Nodes cfg') =? 0) eqn:Hlen; simpl in Hl.
      * case_bool_decide as Hd; [done|]. injection Hl as <-. by right.
      * injection Hl as <-. left. intros Hnil. by rewrite Hnil in Hlen.
    + by intros ->.
    + intros Hne. destruct (config.Nodes cfg) as [|n ns]; [done|]. done.
  - intros agg Hm. unfold main in Hm.
    destruct (config.Load E path) as [e|cfg]; [done|].
    rewrite main_clients in Hm.
    set (cs := (fun n => NewNodeClient (config.Name n) (config.Address n))
                 <$> config.Nodes cfg) in *.
    destruct (len cs =? 0) eqn:Hlen; [done|]. injection Hm as <-.
    assert (cs <> []) as Hne by (intros Hnil; by rewrite Hnil in Hlen).
    repeat apply conj.
    + apply reach_new.
    + by apply NewAggregator_nonempty.
    + intros k c Hk.
      pose proof (NewAggregator_elem cs k c Hk) as Hin.
      split_and!; [| |by apply (NewAggregator_wf cs)].
      * apply list_elem_of_fmap in Hin as (m & -> & _). done.
      * apply list_elem_of_fmap in Hin as (m & -> & _). done.
Qed.

(** ** The dashboard: paths *)

Lemma stripPrefix_app prefix s : stripPrefix prefix (prefix +:+ s) = Some s.
Proof.
  induction prefix as [|a prefix IH]; [done|]. simpl. by rewrite Ascii.eqb_refl.
Qed.

Lemma stripPrefix_Some prefix s rest :
  stripPrefix prefix s = Some rest -> s = prefix +:+ rest.
Proof.
  revert s. induction prefix as [|a prefix IH]; intros s; simpl.
  - by intros [= ->].
  - destruct s as [|b s]; [done|].
    destruct (Ascii.eqb a b) eqn:Hab; [|done].
    apply Ascii.eqb_eq in Hab as ->. intros Hs. by rewrite (IH s Hs).
Qed.

Lemma TrimPrefix_app prefix s : TrimPrefix (prefix +:+ s) prefix = s.
Proof. unfold TrimPrefix. by rewrite stripPrefix_app. Qed.

Lemma HasPrefix_app prefix s : HasPrefix (prefix +:+ s) prefix = true.
Proof. unfold HasPrefix. by rewrite stripPrefix_app. Qed.

Lemma cutSlash_Some s before behind :
  cutSlash s = Some (before, behind) ->
  s = before +:+ "/" +:+ behind /\ cutSlash before = None.
Proof.
  revert before. induction s as [|c s IH]; intros before; [done|]. simpl.
  destruct (Ascii.eqb c slash) eqn:Hc.
  - apply Ascii.eqb_eq in Hc as ->. by intros [= <- <-].
  - destruct (cutSlash s) as [[x y]|]; [|done].
    intros [= <- <-]. destruct (IH x eq_refl) as [-> Hx].
    split; [done|]. simpl. by rewrite Hc, Hx.
Qed.

Lemma cutSlash_None s :
  cutSlash s = None <-> forall x y, s <> x +:+ "/" +:+ y.
Proof.
  split.
  - intros Hs x y ->. revert Hs. induction x as [|c x IH]; simpl.
    + change (Ascii.eqb (Ascii.ascii_of_nat 47) slash) with true. done.
    + destruct (Ascii.eqb c slash); [done|].
      destruct (cutSlash (x +:+ "/" +:+ y)) as [[? ?]|]; [done|]. by intros _; apply IH.
  - intros Hs. destruct (cutSlash s) as [[x y]|] eqn:Hc; [|done].
    apply cutSlash_Some in Hc as [-> _]. by destruct (Hs x y).
Qed.

Lemma cutSlash_app ns name :
  cutSlash ns = None -> cutSlash (ns +:+ "/" +:+ name) = Some (ns, name).
Proof.
  induction ns as [|c ns IH]; simpl.
  - intros _. change (Ascii.eqb (Ascii.ascii_of_nat 47) slash) with true. done.
  - destruct (Ascii.eqb c slash); [done|].
    destruct (cutSlash ns) as [[? ?]|]; [done|]. intros _. by rewrite IH.
Qed.

(** [SplitN(s, "/", 2)] cuts at the first slash and nowhere else. *)
Lemma SplitN2_spec s :
  (exists before behind,
     SplitN2 s = [before; behind] /\ s = before +:+ "/" +:+ behind /\
     forall x y, before <> x +:+ "/" +:+ y) \/
  (SplitN2 s = [s] /\ forall x y, s <> x +:+ "/" +:+ y).
Proof.
  unfold SplitN2. destruct (cutSlash s) as [[before behind]|] eqn:Hc.
  - left. exists before, behind. apply cutSlash_Some in Hc as [-> Hb].
    split; [done|]. split; [done|]. by apply cutSlash_None.
  - right. split; [done|]. by apply cutSlash_None.
Qed.

Lemma stringAt_annotate node pod :
  stringAt (Annotations (Meta (annotate node pod))) nodeAnnotation = node.
Proof. unfold stringAt, annotate. simpl. by rewrite lookup_insert_eq. Qed.

Section DashboardFacts.
Context (W : World) {PodRest PodDetailRest NodeRest : Type}.
Context (podRest : Pod -> PodRest) (podDetailRest : Pod -> PodDetailRest)
        (nodeRest : Node -> NodeRest).
Context (decodeCatalog decodeTagList : string -> string + list string).
Context (registryURL logsURL : string).

Local Notation view := (buildPodView PodRest podRest).
Local Notation render := (Handler_render PodRest PodDetailRest NodeRest).
Local Notation serve :=
  (Handler_ServeHTTP W PodRest PodDetailRest NodeRest podRest podDetailRest nodeRest
     decodeCatalog decodeTagList registryURL logsURL).
Local Notation podDetail :=
  (Handler_handlePodDetail W PodRest PodDetailRest NodeRest podRest podDetailRest).

Lemma handlePodDetail_run ch r ns name a :
  cutSlash ns = None ->
  podDetail ch r ("/pods/" +:+ ns +:+ "/" +:+ name) a =
    (match value (Aggregator_GetPod W (scanOrder ch) ns name a) with
     | Err _ => PageNotFound PodRest PodDetailRest NodeRest
     | Ok (pod, node) =>
         render r "pod-detail"
           {| Title := "Pod: " +:+ name;
              CurrentNav := "pods";
              Breadcrumbs := [{| Label := "Dashboard"; CrumbURL := "/ui/" |};
                              {| Label := "Pods"; CrumbURL := "/ui/pods" |};
                              {| Label := name; CrumbURL := "" |}];
              Content := PodDetailData PodRest PodDetailRest NodeRest
                           (view pod) (podDetailRest pod) (Annotations (Meta pod)) node |}
     end, a, trace (Aggregator_GetPod W (scanOrder ch) ns name a)).
Proof.
  intros Hns. unfold Handler_handlePodDetail.
  rewrite TrimPrefix_app. unfold SplitN2. rewrite (cutSlash_app ns name Hns).
  unfold m_bind, value, trace.
  pose proof (read_only_GetPod W (scanOrder ch) ns name a) as Ha. unfold after in Ha.
  destruct (Aggregator_GetPod W (scanOrder ch) ns name a) as [[[[pod n]|e] a1] t1];
    simpl in *; subst a1; by rewrite app_nil_r.
Qed.

(** X18. A request for [/ui/pods/<ns>/<name>], with no slash in [ns],
    looks up the pod [name] of namespace [ns], where [name] is everything
    after the second slash, further slashes included: a 404 if no node has it,
    the pod-detail page otherwise, showing as node the name of the client
    that answered, which is also the node of the pod's own view.  A request
    for [/ui/pods/<x>] with no slash in [x] is a 404 for which no node is
    asked. *)
Theorem pod_detail_path (ch : Choices) (r : UIRequest) (a : Aggregator) :
  (forall ns name,
     (forall x y, ns <> x +:+ "/" +:+ y) ->
     Path r = "/ui/pods/" +:+ ns +:+ "/" +:+ name ->
     let got := Aggregator_GetPod W (scanOrder ch) ns name a in
     trace (serve ch r a) = trace got /\
     (forall e, value got = Err e ->
                value (serve ch r a) = PageNotFound PodRest PodDetailRest NodeRest) /\
     (forall pod node,
        value got = Ok (pod, node) ->
        PV_Node PodRest (view pod) = node /\
        value (serve ch r a) =
          render r "pod-detail"
            {| Title := "Pod: " +:+ name;
               CurrentNav := "pods";
               Breadcrumbs := [{| Label := "Dashboard"; CrumbURL := "/ui/" |};
                               {| Label := "Pods"; CrumbURL := "/ui/pods" |};
                               {| Label := name; CrumbURL := "" |}];
               Content := PodDetailData PodRest PodDetailRest NodeRest
                            (view pod) (podDetailRest pod)
                            (Annotations (Meta pod)) node |})) /\
  (forall x,
     (forall y z, x <> y +:+ "/" +:+ z) ->
     Path r = "/ui/pods/" +:+ x ->
     value (serve ch r a) = PageNotFound PodRest PodDetailRest NodeRest /\
     trace (serve ch r a) = []).
Proof.
  split.
  - intros ns name Hns%cutSlash_None Hp got. subst got.
    assert (serve ch r a = podDetail ch r ("/pods/" +:+ ns +:+ "/" +:+ name) a) as ->.
    { unfold Handler_ServeHTTP. rewrite Hp.
      change ("/ui/pods/" +:+ ns +:+ "/" +:+ name)
        with ("/ui" +:+ "/pods/" +:+ ns +:+ "/" +:+ name).
      rewrite TrimPrefix_app. done. }
    rewrite handlePodDetail_run by done. unfold value at 2 4, trace at 1. simpl.
    repeat apply conj; [done|by intros e ->|].
    intros pod node Hg. rewrite Hg. split; [|done].
    rewrite GetPod_run in Hg.
    destruct (scan_cases W ns name (omap (fun k => clients a !! k) (scanOrder ch)))
      as [(pre & c & post & pod0 & Hcs & Hpre & Hc)|Hnone].
    + rewrite Hcs, (scanPod_found W pre c post pod0) in Hg by done.
      injection Hg as <- <-. apply stringAt_annotate.
    + by rewrite scanPod_none in Hg.
  - intros x Hx%cutSlash_None Hp.
    unfold Handler_ServeHTTP. rewrite Hp.
    change ("/ui/pods/" +:+ x) with ("/ui" +:+ "/pods/" +:+ x).
    rewrite TrimPrefix_app.
    change (HasPrefix ("/pods/" +:+ x) "/static/") with false.
    change (bool_decide ("/pods/" +:+ x = "")) with false.
    cbv iota.
    change (HasPrefix ("/pods/" +:+ x) "/static/") with false.
    rewrite !bool_decide_eq_false_2 by done. simpl orb. cbv iota.
    rewrite HasPrefix_app.
    unfold Handler_handlePodDetail. rewrite TrimPrefix_app. unfold SplitN2. by rewrite Hx.
Qed.

Local Notation gets t := (Forall (fun req => Method req = "GET") (requests t)).
Local Notation dashboard :=
  (Handler_handleDashboard W PodRest PodDetailRest NodeRest podRest).
Local Notation podsPage := (Handler_handlePods W PodRest PodDetailRest NodeRest podRest).
Local Notation nodesPage := (Handler_handleNodes W PodRest PodDetailRest NodeRest nodeRest).
Local Notation nodeDetail :=
  (Handler_handleNodeDetail W PodRest PodDetailRest NodeRest podRest nodeRest).
Local Notation registryPage :=
  (Handler_handleRegistry W PodRest PodDetailRest NodeRest
     decodeCatalog decodeTagList registryURL).
Local Notation logsPage :=
  (Handler_handleLogs W PodRest PodDetailRest NodeRest podRest logsURL).
Local Notation notFound := (PageNotFound PodRest PodDetailRest NodeRest).

Lemma m_bind_run {A B} (m : M A) (f : A -> M B) a :
  m_bind m f a =
    (value (f (value (m a)) (after (m a))), after (f (value (m a)) (after (m a))),
     trace (m a) ++ trace (f (value (m a)) (after (m a)))).
Proof.
  unfold m_bind, value, after, trace. destruct (m a) as [[x a1] t1]. simpl.
  by destruct (f x a1) as [[y a2] t2].
Qed.

Lemma render_known r page data :
  is_Some (pageContentMap !! page) ->
  render r page data =
    Execute PodRest PodDetailRest NodeRest page
      (if bool_decide (HXRequest r = "true") then "page-content" else "layout") data.
Proof.
  intros [t Ht]. unfold Handler_render, Handler_isHTMX. rewrite Ht.
  by case_bool_decide.
Qed.

Lemma wellRendered_render r page data :
  is_Some (pageContentMap !! page) -> wellRendered r (render r page data).
Proof. intros Hp. rewrite render_known by done. by split. Qed.

(** *** The requests of the calls the pages make *)

Lemma gets_app t1 t2 : gets t1 -> gets t2 -> gets (t1 ++ t2).
Proof. intros H1 H2. rewrite requests_app. by apply Forall_app. Qed.

Lemma gets_mjoin (ts : list (list Event)) : Forall (fun t => gets t) ts -> gets (mjoin ts).
Proof.
  induction 1 as [|t ts Ht _ IH]; [done|]. simpl. by apply gets_app.
Qed.

Lemma gets_getJSON {A} (decode : string -> string + A) c path :
  gets (getJSON W decode c path).2.
Proof.
  destruct (getJSON_one_request W decode c path) as [->|(req & -> & Hm & _)]; [done|].
  simpl. by apply Forall_singleton.
Qed.

Lemma gets_log t fmt node e : gets t -> gets (t ++ [EvLog fmt node e]).
Proof. intros Ht. by apply gets_app. Qed.

Lemma gets_ListAllPods order sched a : gets (trace (Aggregator_ListAllPods W order sched a)).
Proof.
  rewrite ListAllPods_run. unfold trace. simpl. apply gets_mjoin, Forall_fmap, Forall_forall.
  intros c _. simpl. unfold listPodsTrace. apply gets_app; [apply gets_getJSON|].
  by destruct (NodeClient_ListPods W c).1.
Qed.

Lemma gets_ListAllNodes order sched a :
  gets (trace (Aggregator_ListAllNodes W order sched a)).
Proof.
  rewrite ListAllNodes_run. unfold trace. simpl. apply gets_mjoin, Forall_fmap, Forall_forall.
  intros c _. simpl. unfold getNodeTrace. apply gets_app; [apply gets_getJSON|].
  by destruct (NodeClient_GetNode W c).1.
Qed.

Lemma gets_GetClusterSummary order a :
  gets (trace (Aggregator_GetClusterSummary W order a)).
Proof.
  rewrite GetClusterSummary_run. unfold trace. simpl.
  apply gets_mjoin, Forall_fmap, Forall_forall. intros c _. apply gets_getJSON.
Qed.

Lemma gets_GetPod order ns name a : gets (trace (Aggregator_GetPod W order ns name a)).
Proof.
  rewrite GetPod_run.
  destruct (scan_cases W ns name (omap (fun k => clients a !! k) order))
    as [(pre & c & post & pod & -> & Hpre & Hc)|Hnone].
  - rewrite (scanPod_found W pre c post pod) by done. apply scanTrace_gets.
  - rewrite scanPod_none by done. apply scanTrace_gets.
Qed.

Lemma gets_GetNode name a : gets (trace (Aggregator_GetNode W name a)).
Proof.
  rewrite GetNode_run. destruct (clients a !! name) as [c|]; [|done].
  apply gets_getJSON.
Qed.

Lemma httpGetOK_one_request url :
  (httpGetOK W url).2 = [] \/
  exists req, (httpGetOK W url).2 = [EvDo req] /\ Method req = "GET" /\ URL req = url.
Proof.
  unfold httpGetOK, mkRequest. destruct (newRequestErr W _ _); [by left|].
  right.
  exists {| Method := "GET"; URL := url; Header := []; ReqBody := None |}.
  split; [|done].
  unfold io_bind, doRequest. destruct (Do W _) as [msg|resp]; [done|].
  by destruct (StatusCode resp =? StatusOK).
Qed.

(** *** What each page shows *)

Lemma recentLoop_take pods acc :
  (length acc < 10)%nat ->
  recentLoop PodRest podRest pods acc = acc ++ (view <$> take (10 - length acc) pods).
Proof.
  revert acc. induction pods as [|pod pods IH]; intros acc Hacc; simpl.
  - by rewrite take_nil, app_nil_r.
  - destruct (Z.leb_spec 10 (len (acc ++ [view pod]))) as [Hle|Hlt];
      unfold len in *; rewrite length_app in *; simpl in *.
    + replace (10 - length acc)%nat with 1%nat by lia. done.
    + rewrite IH by (rewrite length_app; simpl; lia).
      rewrite length_app. simpl.
      replace (10 - length acc)%nat with (S (10 - (length acc + 1))) by lia.
      simpl. by rewrite <- app_assoc.
Qed.

Lemma handleDashboard_run ch r a :
  dashboard ch r a =
    (let summary := value (Aggregator_GetClusterSummary W (summaryOrder ch) a) in
     let pods := (value (Aggregator_ListAllPods W (listOrder ch) (listSched ch) a)).1 in
     render r "dashboard"
       {| Title := "Dashboard";
          CurrentNav := "dashboard";
          Breadcrumbs := [{| Label := "Dashboard"; CrumbURL := "/ui/" |}];
          Content :=
            DashboardData PodRest PodDetailRest NodeRest
              (NodeCount summary) (HealthyNodes summary) (PodCount summary)
              (RunningPods summary) (Nodes summary) (view <$> take 10 pods) |},
     a,
     trace (Aggregator_GetClusterSummary W (summaryOrder ch) a) ++
     trace (Aggregator_ListAllPods W (listOrder ch) (listSched ch) a)).
Proof.
  unfold Handler_handleDashboard. rewrite !m_bind_run.
  rewrite (read_only_GetClusterSummary W _ a), (read_only_ListAllPods W _ _ a).
  unfold m_ret, value, after, trace. simpl.
  by rewrite (recentLoop_take _ []), app_nil_r by (simpl; lia).
Qed.

Lemma podsStep_fold nsFilter pods views namespaces :
  foldl (podsStep PodRest podRest nsFilter) (views, namespaces) pods =
    (views ++
       (view <$> filter (fun pod => nsFilter = "" \/ Namespace (Meta pod) = nsFilter) pods),
     list_to_set ((fun pod => Namespace (Meta pod)) <$> pods) ∪ namespaces).
Proof.
  revert views namespaces. induction pods as [|pod pods IH]; intros views namespaces; simpl.
  - rewrite app_nil_r. f_equal. by rewrite (left_id_L ∅ (∪)).
  - unfold podsStep at 2. simpl. rewrite filter_cons.
    destruct (decide (nsFilter = "" \/ Namespace (Meta pod) = nsFilter)) as [Hin|Hout].
    + assert (negb (bool_decide (nsFilter = ""))
              && negb (bool_decide (Namespace (Meta pod) = nsFilter)) = false) as ->.
      { destruct Hin as [Hin|Hin]; rewrite (bool_decide_eq_true_2 _ Hin); simpl; [done|].
        apply andb_false_r. }
      rewrite IH. simpl. rewrite <- app_assoc. f_equal.
      by rewrite (assoc_L (∪)), (comm_L (∪) (list_to_set _)).
    + assert (negb (bool_decide (nsFilter = ""))
              && negb (bool_decide (Namespace (Meta pod) = nsFilter)) = true) as ->.
      { rewrite !bool_decide_eq_false_2 by tauto. done. }
      rewrite IH. simpl. f_equal.
      by rewrite (assoc_L (∪)), (comm_L (∪) (list_to_set _)).
Qed.

Lemma handlePods_run ch r a :
  podsPage ch r a =
    (let pods := (value (Aggregator_ListAllPods W (listOrder ch) (listSched ch) a)).1 in
     render r "pods"
       {| Title := "Pods";
          CurrentNav := "pods";
          Breadcrumbs := [{| Label := "Dashboard"; CrumbURL := "/ui/" |};
                          {| Label := "Pods"; CrumbURL := "/ui/pods" |}];
          Content :=
            PodsData PodRest PodDetailRest NodeRest
              (view <$> filter (fun pod => NamespaceQuery r = "" \/
                                           Namespace (Meta pod) = NamespaceQuery r) pods)
              (namespaceOrder ch
                 (list_to_set ((fun pod => Namespace (Meta pod)) <$> pods)))
              (NamespaceQuery r) |},
     a, trace (Aggregator_ListAllPods W (listOrder ch) (listSched ch) a)).
Proof.
  unfold Handler_handlePods. cbv zeta. rewrite m_bind_run.
  rewrite (read_only_ListAllPods W _ _ a).
  unfold m_ret, value, after, trace. simpl.
  rewrite podsStep_fold. simpl. rewrite app_nil_r.
  by rewrite (right_id_L ∅ (∪)).
Qed.

Lemma handleNodes_run ch r a :
  nodesPage ch r a =
    (render r "nodes"
       {| Title := "Nodes";
          CurrentNav := "nodes";
          Breadcrumbs := [{| Label := "Dashboard"; CrumbURL := "/ui/" |};
                          {| Label := "Nodes"; CrumbURL := "/ui/nodes" |}];
          Content :=
            NodesData PodRest PodDetailRest NodeRest
              (buildNodeView NodeRest nodeRest <$>
                 (value (Aggregator_ListAllNodes W (listOrder ch) (listSched ch) a)).1) |},
     a, trace (Aggregator_ListAllNodes W (listOrder ch) (listSched ch) a)).
Proof.
  unfold Handler_handleNodes. rewrite m_bind_run.
  rewrite (read_only_ListAllNodes W _ _ a).
  unfold m_ret, value, after, trace. simpl.
  by rewrite foldl_snoc_fmap, app_nil_r.
Qed.

Lemma handleLogs_run ch r a :
  logsPage ch r a =
    (render r "logs"
       {| Title := "Logs";
          CurrentNav := "logs";
          Breadcrumbs := [{| Label := "Dashboard"; CrumbURL := "/ui/" |};
                          {| Label := "Logs"; CrumbURL := "/ui/logs" |}];
          Content :=
            LogsData PodRest PodDetailRest NodeRest
              (view <$> (value (Aggregator_ListAllPods W (listOrder ch) (listSched ch) a)).1)
              logsURL |},
     a, trace (Aggregator_ListAllPods W (listOrder ch) (listSched ch) a)).
Proof.
  unfold Handler_handleLogs. rewrite m_bind_run.
  rewrite (read_only_ListAllPods W _ _ a).
  unfold m_ret, value, after, trace. simpl.
  by rewrite foldl_snoc_fmap, app_nil_r.
Qed.

Lemma foldl_filter_snoc_fmap {A B} (P : A -> Prop) `{!forall x, Decision (P x)}
    (f : A -> B) (l : list A) (acc : list B) :
  foldl (fun views x => if decide (P x) then views ++ [f x] else views) acc l
    = acc ++ (f <$> filter P l).
Proof.
  revert acc. induction l as [|x l IH]; intros acc; simpl.
  - by rewrite app_nil_r.
  - rewrite IH, filter_cons. destruct (decide (P x)); [|done].
    by rewrite <- app_assoc.
Qed.

Lemma handleNodeDetail_run ch r name a :
  nodeDetail ch r ("/nodes/" +:+ name) a =
    match value (Aggregator_GetNode W name a) with
    | Err _ => (notFound, a, trace (Aggregator_GetNode W name a))
    | Ok node =>
        (render r "node-detail"
           {| Title := "Node: " +:+ name;
              CurrentNav := "nodes";
              Breadcrumbs := [{| Label := "Dashboard"; CrumbURL := "/ui/" |};
                              {| Label := "Nodes"; CrumbURL := "/ui/nodes" |};
                              {| Label := name; CrumbURL := "" |}];
              Content :=
                NodeDetailData PodRest PodDetailRest NodeRest
                  (buildNodeView NodeRest nodeRest node)
                  (view <$>
                     filter (fun pod => stringAt (Annotations (Meta pod)) nodeAnnotation = name)
                       (value (Aggregator_ListAllPods W (listOrder ch) (listSched ch) a)).1) |},
         a,
         trace (Aggregator_GetNode W name a) ++
         trace (Aggregator_ListAllPods W (listOrder ch) (listSched ch) a))
    end.
Proof.
  unfold Handler_handleNodeDetail. cbv zeta. rewrite TrimPrefix_app, m_bind_run.
  rewrite (read_only_GetNode W _ a).
  destruct (value (Aggregator_GetNode W name a)) as [node|e].
  - rewrite m_bind_run, (read_only_ListAllPods W _ _ a).
    unfold m_ret, value, after, trace. simpl.
    by rewrite foldl_filter_snoc_fmap, app_nil_r.
  - unfold m_ret, value, after, trace. simpl. by rewrite app_nil_r.
Qed.

Lemma fetchRepos_run catalog repos :
  fetchRepos W decodeTagList registryURL catalog repos =
    (repos ++
       ((fun repo => {| RepoName := repo;
                        Tags := tagsOf W decodeTagList registryURL repo |}) <$> catalog),
     mjoin ((fun repo =>
               (httpGetOK W (registryURL +:+ "/v2/" +:+ repo +:+ "/tags/list")).2)
              <$> catalog)).
Proof.
  revert repos. induction catalog as [|repo catalog IH]; intros repos; simpl.
  - unfold io_ret. by rewrite app_nil_r.
  - unfold io_bind at 1. unfold fetchRepo at 1. unfold io_bind at 1.
    unfold tagsOf at 1.
    destruct (httpGetOK W (registryURL +:+ "/v2/" +:+ repo +:+ "/tags/list"))
      as [body t].
    simpl. rewrite IH. simpl.
    by rewrite <- app_assoc, app_nil_r.
Qed.

Lemma registryData_run :
  registryData W decodeCatalog decodeTagList registryURL =
    if bool_decide (registryURL = "") then ({| Available := false; Repos := [] |}, [])
    else
      ({| Available := true;
          Repos := (fun repo => {| RepoName := repo;
                                   Tags := tagsOf W decodeTagList registryURL repo |})
                     <$> catalogOf W decodeCatalog registryURL |},
       (httpGetOK W (registryURL +:+ "/v2/_catalog")).2 ++
       mjoin ((fun repo =>
                 (httpGetOK W (registryURL +:+ "/v2/" +:+ repo +:+ "/tags/list")).2)
                <$> catalogOf W decodeCatalog registryURL)).
Proof.
  unfold registryData, catalogOf. case_bool_decide; [done|].
  unfold io_bind at 1.
  destruct (httpGetOK W (registryURL +:+ "/v2/_catalog")) as [[body|] t]; simpl;
    [|by rewrite app_nil_r].
  destruct (decodeCatalog body) as [msg|catalog]; simpl; [by rewrite app_nil_r|].
  unfold io_bind. rewrite fetchRepos_run. simpl. by rewrite app_nil_r.
Qed.

Lemma handleRegistry_run r a :
  registryPage r a =
    (render r "registry"
       {| Title := "Registry";
          CurrentNav := "registry";
          Breadcrumbs := [{| Label := "Dashboard"; CrumbURL := "/ui/" |};
                          {| Label := "Registry"; CrumbURL := "/ui/registry" |}];
          Content :=
            RegistryContent PodRest PodDetailRest NodeRest
              (registryData W decodeCatalog decodeTagList registryURL).1 |},
     a, (registryData W decodeCatalog decodeTagList registryURL).2).
Proof.
  unfold Handler_handleRegistry. rewrite m_bind_run.
  unfold liftIO, m_ret, value, after, trace. simpl. by rewrite app_nil_r.
Qed.

Lemma gets_registryData : gets (registryData W decodeCatalog decodeTagList registryURL).2.
Proof.
  assert (forall url, gets (httpGetOK W url).2) as Hget.
  { intros url. destruct (httpGetOK_one_request url) as [->|(req & -> & Hm & _)]; [done|].
    simpl. by apply Forall_singleton. }
  rewrite registryData_run. case_bool_decide; [done|]. simpl.
  apply gets_app; [apply Hget|].
  apply gets_mjoin, Forall_fmap, Forall_forall. intros repo _. apply Hget.
Qed.

Lemma known_page page :
  page ∈ ["dashboard"; "pods"; "pod-detail"; "nodes"; "node-detail"; "registry"; "logs"] ->
  is_Some (pageContentMap !! page).
Proof.
  rewrite !elem_of_cons, elem_of_nil.
  intros [->|[->|[->|[->|[->|[->|[->|[]]]]]]]]; eexists; vm_compute; reflexivity.
Qed.

Local Notation reads r a m :=
  (after m = a /\ gets (trace m) /\ wellRendered r (value m)).

Lemma handlePodDetail_reads ch r path a : reads r a (podDetail ch r path a).
Proof.
  unfold Handler_handlePodDetail.
  destruct (SplitN2 (TrimPrefix path "/pods/")) as [|ns [|name [|]]];
    try (by repeat apply conj).
  rewrite m_bind_run, (read_only_GetPod W _ _ _ a).
  pose proof (gets_GetPod (scanOrder ch) ns name a) as Hg.
  destruct (value (Aggregator_GetPod W (scanOrder ch) ns name a)) as [[pod node]|e];
    unfold m_ret, value, after, trace; simpl; rewrite app_nil_r;
    repeat apply conj; try done.
  apply wellRendered_render, known_page. set_solver.
Qed.

Lemma handleNodeDetail_reads ch r path a : reads r a (nodeDetail ch r path a).
Proof.
  unfold Handler_handleNodeDetail. cbv zeta.
  rewrite m_bind_run, (read_only_GetNode W _ a).
  pose proof (gets_GetNode (TrimPrefix path "/nodes/") a) as Hg.
  destruct (value (Aggregator_GetNode W (TrimPrefix path "/nodes/") a)) as [node|e].
  - rewrite m_bind_run, (read_only_ListAllPods W _ _ a).
    unfold m_ret, value, after, trace. simpl. rewrite app_nil_r.
    repeat apply conj; [done| |].
    + apply gets_app; [done|]. apply gets_ListAllPods.
    + apply wellRendered_render, known_page. set_solver.
  - unfold m_ret, value, after, trace. simpl. rewrite app_nil_r. by repeat apply conj.
Qed.

(** X19. Serving a page of the dashboard never changes the registry, so
    never a health flag, and sends nothing but GET requests.  A reply that
    executes a template is for one of the seven pages the handler has
    templates for, never the "unknown page" error, with the template
    [page-content] when the request's [HX-Request] header is [true] and
    [layout] for every other value. *)
Theorem dashboard_only_reads (ch : Choices) (r : UIRequest) (a : Aggregator) :
  after (serve ch r a) = a /\
  Forall (fun req => Method req = "GET") (requests (trace (serve ch r a))) /\
  wellRendered r (value (serve ch r a)).
Proof.
  unfold Handler_ServeHTTP. cbv zeta.
  repeat match goal with
         | |- context [if ?b then _ else _] => destruct b
         end;
    try (by repeat apply conj);
    try apply handlePodDetail_reads; try apply handleNodeDetail_reads.
  - rewrite handleDashboard_run. unfold after, trace, value. simpl.
    repeat apply conj; [done| |].
    + apply gets_app; [apply gets_GetClusterSummary|apply gets_ListAllPods].
    + apply wellRendered_render, known_page. set_solver.
  - rewrite handlePods_run. unfold after, trace, value. simpl.
    repeat apply conj; [done|apply gets_ListAllPods|].
    apply wellRendered_render, known_page. set_solver.
  - rewrite handleNodes_run. unfold after, trace, value. simpl.
    repeat apply conj; [done|apply gets_ListAllNodes|].
    apply wellRendered_render, known_page. set_solver.
  - rewrite handleRegistry_run. unfold after, trace, value. simpl.
    repeat apply conj; [done|apply gets_registryData|].
    apply wellRendered_render, known_page. set_solver.
  - rewrite handleLogs_run. unfold after, trace, value. simpl.
    repeat apply conj; [done|apply gets_ListAllPods|].
    apply wellRendered_render, known_page. set_solver.
Qed.

Lemma filter_all {A} (P : A -> Prop) `{!forall x, Decision (P x)} (l : list A) :
  Forall P l -> filter P l = l.
Proof.
  induction 1 as [|x l Hx _ IH]; [done|].
  rewrite filter_cons. destruct (decide (P x)); [|done]. by rewrite IH.
Qed.

Lemma filter_none {A} (P : A -> Prop) `{!forall x, Decision (P x)} (l : list A) :
  Forall (fun x => ~ P x) l -> filter P l = [].
Proof.
  induction 1 as [|x l Hx _ IH]; [done|].
  rewrite filter_cons. by destruct (decide (P x)).
Qed.

(** X20. The front page, [/ui/] or [/ui], shows the counts and the
    per-node entries of the cluster summary and, as recent pods, the views of
    the first ten pods of the aggregated listing in its order, all of them
    when there are fewer.  The summary and the listing are fetched one after
    the other, so every node is asked for its pods twice for one page. *)
Theorem dashboard_recent_pods (ch : Choices) (r : UIRequest) (a : Aggregator) :
  Path r = "/ui/" \/ Path r = "/ui" ->
  let summary := Aggregator_GetClusterSummary W (summaryOrder ch) a in
  let listing := Aggregator_ListAllPods W (listOrder ch) (listSched ch) a in
  exists recent,
    value (serve ch r a) =
      render r "dashboard"
        {| Title := "Dashboard";
           CurrentNav := "dashboard";
           Breadcrumbs := [{| Label := "Dashboard"; CrumbURL := "/ui/" |}];
           Content :=
             DashboardData PodRest PodDetailRest NodeRest
               (NodeCount (value summary)) (HealthyNodes (value summary))
               (PodCount (value summary)) (RunningPods (value summary))
               (Nodes (value summary)) recent |} /\
    recent = view <$> take 10 (value listing).1 /\
    length recent = (length (value listing).1 `min` 10)%nat /\
    trace (serve ch r a) = trace summary ++ trace listing.
Proof.
  intros Hp summary listing. subst summary listing.
  assert (serve ch r a = dashboard ch r a) as ->.
  { unfold Handler_ServeHTTP. by destruct Hp as [-> | ->]. }
  rewrite handleDashboard_run. unfold value at 1, trace at 1. simpl.
  eexists. repeat apply conj; [done|done| |done].
  rewrite length_fmap, length_take. lia.
Qed.

(** X21. The pods page, [/ui/pods], shows the views of the pods of the
    aggregated listing whose namespace is the one of the query, in the order
    of the listing, and of all pods when the query names none.  The
    namespaces it offers are those of the whole listing, each once, whatever
    the filter: filtering never hides a namespace from the choice. *)
Theorem pods_page_filter (ch : Choices) (r : UIRequest) (a : Aggregator) :
  Path r = "/ui/pods" ->
  (forall namespaces : gset string, namespaceOrder ch namespaces ≡ₚ elements namespaces) ->
  let pods := (value (Aggregator_ListAllPods W (listOrder ch) (listSched ch) a)).1 in
  exists views namespaces,
    value (serve ch r a) =
      render r "pods"
        {| Title := "Pods";
           CurrentNav := "pods";
           Breadcrumbs := [{| Label := "Dashboard"; CrumbURL := "/ui/" |};
                           {| Label := "Pods"; CrumbURL := "/ui/pods" |}];
           Content := PodsData PodRest PodDetailRest NodeRest
                        views namespaces (NamespaceQuery r) |} /\
    (NamespaceQuery r = "" -> views = view <$> pods) /\
    (NamespaceQuery r <> "" ->
       views = view <$> filter (fun pod => Namespace (Meta pod) = NamespaceQuery r) pods) /\
    NoDup namespaces /\
    (forall ns, ns ∈ namespaces <-> exists pod, pod ∈ pods /\ Namespace (Meta pod) = ns).
Proof.
  intros Hp Horder pods. subst pods.
  assert (serve ch r a = podsPage ch r a) as ->.
  { unfold Handler_ServeHTTP. by rewrite Hp. }
  rewrite handlePods_run. unfold value at 1. simpl.
  eexists _, _. repeat apply conj; [done| | | |].
  - intros Hq. f_equal. apply filter_all, Forall_forall. intros pod _. by left.
  - intros Hq. f_equal. apply list_filter_iff. intros pod. tauto.
  - rewrite Horder. apply NoDup_elements.
  - intros ns. rewrite Horder, elem_of_elements, elem_of_list_to_set, list_elem_of_fmap.
    split; intros (pod & H1 & H2); exists pod; done.
Qed.

Lemma stringAt_podsFrom c pod :
  pod ∈ podsFrom W c -> stringAt (Annotations (Meta pod)) nodeAnnotation = Name c.
Proof.
  unfold podsFrom. destruct (NodeClient_ListPods W c).1 as [l|e]; [|by inversion 1].
  intros (p0 & -> & _)%list_elem_of_fmap. apply stringAt_annotate.
Qed.

Lemma stringAt_bind_podsFrom cs pod :
  pod ∈ cs ≫= podsFrom W ->
  stringAt (Annotations (Meta pod)) nodeAnnotation ∈ Name <$> cs.
Proof.
  intros (c & Hpod & Hc)%list_elem_of_bind. rewrite (stringAt_podsFrom c pod Hpod).
  apply list_elem_of_fmap. eauto.
Qed.

(** Among the pods of clients with distinct names, those that carry the
    name of one client are the ones that client listed. *)
Lemma node_block cs c :
  NoDup (Name <$> cs) -> c ∈ cs ->
  filter (fun pod => stringAt (Annotations (Meta pod)) nodeAnnotation = Name c)
    (cs ≫= podsFrom W) = podsFrom W c.
Proof.
  induction cs as [|x cs IH]; intros Hnd Hin; [by inversion Hin|].
  rewrite fmap_cons in Hnd. apply NoDup_cons in Hnd as [Hx Hnd].
  rewrite bind_cons, filter_app.
  destruct (decide (Name x = Name c)) as [Heq|Hne].
  - assert (c = x) as ->.
    { apply elem_of_cons in Hin as [Hc|Hc]; [done|].
      destruct Hx. rewrite Heq. apply list_elem_of_fmap. eauto. }
    rewrite (filter_all _ (podsFrom W x)), (filter_none _ (cs ≫= podsFrom W)).
    + by rewrite app_nil_r.
    + apply Forall_forall. intros pod Hpod%stringAt_bind_podsFrom Hn.
      by rewrite Hn in Hpod.
    + apply Forall_forall. intros pod Hpod. by apply stringAt_podsFrom.
  - rewrite (filter_none _ (podsFrom W x)).
    + apply IH; [done|]. apply elem_of_cons in Hin as [->|Hc]; done.
    + apply Forall_forall. intros pod Hpod%stringAt_podsFrom Hn. congruence.
Qed.

(** X22. The page of a node, [/ui/nodes/<name>], is a 404 without any
    request when no client is registered under the name, and a 404 after the
    one node request when that client does not return its node; the pods are
    then not listed.  Otherwise it shows the view of the node and, as its
    pods, the views of exactly the pods that client lists, in the client's
    order, although the page fetches the pods of every node to find them. *)
Theorem node_detail_pods (ch : Choices) (r : UIRequest) (a : Aggregator) (name : string) :
  registry_wf a -> range_order a (listOrder ch) -> (forall l, listSched ch l ≡ₚ l) ->
  Path r = "/ui/nodes/" +:+ name ->
  (clients a !! name = None ->
     value (serve ch r a) = notFound /\ trace (serve ch r a) = []) /\
  (forall c,
     clients a !! name = Some c ->
     (forall e, (NodeClient_GetNode W c).1 = Err e ->
                value (serve ch r a) = notFound /\
                trace (serve ch r a) = (NodeClient_GetNode W c).2) /\
     (forall node,
        (NodeClient_GetNode W c).1 = Ok node ->
        value (serve ch r a) =
          render r "node-detail"
            {| Title := "Node: " +:+ name;
               CurrentNav := "nodes";
               Breadcrumbs := [{| Label := "Dashboard"; CrumbURL := "/ui/" |};
                               {| Label := "Nodes"; CrumbURL := "/ui/nodes" |};
                               {| Label := name; CrumbURL := "" |}];
               Content :=
                 NodeDetailData PodRest PodDetailRest NodeRest
                   (buildNodeView NodeRest nodeRest node) (view <$> podsFrom W c) |} /\
        trace (serve ch r a) =
          (NodeClient_GetNode W c).2 ++
          trace (Aggregator_ListAllPods W (listOrder ch) (listSched ch) a))).
Proof.
  intros Hwf Ho Hs Hp.
  assert (serve ch r a = nodeDetail ch r ("/nodes/" +:+ name) a) as ->.
  { unfold Handler_ServeHTTP. rewrite Hp.
    change ("/ui/nodes/" +:+ name) with ("/ui" +:+ "/nodes/" +:+ name).
    by rewrite TrimPrefix_app. }
  rewrite handleNodeDetail_run, GetNode_run. split.
  - by intros ->.
  - intros c Hc. rewrite Hc.
    assert (filter (fun pod => stringAt (Annotations (Meta pod)) nodeAnnotation = name)
              (value (Aggregator_ListAllPods W (listOrder ch) (listSched ch) a)).1
            = podsFrom W c) as Hblock.
    { rewrite ListAllPods_run. unfold value. simpl.
      rewrite <- (Hwf name c Hc). apply node_block.
      - rewrite Hs, (rangeClients_registered a _ Ho), (registered_names a Hwf).
        apply NoDup_fst_map_to_list.
      - rewrite Hs, (rangeClients_registered a _ Ho). apply elem_of_registered. eauto. }
    rewrite Hblock.
    destruct (NodeClient_GetNode W c) as [[node|e] t]; unfold value, trace; simpl; split;
      try done.
    by intros node' [= <-].
Qed.

Lemma requests_httpGetOK_le (urls : list string) :
  (length (requests (mjoin ((fun url => (httpGetOK W url).2) <$> urls))) <= length urls)%nat.
Proof.
  induction urls as [|url urls IH]; [done|].
  rewrite fmap_cons. simpl. rewrite requests_app, length_app.
  destruct (httpGetOK_one_request url) as [->|(req & -> & _)]; simpl; lia.
Qed.

(** X23. The registry page, [/ui/registry], asks nothing of any node.
    Without a registry address it sends no request and reports the registry
    as unavailable.  With one, it reports it as available whatever the
    registry answers, and shows one repository for every name of the
    catalog, in the catalog's order: a repository whose tags cannot be
    fetched or decoded is shown without tags rather than left out, and a
    catalog that cannot be fetched gives an empty list.  It sends at most
    one request for the catalog and one per repository, all GETs under
    [<registry>/v2/]. *)
Theorem registry_page_catalog (ch : Choices) (r : UIRequest) (a : Aggregator) :
  Path r = "/ui/registry" ->
  let catalog := catalogOf W decodeCatalog registryURL in
  exists data,
    value (serve ch r a) =
      render r "registry"
        {| Title := "Registry";
           CurrentNav := "registry";
           Breadcrumbs := [{| Label := "Dashboard"; CrumbURL := "/ui/" |};
                           {| Label := "Registry"; CrumbURL := "/ui/registry" |}];
           Content := RegistryContent PodRest PodDetailRest NodeRest data |} /\
    (registryURL = "" ->
       data = {| Available := false; Repos := [] |} /\ trace (serve ch r a) = []) /\
    (registryURL <> "" ->
       Available data = true /\
       Repos data =
         (fun repo => {| RepoName := repo;
                         Tags := tagsOf W decodeTagList registryURL repo |}) <$> catalog /\
       (length (requests (trace (serve ch r a))) <= 1 + length catalog)%nat /\
       forall req, req ∈ requests (trace (serve ch r a)) ->
         Method req = "GET" /\ exists rest, URL req = registryURL +:+ "/v2/" +:+ rest).
Proof.
  intros Hp catalog. subst catalog.
  assert (serve ch r a = registryPage r a) as ->.
  { unfold Handler_ServeHTTP. by rewrite Hp. }
  rewrite handleRegistry_run, registryData_run. unfold value at 1, trace. simpl.
  eexists. split; [done|]. split.
  - intros Hu. by rewrite (bool_decide_eq_true_2 _ Hu).
  - intros Hu. rewrite (bool_decide_eq_false_2 _ Hu). simpl.
    repeat apply conj; [done|done| |].
    + rewrite requests_app, length_app.
      assert (length (requests (httpGetOK W (registryURL +:+ "/v2/_catalog")).2) <= 1)%nat.
      { destruct (httpGetOK_one_request (registryURL +:+ "/v2/_catalog"))
          as [->|(req & -> & _)]; simpl; lia. }
      pose proof (requests_httpGetOK_le
                    ((fun repo => registryURL +:+ "/v2/" +:+ repo +:+ "/tags/list")
                       <$> catalogOf W decodeCatalog registryURL)) as Hle.
      rewrite <- list_fmap_compose, length_fmap in Hle.
      unfold compose in Hle. lia.
    + intros req. rewrite requests_app.
      intros [Hreq|Hreq]%elem_of_app.
      * destruct (httpGetOK_one_request (registryURL +:+ "/v2/_catalog"))
          as [Ht|(req' & Ht & Hm & Hurl)]; rewrite Ht in Hreq; [by inversion Hreq|].
        simpl in Hreq. apply list_elem_of_singleton in Hreq as ->.
        split; [done|]. by exists "_catalog".
      * apply requests_mjoin in Hreq as (t & Ht & Hreq).
        apply list_elem_of_fmap in Ht as (repo & -> & _).
        destruct (httpGetOK_one_request (registryURL +:+ "/v2/" +:+ repo +:+ "/tags/list"))
          as [Ht|(req' & Ht & Hm & Hurl)]; rewrite Ht in Hreq; [by inversion Hreq|].
        simpl in Hreq. apply list_elem_of_singleton in Hreq as ->.
        split; [done|]. by exists (repo +:+ "/tags/list").
Qed.

End DashboardFacts.

(** *** The dashboard of the three-node cluster *)

Lemma demo_list_order : range_order demoAggregator (listOrder demoChoices).
Proof.
  unfold range_order. vm_compute.
  eapply perm_trans; [apply perm_skip, perm_swap | apply perm_swap].
Qed.

Lemma pod_detail_path_demo :
  let r := demoRequest "/ui/pods/default/web" "" in
  let got := Aggregator_GetPod demoWorld demoOrder "default" "web" demoAggregator in
  trace (demoServe demoWorld demoChoices r demoAggregator) = trace got /\
  value got = Ok (annotate "c" (demoPod "default" "web" "Running"), "c") /\
  PV_Node unit (demoView (annotate "c" (demoPod "default" "web" "Running"))) = "c".
Proof.
  intros r got.
  assert (forall x y, "default" <> x +:+ "/" +:+ y) as Hns
    by (apply cutSlash_None; reflexivity).
  destruct (proj1 (pod_detail_path demoWorld (fun _ => tt) (fun _ => tt) (fun _ => tt)
                     demoDecodeCatalog demoDecodeTagList "http://reg" "http://logs"
                     demoChoices r demoAggregator) "default" "web" Hns eq_refl)
    as (Ht & _ & Hok).
  assert (value got = Ok (annotate "c" (demoPod "default" "web" "Running"), "c")) as Hgot
    by (vm_compute; reflexivity).
  split; [exact Ht|]. split; [exact Hgot|].
  exact (proj1 (Hok _ _ Hgot)).
Defined.

Lemma dashboard_recent_pods_demo :
  let r := demoRequest "/ui/" "" in
  exists recent,
    recent = demoView <$>
               take 10 (value (Aggregator_ListAllPods demoWorld (listOrder demoChoices)
                                 reverse demoAggregator)).1 /\
    length recent = 7%nat /\
    trace (demoServe demoWorld demoChoices r demoAggregator) =
      trace (Aggregator_GetClusterSummary demoWorld demoOrder demoAggregator) ++
      trace (Aggregator_ListAllPods demoWorld (listOrder demoChoices) reverse demoAggregator).
Proof.
  intros r.
  destruct (dashboard_recent_pods demoWorld (fun _ => tt) (fun _ => tt) (fun _ => tt)
              demoDecodeCatalog demoDecodeTagList "http://reg" "http://logs"
              demoChoices r demoAggregator (or_introl eq_refl))
    as (recent & _ & Hr & Hl & Ht).
  exists recent. split; [exact Hr|]. split; [|exact Ht].
  rewrite Hl. vm_compute. reflexivity.
Defined.

Lemma pods_page_filter_demo :
  let r := demoRequest "/ui/pods" "kube" in
  exists views namespaces,
    value (demoServe demoWorld demoChoices r demoAggregator) =
      Handler_render unit unit unit r "pods"
        {| Title := "Pods";
           CurrentNav := "pods";
           Breadcrumbs := [{| Label := "Dashboard"; CrumbURL := "/ui/" |};
                           {| Label := "Pods"; CrumbURL := "/ui/pods" |}];
           Content := PodsData unit unit unit views namespaces "kube" |} /\
    PV_Name unit <$> views = ["w3"; "w4"] /\
    NoDup namespaces /\
    "default" ∈ namespaces.
Proof.
  intros r.
  destruct (pods_page_filter demoWorld (fun _ => tt) (fun _ => tt) (fun _ => tt)
              demoDecodeCatalog demoDecodeTagList "http://reg" "http://logs"
              demoChoices r demoAggregator eq_refl (fun _ => reflexivity _))
    as (views & namespaces & Hv & _ & Hfilter & Hnd & Hns).
  exists views, namespaces. split; [exact Hv|]. split; [|split; [exact Hnd|]].
  - rewrite Hfilter by discriminate. vm_compute. reflexivity.
  - apply Hns. exists (annotate "c" (demoPod "default" "web" "Running")).
    split; [|reflexivity]. vm_compute. repeat constructor.
Defined.

Lemma node_detail_pods_demo :
  let r := demoRequest "/ui/nodes/c" "" in
  value (demoServe demoWorld demoChoices r demoAggregator) =
    Handler_render unit unit unit r "node-detail"
      {| Title := "Node: c";
         CurrentNav := "nodes";
         Breadcrumbs := [{| Label := "Dashboard"; CrumbURL := "/ui/" |};
                         {| Label := "Nodes"; CrumbURL := "/ui/nodes" |};
                         {| Label := "c"; CrumbURL := "" |}];
         Content :=
           NodeDetailData unit unit unit
             (buildNodeView unit (fun _ => tt) (demoNode "c"))
             (demoView <$> podsFrom demoWorld clientC) |}.
Proof.
  intros r.
  assert (clients demoAggregator !! "c" = Some clientC) as Hc by (vm_compute; reflexivity).
  assert ((NodeClient_GetNode demoWorld clientC).1 = Ok (demoNode "c")) as Hn
    by (vm_compute; reflexivity).
  exact (proj1 (proj2 (proj2 (node_detail_pods demoWorld (fun _ => tt) (fun _ => tt)
                                (fun _ => tt) demoDecodeCatalog demoDecodeTagList
                                "http://reg" "http://logs" demoChoices r demoAggregator "c"
                                (NewAggregator_wf _) demo_list_order reverse_Permutation
                                eq_refl)
                         clientC Hc)
                  (demoNode "c") Hn)).
Defined.

Lemma registry_page_catalog_demo :
  let r := demoRequest "/ui/registry" "" in
  exists data,
    value (demoServe demoRegistry demoChoices r demoAggregator) =
      Handler_render unit unit unit r "registry"
        {| Title := "Registry";
           CurrentNav := "registry";
           Breadcrumbs := [{| Label := "Dashboard"; CrumbURL := "/ui/" |};
                           {| Label := "Registry"; CrumbURL := "/ui/registry" |}];
           Content := RegistryContent unit unit unit data |} /\
    Available data = true /\
    Repos data = [{| RepoName := "app"; Tags := ["v1"; "v2"] |};
                  {| RepoName := "db"; Tags := [] |}].
Proof.
  intros r.
  destruct (registry_page_catalog demoRegistry (fun _ => tt) (fun _ => tt) (fun _ => tt)
              demoDecodeCatalog demoDecodeTagList "http://reg" "http://logs"
              demoChoices r demoAggregator eq_refl)
    as (data & Hv & _ & Hurl).
  destruct (Hurl ltac:(discriminate)) as (Ha & Hr & _).
  exists data. split; [exact Hv|]. split; [exact Ha|].
  rewrite Hr. vm_compute. reflexivity.
Defined.

(** ** The node endpoint *)

(** X24. The endpoint for one node answers 404 for every failure: for a
    name that is not registered, without any request; when the request to
    the registered node cannot be built or gets no answer (the node is
    unreachable); when the node answers with a status of 400 or more; and
    when it answers with a lower status but a body that does not decode.  It
    answers 200 with the node exactly in the remaining case, a status below
    400 with a body that decodes, so a 204 or a 302 counts as success.  The
    cached health flag plays no part: the one GET of
    [/api/v1/nodes/<name>] is sent to the registered client whatever its
    flag, and the registry is left as it was. *)
Theorem handleGetNode_answers (W : World) (a : Aggregator) (name : string) :
  let reply := Router_handleGetNode W name a in
  after reply = a /\
  (clients a !! name = None ->
     value reply = HttpError (ErrorOf (ErrNodeNotFound name)) StatusNotFound /\
     trace reply = []) /\
  (forall c,
     clients a !! name = Some c ->
     let path := "/api/v1/nodes/" +:+ Name c in
     let req := {| Method := "GET"; URL := Address c +:+ path;
                   Header := [("Accept", "application/json")]; ReqBody := None |} in
     (forall msg,
        newRequestErr W "GET" (URL req) = Some msg ->
        value reply = HttpError (ErrorOf (ErrNewRequest msg)) StatusNotFound /\
        trace reply = []) /\
     (newRequestErr W "GET" (URL req) = None ->
        trace reply = [EvDo req] /\
        (forall msg,
           Do W req = inl msg ->
           value reply = HttpError (ErrorOf (ErrDo msg)) StatusNotFound) /\
        (forall resp,
           Do W req = inr resp -> 400 <= StatusCode resp ->
           value reply =
             HttpError (ErrorOf (ErrReturned "GET" path (StatusCode resp) (Body resp)))
               StatusNotFound) /\
        (forall resp msg,
           Do W req = inr resp -> StatusCode resp < 400 ->
           decodeNode W (Body resp) = inl msg ->
           value reply = HttpError (ErrorOf (ErrDecode msg)) StatusNotFound) /\
        (forall resp node,
           Do W req = inr resp -> StatusCode resp < 400 ->
           decodeNode W (Body resp) = inr node ->
           value reply = WriteJSON StatusOK (JNode node))) /\
     (forall c', Name c' = Name c -> Address c' = Address c ->
                 NodeClient_GetNode W c' = NodeClient_GetNode W c)).
Proof.
  intros reply. subst reply. unfold Router_handleGetNode.
  rewrite m_bind_run, (read_only_GetNode W name a), GetNode_run.
  repeat apply conj.
  - destruct (clients a !! name) as [c|]; unfold value, after; simpl; [|done].
    by destruct (NodeClient_GetNode W c).1.
  - intros ->. by unfold value, trace.
  - intros c Hc. cbv zeta. rewrite Hc. unfold value, trace. simpl.
    assert (forall r : result Node,
              (match r with
               | Ok node => m_ret (WriteJSON StatusOK (JNode node))
               | Err e => m_ret (HttpError (ErrorOf e) StatusNotFound)
               end a).2 = []) as Ht by (by intros [node|e]).
    rewrite Ht, app_nil_r. clear Ht.
    unfold NodeClient_GetNode, getJSON, mkRequest.
    repeat apply conj.
    + intros msg ->. done.
    + intros ->. unfold io_bind, doRequest.
      set (req := {| Method := "GET"; URL := Address c +:+ "/api/v1/nodes/" +:+ Name c;
                     Header := [("Accept", "application/json")]; ReqBody := None |}).
      destruct (Do W req) as [msg|resp] eqn:Hdo; simpl.
      { repeat apply conj; try done. by intros msg' [= <-]. }
      destruct (Z.leb_spec 400 (StatusCode resp)) as [Hge|Hlt]; simpl.
      { repeat apply conj; try done.
        - by intros resp' [= <-] _.
        - intros resp' msg [= <-] Hlt. lia.
        - intros resp' node [= <-] Hlt. lia. }
      repeat apply conj; try done.
      * intros resp' [= <-] Hge. lia.
      * intros resp' msg [= <-] _ ->. done.
      * intros resp' node [= <-] _ ->. done.
    + intros c' Hn Ha. by rewrite Hn, Ha.
Qed.

(** Node [b] of the three-node cluster is registered and does not answer:
    its page is a 404 carrying the transport error. *)
Lemma handleGetNode_answers_demo :
  healthy (probed demoWorld clientB) = false /\
  value (Router_handleGetNode demoWorld "b" demoProbed) =
    HttpError (ErrorOf (ErrDo "connection refused")) StatusNotFound /\
  value (Router_handleGetNode demoWorld "b" demoAggregator) =
    HttpError (ErrorOf (ErrDo "connection refused")) StatusNotFound.
Proof.
  assert (clients demoProbed !! "b" = Some (probed demoWorld clientB)) as Hb
    by (vm_compute; reflexivity).
  assert (clients demoAggregator !! "b" = Some clientB) as Hb'
    by (vm_compute; reflexivity).
  destruct (handleGetNode_answers demoWorld demoProbed "b") as (_ & _ & Hreg).
  destruct (Hreg _ Hb) as (_ & Hsent & _).
  destruct (Hsent eq_refl) as (_ & Hdown & _).
  destruct (handleGetNode_answers demoWorld demoAggregator "b") as (_ & _ & Hreg').
  destruct (Hreg' _ Hb') as (_ & Hsent' & _).
  destruct (Hsent' eq_refl) as (_ & Hdown' & _).
  split; [vm_compute; reflexivity|].
  split; [exact (Hdown "connection refused" eq_refl)
         |exact (Hdown' "connection refused" eq_refl)].
Defined.

(** A configuration that names only a discovery domain passes [Load] and
    stops [main] all the same. *)
Lemma main_needs_static_nodes_demo :
  exists cfg,
    config.Load demoEnv "/etc/mkube-console/config.yaml" = inr cfg /\
    config.DiscoveryDNS cfg = "_mkube._tcp.gt.lo" /\
    main demoEnv "/etc/mkube-console/config.yaml" = FatalNoNodes.
Proof.
  eexists. split; [vm_compute; reflexivity|]. split; [reflexivity|].
  destruct (main_needs_static_nodes demoEnv "/etc/mkube-console/config.yaml")
    as (_ & Hloaded & _).
  destruct (Hloaded _ eq_refl) as (_ & Hnone & _).
  exact (Hnone eq_refl).
Defined.
